(** * ECDSA over an abstract finite domain: a shallow embedding of [ecdsa.ts]

    The development follows the TypeScript sources:
    - the byte helpers [compare], [bigintToUint8Array_LE],
      [bigintToUint8Array_BE], [uint8ArrayToBigint_LE] and
      [uint8ArrayToBigint_BE];
    - the generic (higher-order) form of the protocol: the signer
      [_6dcb8a_] with its two signature shapes [_f34c7e_] and [_30ecde_],
      the generic recoverer [_2bfce0_], the fast recoverer [_560c92_] and
      the [verify] method of the class built by [_66a7cf_];
    - the class form ([Ecdsa.sign], [Ecdsa.verify], [Ecdsa.recover_p3mod4]).

    JavaScript [bigint] is [Z]; [%] and [/] on bigints truncate towards zero
    and are [Z.rem] and [Z.quot]; [>>], [<<], [&], [|], [^] are the [Z]
    bit operations.  A [Uint8Array] is a [list Z] of fixed length: a store
    outside the array is ignored, a load outside it is [undefined]. *)

From Stdlib Require Import ZArith Zdiv Lia Bool.
From stdpp Require Import base list.

Local Open Scope Z_scope.

(** ** Byte helpers *)

Module Bytes.

(** [new Uint8Array(B)]: [B] zero bytes. *)
Definition new_Uint8Array (B : nat) : list Z := replicate B 0.

(** A well-formed [Uint8Array] of length [L]: every element is a byte. *)
Definition is_bytes (L : nat) (a : list Z) : Prop :=
  length a = L /\ Forall (fun v => 0 <= v < 256) a.

(** JavaScript relational operators on possibly [undefined] numbers: a
    comparison with [undefined] is [false]. *)
Definition js_gt (u v : option Z) : bool :=
  match u, v with Some p, Some q => p >? q | _, _ => false end.

Definition js_lt (u v : option Z) : bool :=
  match u, v with Some p, Some q => p <? q | _, _ => false end.

(** [compare]: the loop runs [i] from [a.byteLength - 1] down to [0]; the
    argument [m] is [i + 1]. *)
Fixpoint compare_loop (m : nat) (a b : list Z) : Z :=
  match m with
  | O => 0
  | S i =>
      if js_gt (a !! i) (b !! i) then 1
      else if js_lt (a !! i) (b !! i) then -1
      else compare_loop i a b
  end.

Definition compare (a b : list Z) : Z := compare_loop (length a) a b.

(** [bigintToUint8Array_LE]: the [while (b > 0n)] loop.  Every turn shifts
    [b] right by eight bits, so the loop ends after at most as many turns as
    [b] has bits; [fuel] counts the turns left and is shown to be enough in
    [bigintToUint8Array_LE_loop_fuel]. *)
Fixpoint bigintToUint8Array_LE_loop (fuel : nat) (b : Z) (i : nat) (a : list Z)
  : list Z :=
  match fuel with
  | O => a
  | S fuel' =>
      if b >? 0
      then bigintToUint8Array_LE_loop fuel' (Z.shiftr b 8) (S i)
             (<[i := Z.land b 255]> a)
      else a
  end.

Definition bigintToUint8Array_LE (b : Z) (B : nat) : list Z :=
  bigintToUint8Array_LE_loop (S (Z.to_nat (Z.log2 b))) b 0 (new_Uint8Array B).

(** [uint8ArrayToBigint_LE]: [count] is the number of turns left of the
    [for] loop, [i] its index. *)
Fixpoint uint8ArrayToBigint_LE_loop (count i : nat) (a : list Z) (b : Z) : Z :=
  match count with
  | O => b
  | S count' =>
      uint8ArrayToBigint_LE_loop count' (S i) a
        (b + Z.shiftl (a !!! i) (Z.shiftl (Z.of_nat i) 3))
  end.

Definition uint8ArrayToBigint_LE (a : list Z) (B : option nat) : Z :=
  uint8ArrayToBigint_LE_loop
    (Nat.min (length a) (default (length a) B)) 0 a 0.

(** The byte length of [n]:
    [(n => { let i = 0; while (n > 0n) { n >>= 8n; i++; } return i })]. *)
Fixpoint byteLength_loop (fuel : nat) (n : Z) (i : nat) : nat :=
  match fuel with
  | O => i
  | S fuel' => if n >? 0 then byteLength_loop fuel' (Z.shiftr n 8) (S i) else i
  end.

Definition byteLength (n : Z) : nat :=
  byteLength_loop (S (Z.to_nat (Z.log2 n))) n 0.

(** The value of a little-endian byte string. *)
Fixpoint le_val (a : list Z) : Z :=
  match a with
  | [] => 0
  | v :: a' => v + 256 * le_val a'
  end.

(** The [B] low bytes of [b], least significant first. *)
Fixpoint le_bytes (B : nat) (b : Z) : list Z :=
  match B with
  | O => []
  | S B' => Z.land b 255 :: le_bytes B' (Z.shiftr b 8)
  end.

End Bytes.

(** [bigintToUint8Array_BE].  [a[i] = v] with a number [i]: a store at a
    negative index or beyond the array is ignored. *)
Definition store (a : list Z) (i : Z) (v : Z) : list Z :=
  if 0 <=? i then <[Z.to_nat i := v]> a else a.

(** The [while (b > 0n)] loop of [bigintToUint8Array_BE], which walks the
    index down; [fuel] counts the turns left, one for every bit of [b]
    being enough. *)
Fixpoint bigintToUint8Array_BE_loop (fuel : nat) (b : Z) (i : Z) (a : list Z)
  : list Z :=
  match fuel with
  | O => a
  | S fuel' =>
      if b >? 0
      then bigintToUint8Array_BE_loop fuel' (Z.shiftr b 8) (i - 1)
             (store a i (Z.land b 255))
      else a
  end.

(** The counting loop [for (let c = b; c > 0n; i++, c >>= 8n);] is the loop
    of [Bytes.byteLength]. *)
Definition bigintToUint8Array_BE (b : Z) (B : nat) : list Z :=
  let i := Z.of_nat (Bytes.byteLength b) in
  let b := Z.shiftr b
             (Z.shiftl (if i >? Z.of_nat B - 1 then i - Z.of_nat B else 0) 3) in
  let i := Z.min (Z.of_nat B - 1) (i - 1) in
  let a := Bytes.new_Uint8Array B in
  bigintToUint8Array_BE_loop (S (Z.to_nat (Z.log2 b))) b i a.

(** ** Exceptions

    A JavaScript expression either returns or throws ([TypeError] when a
    bigint operator meets [undefined], [RangeError] on a bigint division by
    zero).  Which error it is plays no role here. *)

Inductive result (A : Type) : Type :=
| Ok (a : A)
| Throw.

Arguments Ok {A} a.
Arguments Throw {A}.

Definition bind {A B : Type} (m : result A) (f : A -> result B) : result B :=
  match m with
  | Ok a => f a
  | Throw => Throw
  end.

Notation "'let!' x ':=' m 'in' f" := (bind m (fun x => f))
  (at level 10, x name, m at level 100, f at level 200).

(** [v!] used as a bigint operand: [undefined] makes the operator throw. *)
Definition defined (v : option Z) : result Z :=
  match v with
  | Some z => Ok z
  | None => Throw
  end.

(** [a % b] and [a / b] on bigints. *)
Definition js_rem (a b : Z) : result Z :=
  if b =? 0 then Throw else Ok (Z.rem a b).

Definition js_quot (a b : Z) : result Z :=
  if b =? 0 then Throw else Ok (Z.quot a b).

(** ** The interface of the arithmetic packages

    [FinitePoint], the curve, the fields and the domain parameters come from
    the packages finite-curve, finite-field and finite-domain, which are
    imported by [ecdsa.ts] and are not part of it.  They are parameters of
    the development: records of operations here, and the laws assumed of
    them in [DomainLaws] below.  A method [op(out, ...)] of the curve writes
    its result to [out] and returns it; it is a function to the new value of
    [out]. *)

Module FinitePoint.
Record t : Type := mk {
  x : option Z;
  y : option Z;
  isIdentity : bool
}.

Definition set_x (R : t) (v : option Z) : t :=
  mk v (y R) (isIdentity R).

Definition set_isIdentity (R : t) (v : bool) : t :=
  mk (x R) (y R) v.

(** Equality of two point objects, field by field. *)
Definition coordinate_eqb (u v : option Z) : bool :=
  match u, v with
  | Some a, Some b => a =? b
  | None, None => true
  | _, _ => false
  end.

Definition eqb (P Q : t) : bool :=
  coordinate_eqb (x P) (x Q) && coordinate_eqb (y P) (y Q)
  && Bool.eqb (isIdentity P) (isIdentity Q).
End FinitePoint.

Module FiniteField.
Record t : Type := mk {
  add : Z -> Z -> Z;
  multiply : Z -> Z -> Z;
  divide : Z -> Z -> Z;
  inverse : Z -> Z;
  reciprocal : Z -> Z
}.
End FiniteField.

Module FiniteCurve.
Record t : Type := mk {
  (** [new FinitePoint()] *)
  new : FinitePoint.t;
  (** the base field, [E.F] *)
  F : FiniteField.t;
  add : FinitePoint.t -> FinitePoint.t -> FinitePoint.t;
  multiply : Z -> FinitePoint.t -> FinitePoint.t;
  negate : FinitePoint.t -> FinitePoint.t;
  solve : FinitePoint.t -> FinitePoint.t;
  (** the name of [solve] in the release the class form was written for *)
  solve_p3mod4 : FinitePoint.t -> FinitePoint.t
}.
End FiniteCurve.

Module FiniteDomain.
Record t : Type := mk {
  E : FiniteCurve.t;
  (** the scalar field, integers modulo [n] *)
  F : FiniteField.t;
  G : FinitePoint.t;
  n : Z;
  h : Z;
  divide : Z -> FinitePoint.t -> FinitePoint.t
}.
End FiniteDomain.

(** ** Signatures *)

Module Signature.
Record t : Type := mk { r : Z; s : Z }.
End Signature.

Module RecoverableSignature.
Record t : Type := mk { r : Z; s : Z; v : Z }.
End RecoverableSignature.

(** [S extends { r:bigint, s:bigint }] *)
Class HasRS (S : Type) : Type := {
  get_r : S -> Z;
  get_s : S -> Z
}.

(** [S extends { r:bigint, s:bigint, v:bigint }] *)
Class HasRSV (S : Type) : Type := {
  rsv_rs :: HasRS S;
  get_v : S -> Z
}.

#[export] Instance Signature_HasRS : HasRS Signature.t :=
  {| get_r := Signature.r; get_s := Signature.s |}.

#[export] Instance RecoverableSignature_HasRS : HasRS RecoverableSignature.t :=
  {| get_r := RecoverableSignature.r; get_s := RecoverableSignature.s |}.

#[export] Instance RecoverableSignature_HasRSV :
  HasRSV RecoverableSignature.t :=
  {| get_v := RecoverableSignature.v |}.

(** The entropy source: the successive contents [crypto.getRandomValues]
    gives to the array it fills. *)
Definition entropy : Type := list (list Z).

(** ** The generic form ([src/ecdsa.ts]) *)

(** A signature shape [_7f_(T, d, M, e, r, s, R)]: what the signer returns
    for the components it has computed.  It may throw. *)
Definition shape (S : Type) : Type :=
  FiniteDomain.t -> Z -> list Z -> Z -> Z -> Z -> FinitePoint.t -> result S.

(** [_f6555a_]: the base shape [{ r, s }]. *)
Definition _f6555a_ (r s : Z) : Signature.t := Signature.mk r s.

(** [_f34c7e_]: the base signature shape; it never throws. *)
Definition _f34c7e_ : shape Signature.t :=
  fun _T _d _M _e r s _R => Ok (_f6555a_ r s).

(** The [if (s > n >> 1n) { s = n - s; v ^= 1n; }] block of [_033399_]: the
    low-s normalization of the pair [(s, v)]. *)
Definition low_s (n : Z) (sv : Z * Z) : Z * Z :=
  let '(s, v) := sv in
  if s >? Z.shiftr n 1 then (n - s, Z.lxor v 1) else (s, v).

(** [_033399_]: the recoverable shape [{ r, s, v }].  [R.y! & 1n] and
    [R.x! / n] throw on an undefined coordinate, and the division on [n = 0]. *)
Definition _033399_ (r s : Z) (R : FinitePoint.t) (n : Z)
  : result RecoverableSignature.t :=
  let v := 0 in
  let! Y := defined (FinitePoint.y R) in
  let v := Z.lor v (Z.land Y 1) in
  let! X := defined (FinitePoint.x R) in
  let! q := js_quot X n in
  let v := Z.lor v (Z.shiftl q 1) in
  let '(s, v) := low_s n (s, v) in
  Ok (RecoverableSignature.mk r s v).

(** [_30ecde_]: the recoverable signature shape. *)
Definition _30ecde_ : shape RecoverableSignature.t :=
  fun T _d _M _e r s R => _033399_ r s R (FiniteDomain.n T).

Section Generic.

Context (T : FiniteDomain.t).

Local Abbreviation E := (FiniteDomain.E T).
Local Abbreviation F := (FiniteDomain.F T).
Local Abbreviation G := (FiniteDomain.G T).
Local Abbreviation n := (FiniteDomain.n T).
Local Abbreviation h := (FiniteDomain.h T).

(** The nonce loop of [_6dcb8a_]:
    [do crypto.getRandomValues(K)
     while (compare(K, N) >= 0 || compare(K, zero) == 0)].
    It returns the accepted [K] and the entropy left, or [None] when the
    entropy given runs out before a draw is accepted. *)
Fixpoint nonce_loop (N zero : list Z) (rnd : entropy)
  : option (list Z * entropy) :=
  match rnd with
  | [] => None
  | K :: rnd' =>
      if (Bytes.compare K N >=? 0) || (Bytes.compare K zero =? 0)
      then nonce_loop N zero rnd'
      else Some (K, rnd')
  end.

(** The [while (true)] loop of [_6dcb8a_].  Every turn takes at least one
    draw, so [fuel] turns are enough for an entropy list of length [fuel];
    [None] means the entropy ran out (the loop would draw again). *)
Fixpoint sign_loop {S : Type}
  (_7f_ : shape S)
  (d : Z) (M : list Z) (e : Z) (nByteLength : nat) (N zero : list Z)
  (fuel : nat) (rnd : entropy) : option (result S) :=
  match fuel with
  | O => None
  | Datatypes.S fuel' =>
      match nonce_loop N zero rnd with
      | None => None
      | Some (K, rnd') =>
          let k := Bytes.uint8ArrayToBigint_LE K (Some nByteLength) in
          let R := FiniteCurve.multiply E k G in
          match FinitePoint.x R with
          | None => sign_loop _7f_ d M e nByteLength N zero fuel' rnd'
          | Some X =>
              match js_rem X n with
              | Throw => Some Throw
              | Ok r =>
                  if r =? 0
                  then sign_loop _7f_ d M e nByteLength N zero fuel' rnd'
                  else
                    let _77_ := FiniteField.multiply F r d in
                    let _68_ := FiniteField.add F e _77_ in
                    let s := FiniteField.divide F _68_ k in
                    if s =? 0
                    then sign_loop _7f_ d M e nByteLength N zero fuel' rnd'
                    else Some (_7f_ T d M e r s R)
              end
          end
      end
  end.

(** [_6dcb8a_]: the signer.  The closure it returns takes, besides [d] and
    [M], the entropy it will draw. *)
Definition _6dcb8a_ {S : Type} (_ef_ : list Z -> Z)
  (_7f_ : shape S)
  (d : Z) (M : list Z) (rnd : entropy) : option (result S) :=
  let nByteLength := Bytes.byteLength n in
  let zero := Bytes.new_Uint8Array nByteLength in
  let N := Bytes.bigintToUint8Array_LE n nByteLength in
  let e := _ef_ M in
  sign_loop _7f_ d M e nByteLength N zero (length rnd) rnd.

(** The inner [for (let k = 0; k < 2; k++)] loop of [_2bfce0_]: the points
    yielded, and [R] as the loop leaves it. *)
Fixpoint yield_loop (s reciprocalR : Z) (eG : FinitePoint.t)
  (count : nat) (R : FinitePoint.t) : list FinitePoint.t * FinitePoint.t :=
  match count with
  | O => ([], R)
  | Datatypes.S count' =>
      let Qa := FiniteCurve.multiply E s R in
      let Qa := FiniteCurve.add E Qa eG in
      let Qa := FiniteCurve.multiply E reciprocalR Qa in
      let R := FiniteCurve.negate E R in
      let '(rest, R) := yield_loop s reciprocalR eG count' R in
      (Qa :: rest, R)
  end.

(** The outer [for (let j = 0n, jn = 0n; j <= T.h; j++, jn += T.n)] loop of
    [_2bfce0_]; [R] is the one point object the loop updates in place. *)
Fixpoint recover_loop (r s reciprocalR : Z) (eG : FinitePoint.t)
  (fuel : nat) (j jn : Z) (R : FinitePoint.t) : list FinitePoint.t :=
  match fuel with
  | O => []
  | Datatypes.S fuel' =>
      if j <=? h then
        let R := FinitePoint.set_x R
                   (Some (FiniteField.add (FiniteCurve.F E) r jn)) in
        let R := FiniteCurve.solve E R in
        let nR := FiniteCurve.multiply E n R in
        if negb (FinitePoint.isIdentity nR)
        then recover_loop r s reciprocalR eG fuel' (j + 1) (jn + n) R
        else
          let '(Qs, R) := yield_loop s reciprocalR eG 2 R in
          Qs ++ recover_loop r s reciprocalR eG fuel' (j + 1) (jn + n) R
      else []
  end.

(** [_2bfce0_]: the generic recoverer; the list of the points the generator
    yields, in order. *)
Definition _2bfce0_ {S : Type} `{HasRS S} (_32_ : list Z -> Z)
  (sig : S) (M : list Z) : result (list FinitePoint.t) :=
  let R := FiniteCurve.new E in
  let R := FinitePoint.set_isIdentity R false in
  let! e := js_rem (_32_ M) n in
  let inverseE := FiniteField.inverse F e in
  let eG := FiniteCurve.multiply E inverseE G in
  let reciprocalR := FiniteField.reciprocal F (get_r sig) in
  Ok (recover_loop (get_r sig) (get_s sig) reciprocalR eG
        (Z.to_nat (h + 1)) 0 0 R).

(** [_560c92_]: the fast recoverer.  The source hands [R.x] to
    [T.F.reciprocal], whose argument is a bigint; a point that [solve] or
    [negate] leaves without a coordinate is outside the interface, and the
    model throws where the coordinate is read. *)
Definition _560c92_ {S : Type} `{HasRSV S} (_d8_ : list Z -> Z)
  (sig : S) (M : list Z) : result FinitePoint.t :=
  let R := FiniteCurve.new E in
  let R := FinitePoint.set_x R
             (Some (get_r sig + Z.shiftr (get_v sig) 1 * n)) in
  let R := FiniteCurve.solve E R in
  let! Y := defined (FinitePoint.y R) in
  let R := if negb (Z.lxor (Z.land (get_v sig) 1) (Z.land Y 1) =? 0)
           then FiniteCurve.negate E R else R in
  let! X := defined (FinitePoint.x R) in
  let ir := FiniteField.reciprocal F X in
  let! h := js_rem (_d8_ M) n in
  let u1 := FiniteField.multiply F (FiniteField.inverse F h) ir in
  let u2 := FiniteField.multiply F (get_s sig) ir in
  let u1G := FiniteCurve.multiply E u1 G in
  let u2R := FiniteCurve.multiply E u2 R in
  let Q := FiniteCurve.add E u1G u2R in
  Ok Q.

(** The [verify] method of the class [_66a7cf_] builds. *)
Definition verify {S : Type} `{HasRS S} (_a7_ : list Z -> Z)
  (Q : FinitePoint.t) (sig : S) (M : list Z) : result bool :=
  if (get_r sig =? 0) || (get_r sig >=? n) then Ok false
  else if (get_s sig =? 0) || (get_s sig >=? n) then Ok false
  else
    let e := _a7_ M in
    let eG := FiniteCurve.multiply E e G in
    let rQ := FiniteCurve.multiply E (get_r sig) Q in
    let R := FiniteCurve.add E eG rQ in
    let R := FiniteDomain.divide T (get_s sig) R in
    if FinitePoint.isIdentity R then Ok false
    else
      let! X := defined (FinitePoint.x R) in
      let! m := js_rem X n in
      Ok (m =? get_r sig).

End Generic.

(** Whether the turn of the loop of [_6dcb8a_] that draws [K] goes on to
    another draw: [K] fails the test of the nonce loop, or the turn leaves
    through one of its three [continue]. *)
Definition redraws (T : FiniteDomain.t) (_ef_ : list Z -> Z) (d : Z)
  (M K : list Z) : bool :=
  let nByteLength := Bytes.byteLength (FiniteDomain.n T) in
  let zero := Bytes.new_Uint8Array nByteLength in
  let N := Bytes.bigintToUint8Array_LE (FiniteDomain.n T) nByteLength in
  (Bytes.compare K N >=? 0) || (Bytes.compare K zero =? 0)
  || let k := Bytes.uint8ArrayToBigint_LE K (Some nByteLength) in
     let R := FiniteCurve.multiply (FiniteDomain.E T) k (FiniteDomain.G T) in
     match FinitePoint.x R with
     | None => true
     | Some X =>
         let r := Z.rem X (FiniteDomain.n T) in
         (r =? 0)
         || (FiniteField.divide (FiniteDomain.F T)
               (FiniteField.add (FiniteDomain.F T) (_ef_ M)
                  (FiniteField.multiply (FiniteDomain.F T) r d)) k =? 0)
     end.

(** The points the loop of [_2bfce0_] solves, one for every turn
    [j <= T.h]: the object [R] with its x-coordinate set to [r + jn], solved.
    A turn that yields leaves [R] negated twice, a turn that does not leaves
    it as solved. *)
Fixpoint recover_points (T : FiniteDomain.t) (r : Z) (fuel : nat) (j jn : Z)
  (R : FinitePoint.t) : list FinitePoint.t :=
  match fuel with
  | O => []
  | Datatypes.S fuel' =>
      if j <=? FiniteDomain.h T then
        let R := FinitePoint.set_x R
                   (Some (FiniteField.add (FiniteCurve.F (FiniteDomain.E T))
                            r jn)) in
        let R := FiniteCurve.solve (FiniteDomain.E T) R in
        let nR := FiniteCurve.multiply (FiniteDomain.E T)
                    (FiniteDomain.n T) R in
        R :: recover_points T r fuel' (j + 1) (jn + FiniteDomain.n T)
               (if negb (FinitePoint.isIdentity nR) then R
                else FiniteCurve.negate (FiniteDomain.E T)
                       (FiniteCurve.negate (FiniteDomain.E T) R))
      else []
  end.

(** [_66a7cf_]: the class builder.  The class it returns is the record of
    its fields and methods; applying the builder to [T] and [_a7_] is the
    call of the constructor. *)
Record EcdsaClass (S Q : Type) : Type := mkEcdsa {
  Ecdsa_T : FiniteDomain.t;
  Ecdsa_a7 : list Z -> Z;
  Ecdsa_sign : Z -> list Z -> entropy -> option (result S);
  Ecdsa_recover : S -> list Z -> Q;
  Ecdsa_verify : FinitePoint.t -> S -> list Z -> result bool
}.

Arguments Ecdsa_T {S Q} _.
Arguments Ecdsa_a7 {S Q} _.
Arguments Ecdsa_sign {S Q} _.
Arguments Ecdsa_recover {S Q} _.
Arguments Ecdsa_verify {S Q} _.

Definition _66a7cf_ {S Q : Type} `{HasRS S}
  (_42_ : shape S)
  (_dd_ : FiniteDomain.t -> (list Z -> Z) -> S -> list Z -> Q)
  (T : FiniteDomain.t) (_a7_ : list Z -> Z) : EcdsaClass S Q :=
  mkEcdsa S Q T _a7_ (_6dcb8a_ T _a7_ _42_) (_dd_ T _a7_) (verify T _a7_).

(** The two classes the package exports. *)
Definition EcdsaSec :=
  _66a7cf_ _f34c7e_ (fun T _32_ => _2bfce0_ (S := Signature.t) T _32_).

Definition EcdsaFastRecover :=
  _66a7cf_ _30ecde_
    (fun T _d8_ => _560c92_ (S := RecoverableSignature.t) T _d8_).

(** The digest function of the two instances the package exports:
    [uint8ArrayToBigint_BE], the big-endian value of the first [B] bytes,
    applied to the Keccak-256 hash of the message.  The hash function
    [keccak256] and the domain [secp256k1] come from other packages. *)
Fixpoint uint8ArrayToBigint_BE_loop (count i : nat) (a : list Z) (b : Z) : Z :=
  match count with
  | O => b
  | S count' =>
      uint8ArrayToBigint_BE_loop count' (S i) a (Z.shiftl b 8 + a !!! i)
  end.

Definition uint8ArrayToBigint_BE (a : list Z) (B : option nat) : Z :=
  uint8ArrayToBigint_BE_loop
    (Nat.min (length a) (default (length a) B)) 0 a 0.

Definition _23dee7_ (keccak256 : list Z -> list Z) (M : list Z) : Z :=
  uint8ArrayToBigint_BE (keccak256 M) None.

Definition _1cfc0a_ (secp256k1 : FiniteDomain.t)
  (keccak256 : list Z -> list Z) :=
  EcdsaSec secp256k1 (_23dee7_ keccak256).

Definition _6aab57_ (secp256k1 : FiniteDomain.t)
  (keccak256 : list Z -> list Z) :=
  EcdsaFastRecover secp256k1 (_23dee7_ keccak256).

(** ** The class form *)

Module ClassForm.

(** The static methods of [Ecdsa].  The digest is the first [hashlen] bytes
    of the hash [H], little-endian. *)
Section Static.

Context (T : FiniteDomain.t).

Local Abbreviation E := (FiniteDomain.E T).
Local Abbreviation F := (FiniteDomain.F T).
Local Abbreviation G := (FiniteDomain.G T).
Local Abbreviation n := (FiniteDomain.n T).
Local Abbreviation h := (FiniteDomain.h T).

(** [do crypto.getRandomValues(K)
     while (compare(K, N) == 1 || compare(K, zero) == 0)] *)
Fixpoint nonce_loop (N zero : list Z) (rnd : entropy)
  : option (list Z * entropy) :=
  match rnd with
  | [] => None
  | K :: rnd' =>
      if (Bytes.compare K N =? 1) || (Bytes.compare K zero =? 0)
      then nonce_loop N zero rnd'
      else Some (K, rnd')
  end.

Fixpoint sign_loop (d e : Z) (hashlen : nat) (N zero : list Z)
  (fuel : nat) (rnd : entropy) : option (result Signature.t) :=
  match fuel with
  | O => None
  | S fuel' =>
      match nonce_loop N zero rnd with
      | None => None
      | Some (K, rnd') =>
          let k := Bytes.uint8ArrayToBigint_LE K (Some hashlen) in
          let R := FiniteCurve.multiply E k G in
          match FinitePoint.x R with
          | None => sign_loop d e hashlen N zero fuel' rnd'
          | Some X =>
              match js_rem X n with
              | Throw => Some Throw
              | Ok r =>
                  if r =? 0 then sign_loop d e hashlen N zero fuel' rnd'
                  else
                    let _77_ := FiniteField.multiply F r d in
                    let _68_ := FiniteField.add F e _77_ in
                    let s := FiniteField.divide F _68_ k in
                    if s =? 0 then sign_loop d e hashlen N zero fuel' rnd'
                    else Some (Ok (Signature.mk r s))
              end
          end
      end
  end.

(** [static sign(T, H, d, hashlen)] *)
Definition sign (H : list Z) (d : Z) (hashlen : nat) (rnd : entropy)
  : option (result Signature.t) :=
  let zero := Bytes.new_Uint8Array hashlen in
  let N := Bytes.bigintToUint8Array_LE n hashlen in
  let e := Bytes.uint8ArrayToBigint_LE H (Some hashlen) in
  sign_loop d e hashlen N zero (length rnd) rnd.

(** [static verify(Q, T, S, H, hashlen)] *)
Definition verify (Q : FinitePoint.t) (sig : Signature.t) (H : list Z)
  (hashlen : nat) : result bool :=
  if (Signature.r sig =? 0) || (Signature.r sig >=? n) then Ok false
  else if (Signature.s sig =? 0) || (Signature.s sig >=? n) then Ok false
  else
    let e := Bytes.uint8ArrayToBigint_LE H (Some hashlen) in
    let eG := FiniteCurve.multiply E e G in
    let rQ := FiniteCurve.multiply E (Signature.r sig) Q in
    let R := FiniteCurve.add E eG rQ in
    let R := FiniteDomain.divide T (Signature.s sig) R in
    if FinitePoint.isIdentity R then Ok false
    else
      let! X := defined (FinitePoint.x R) in
      let! m := js_rem X n in
      Ok (m =? Signature.r sig).

Fixpoint yield_loop (s reciprocalR : Z) (eG : FinitePoint.t)
  (count : nat) (R : FinitePoint.t) : list FinitePoint.t * FinitePoint.t :=
  match count with
  | O => ([], R)
  | S count' =>
      let Qa := FiniteCurve.multiply E s R in
      let Qa := FiniteCurve.add E Qa eG in
      let Qa := FiniteCurve.multiply E reciprocalR Qa in
      let R := FiniteCurve.negate E R in
      let '(rest, R) := yield_loop s reciprocalR eG count' R in
      (Qa :: rest, R)
  end.

(** The [for (let j = 0n; j <= T.h; j++)] loop of [recover_p3mod4]. *)
Fixpoint recover_loop (sig : Signature.t) (H : list Z) (hashlen : nat)
  (fuel : nat) (j : Z) (R : FinitePoint.t) : list FinitePoint.t :=
  match fuel with
  | O => []
  | S fuel' =>
      if j <=? h then
        let jn := j * n in
        let R := FinitePoint.set_x R
                   (Some (FiniteField.add (FiniteCurve.F E)
                            (Signature.r sig) jn)) in
        let R := FiniteCurve.solve_p3mod4 E R in
        let nR := FiniteCurve.multiply E n R in
        if negb (FinitePoint.isIdentity nR)
        then recover_loop sig H hashlen fuel' (j + 1) R
        else
          let e := Bytes.uint8ArrayToBigint_LE H (Some hashlen) in
          let reciprocalR := FiniteField.reciprocal F (Signature.r sig) in
          let inverseE := FiniteField.inverse F e in
          let eG := FiniteCurve.multiply E inverseE G in
          let '(Qs, R) := yield_loop (Signature.s sig) reciprocalR eG 2 R in
          Qs ++ recover_loop sig H hashlen fuel' (j + 1) R
      else []
  end.

(** [static* recover_p3mod4(T, S, H, hashlen)] *)
Definition recover_p3mod4 (sig : Signature.t) (H : list Z) (hashlen : nat)
  : list FinitePoint.t :=
  let R := FiniteCurve.new E in
  let R := FinitePoint.set_isIdentity R false in
  recover_loop sig H hashlen (Z.to_nat (h + 1)) 0 R.

End Static.

(** The class [Ecdsa] and its methods, which call the static ones with the
    fields of the instance. *)
Record Ecdsa : Type := mkEcdsa {
  T : FiniteDomain.t;
  Hash : list Z -> list Z;
  hashlen : nat
}.

Definition sign_method (this : Ecdsa) (H : list Z) (d : Z) (rnd : entropy)
  : option (result Signature.t) :=
  sign (T this) H d (hashlen this) rnd.

Definition verify_method (this : Ecdsa) (Q : FinitePoint.t)
  (sig : Signature.t) (H : list Z) : result bool :=
  verify (T this) Q sig H (hashlen this).

Definition recover_p3mod4_method (this : Ecdsa) (sig : Signature.t)
  (H : list Z) : list FinitePoint.t :=
  recover_p3mod4 (T this) sig H (hashlen this).

End ClassForm.

(** ** The laws assumed of the arithmetic packages

    [p] is the prime of the base field.  The laws speak of the multiples
    [k * G] of the generator only, of scalars that are not negative, and of
    the value the operations leave in their [out] argument (also when [out]
    is one of the operands):
    - the two fields compute modulo [n] and modulo [p]; [inverse] is the
      additive and [reciprocal] the multiplicative inverse;
    - [G] generates a group of order [n] in which [add], [multiply] and
      [negate] compute, [k * G] for [0 < k < n] being a finite point with
      coordinates in the base field and the identity having no [x];
    - [T.divide] is the multiplication by the reciprocal;
    - a point and its opposite have the same x-coordinate and
      y-coordinates of different parity, and [solve] finds one of the two
      from the x-coordinate, whatever the other fields of the object it is
      given.
    Nothing is assumed of negative scalars, of points outside the group of
    [G], or of the relation between [p], [n] and the cofactor. *)
Abbreviation mulG T k :=
  (FiniteCurve.multiply (FiniteDomain.E T) k (FiniteDomain.G T)).

Record DomainLaws (T : FiniteDomain.t) (p : Z) : Prop := {
  order_gt_1 : 1 < FiniteDomain.n T;
  F_add_mod : forall a b, 0 <= a -> 0 <= b ->
    FiniteField.add (FiniteDomain.F T) a b = (a + b) mod FiniteDomain.n T;
  F_multiply_mod : forall a b, 0 <= a -> 0 <= b ->
    FiniteField.multiply (FiniteDomain.F T) a b = (a * b) mod FiniteDomain.n T;
  F_inverse_mod : forall a, 0 <= a < FiniteDomain.n T ->
    FiniteField.inverse (FiniteDomain.F T) a
    = (FiniteDomain.n T - a) mod FiniteDomain.n T;
  F_reciprocal_range : forall a, 0 <= a -> a mod FiniteDomain.n T <> 0 ->
    0 <= FiniteField.reciprocal (FiniteDomain.F T) a;
  F_reciprocal_mod : forall a, 0 <= a -> a mod FiniteDomain.n T <> 0 ->
    (a * FiniteField.reciprocal (FiniteDomain.F T) a) mod FiniteDomain.n T = 1;
  F_divide_mod : forall a b, 0 <= a -> 0 <= b -> b mod FiniteDomain.n T <> 0 ->
    FiniteField.divide (FiniteDomain.F T) a b
    = (a * FiniteField.reciprocal (FiniteDomain.F T) b) mod FiniteDomain.n T;
  EF_add_mod : forall a b, 0 <= a -> 0 <= b ->
    FiniteField.add (FiniteCurve.F (FiniteDomain.E T)) a b = (a + b) mod p;
  mulG_order : forall a, 0 <= a -> mulG T (a + FiniteDomain.n T) = mulG T a;
  mulG_multiply : forall a b, 0 <= a -> 0 <= b ->
    FiniteCurve.multiply (FiniteDomain.E T) a (mulG T b) = mulG T (a * b);
  mulG_add : forall a b, 0 <= a -> 0 <= b ->
    FiniteCurve.add (FiniteDomain.E T) (mulG T a) (mulG T b) = mulG T (a + b);
  mulG_negate : forall a, 0 <= a <= FiniteDomain.n T ->
    FiniteCurve.negate (FiniteDomain.E T) (mulG T a)
    = mulG T (FiniteDomain.n T - a);
  mulG_identity :
    FinitePoint.isIdentity (mulG T 0) = true
    /\ FinitePoint.x (mulG T 0) = None;
  mulG_finite : forall a, 0 < a < FiniteDomain.n T ->
    FinitePoint.isIdentity (mulG T a) = false
    /\ exists X Y,
         FinitePoint.x (mulG T a) = Some X
         /\ FinitePoint.y (mulG T a) = Some Y
         /\ 0 <= X < p /\ 0 <= Y < p;
  mulG_opposite_x : forall a, 0 < a < FiniteDomain.n T ->
    FinitePoint.x (mulG T (FiniteDomain.n T - a)) = FinitePoint.x (mulG T a);
  mulG_parity : forall a Y Y', 0 < a < FiniteDomain.n T ->
    FinitePoint.y (mulG T a) = Some Y ->
    FinitePoint.y (mulG T (FiniteDomain.n T - a)) = Some Y' ->
    Z.land Y 1 <> Z.land Y' 1;
  divide_mulG : forall s a, 0 <= s -> s mod FiniteDomain.n T <> 0 -> 0 <= a ->
    FiniteDomain.divide T s (mulG T a)
    = FiniteCurve.multiply (FiniteDomain.E T)
        (FiniteField.reciprocal (FiniteDomain.F T) s) (mulG T a);
  solve_mulG : forall a R0, 0 < a < FiniteDomain.n T ->
    FinitePoint.x R0 = FinitePoint.x (mulG T a) ->
    FiniteCurve.solve (FiniteDomain.E T) R0 = mulG T a
    \/ FiniteCurve.solve (FiniteDomain.E T) R0 = mulG T (FiniteDomain.n T - a);
  solve_p3mod4_solve : forall R0,
    FiniteCurve.solve_p3mod4 (FiniteDomain.E T) R0
    = FiniteCurve.solve (FiniteDomain.E T) R0
}.

(** ** The recovery relation

    The public point the signing equation [s * R = e * G + r * Q] gives for
    an ephemeral point [R]: [Q = r^-1 * (s * R - e * G)], written with the
    operations of the curve, [e] being the digest integer. *)
Definition recovery_formula (T : FiniteDomain.t) (r s e : Z)
  (R : FinitePoint.t) : FinitePoint.t :=
  FiniteCurve.multiply (FiniteDomain.E T)
    (FiniteField.reciprocal (FiniteDomain.F T) r)
    (FiniteCurve.add (FiniteDomain.E T)
       (FiniteCurve.multiply (FiniteDomain.E T) s R)
       (FiniteCurve.negate (FiniteDomain.E T) (mulG T e))).

(** A point object that is flagged as the identity or carries an
    x-coordinate of the base field. *)
Definition wf_point (P : FinitePoint.t) : Prop :=
  FinitePoint.isIdentity P = true
  \/ exists X, FinitePoint.x P = Some X /\ 0 <= X.

(** ** Small domains

    Instances of the interface over a curve [y^2 = x^3 + a x + b] on the
    field of [p] elements, with a generator [(Gx, Gy)] of order [n] and the
    cofactor [h]: affine arithmetic, scalar multiplication by repeated
    addition, square roots by the power [(p + 1) / 4].  The code runs on
    them, and [check] decides whether one meets the laws. *)

Module Toy.

Record curve : Type := mk_curve {
  p : Z; a : Z; b : Z; n : Z; h : Z; Gx : Z; Gy : Z
}.

(** The integers modulo a prime [m]. *)
Definition field (m : Z) : FiniteField.t :=
  let reciprocal := fun u => ((u mod m) ^ (m - 2)) mod m in
  FiniteField.mk
    (fun u v => (u + v) mod m)
    (fun u v => (u * v) mod m)
    (fun u v => (u * reciprocal v) mod m)
    (fun u => (m - u) mod m)
    reciprocal.

(** The integers modulo [m] computed with the remainder of JavaScript,
    [%], which truncates.  On arguments that are not negative the operations
    are those of [field]; outside, they differ: [inverse] of an argument
    above [m] is negative. *)
Definition field_rem (m : Z) : FiniteField.t :=
  let reciprocal := fun u => Z.rem ((Z.rem u m) ^ (m - 2)) m in
  FiniteField.mk
    (fun u v => Z.rem (u + v) m)
    (fun u v => Z.rem (u * v) m)
    (fun u v => Z.rem (u * reciprocal v) m)
    (fun u => Z.rem (m - u) m)
    reciprocal.

Definition O : FinitePoint.t := FinitePoint.mk None None true.

Definition affine (X Y : Z) : FinitePoint.t :=
  FinitePoint.mk (Some X) (Some Y) false.

(** The integers [0, 1, ..., N - 1]. *)
Definition range (N : nat) : list Z := map Z.of_nat (seq 0 N).

Section Domain.

Context (c : curve).

Definition inv (u : Z) : Z := FiniteField.reciprocal (field (p c)) u.

Definition add (P Q : FinitePoint.t) : FinitePoint.t :=
  if FinitePoint.isIdentity P then Q
  else if FinitePoint.isIdentity Q then P
  else
    match FinitePoint.x P, FinitePoint.y P,
          FinitePoint.x Q, FinitePoint.y Q with
    | Some x1, Some y1, Some x2, Some y2 =>
        if (x1 =? x2) && ((y1 + y2) mod p c =? 0) then O
        else
          let l := if x1 =? x2
                   then ((3 * x1 * x1 + a c) * inv (2 * y1)) mod p c
                   else ((y2 - y1) * inv (x2 - x1)) mod p c in
          let x3 := (l * l - x1 - x2) mod p c in
          affine x3 ((l * (x1 - x3) - y1) mod p c)
    | _, _, _, _ => O
    end.

Definition negate (P : FinitePoint.t) : FinitePoint.t :=
  if FinitePoint.isIdentity P then P
  else
    match FinitePoint.x P, FinitePoint.y P with
    | Some X, Some Y => affine X ((p c - Y) mod p c)
    | _, _ => O
    end.

Definition multiply (k : Z) (P : FinitePoint.t) : FinitePoint.t :=
  Nat.iter (Z.to_nat k) (add P) O.

Definition solve (R : FinitePoint.t) : FinitePoint.t :=
  match FinitePoint.x R with
  | Some X =>
      affine X (((X * X * X + a c * X + b c) mod p c) ^ ((p c + 1) / 4) mod p c)
  | None => R
  end.

Definition E : FiniteCurve.t :=
  FiniteCurve.mk O (field (p c)) add multiply negate solve solve.

Definition T : FiniteDomain.t :=
  FiniteDomain.mk E (field (n c)) (affine (Gx c) (Gy c)) (n c) (h c)
    (fun s P => multiply (FiniteField.reciprocal (field (n c)) s) P).

(** The same domain with the scalar field computed with [%]. *)
Definition T_rem : FiniteDomain.t :=
  FiniteDomain.mk E (field_rem (n c)) (affine (Gx c) (Gy c)) (n c) (h c)
    (fun s P => multiply (FiniteField.reciprocal (field_rem (n c)) s) P).

(** The public point of the secret [d]. *)
Definition public (d : Z) : FinitePoint.t := multiply d (affine (Gx c) (Gy c)).

(** The checks, over [k * G] for the finitely many [k] below the order,
    that the laws of the interface come down to. *)
Definition check_reciprocal (u : Z) : bool :=
  (u =? 0) || ((u * FiniteField.reciprocal (field (n c)) u) mod n c =? 1).

Definition check_add (u : Z) : bool :=
  forallb
    (fun v => FinitePoint.eqb (add (public u) (public v))
                (public ((u + v) mod n c)))
    (range (Z.to_nat (n c))).

Definition check_negate (u : Z) : bool :=
  FinitePoint.eqb (negate (public u)) (public (n c - u)).

Definition check_finite (u : Z) : bool :=
  (u =? 0)
  || match FinitePoint.x (public u), FinitePoint.y (public u) with
     | Some X, Some Y =>
         negb (FinitePoint.isIdentity (public u))
         && (0 <=? X) && (X <? p c) && (0 <=? Y) && (Y <? p c)
     | _, _ => false
     end.

Definition check_opposite (u : Z) : bool :=
  (u =? 0)
  || (FinitePoint.coordinate_eqb (FinitePoint.x (public (n c - u)))
        (FinitePoint.x (public u))
      && match FinitePoint.y (public u), FinitePoint.y (public (n c - u)) with
         | Some Y, Some Y' => negb (Z.land Y 1 =? Z.land Y' 1)
         | _, _ => false
         end).

Definition check_solve (u : Z) : bool :=
  (u =? 0)
  || FinitePoint.eqb (solve (public u)) (public u)
  || FinitePoint.eqb (solve (public u)) (public (n c - u)).

Definition check : bool :=
  (1 <? n c)
  && FinitePoint.eqb (public (n c)) O
  && forallb check_reciprocal (range (Z.to_nat (n c)))
  && forallb check_add (range (Z.to_nat (n c)))
  && forallb check_negate (range (S (Z.to_nat (n c))))
  && forallb check_finite (range (Z.to_nat (n c)))
  && forallb check_opposite (range (Z.to_nat (n c)))
  && forallb check_solve (range (Z.to_nat (n c))).

End Domain.

(** [y^2 = x^3 + 2 x + 10] over the field of 19 elements: 17 points,
    cofactor 1, generator [(3, 9)]. *)
Definition small : curve := mk_curve 19 2 10 17 1 3 9.

(** [y^2 = x^3 + 19] over the field of 31 elements: 21 points; the
    generator [(6, 7)] has order 7, the cofactor is 3. *)
Definition cofactor3 : curve := mk_curve 31 0 19 7 3 6 7.

(** A digest function for the examples: the first byte of the message. *)
Definition digest (M : list Z) : Z := default 0 (M !! 0%nat).

End Toy.

(** * Properties *)

(** ** Byte helpers *)

Section BytesFacts.

Import Bytes.

Lemma le_val_app (a c : list Z) :
  le_val (a ++ c) = le_val a + 256 ^ Z.of_nat (length a) * le_val c.
Proof.
  induction a as [|v a IH]; simpl length; simpl le_val.
  - change (256 ^ Z.of_nat 0) with 1. lia.
  - rewrite IH, Nat2Z.inj_succ, Z.pow_succ_r by lia. ring.
Qed.

Lemma le_val_bound (a : list Z) :
  Forall (fun v => 0 <= v < 256) a ->
  0 <= le_val a < 256 ^ Z.of_nat (length a).
Proof.
  induction 1 as [|v a Hv _ IH]; simpl length; simpl le_val.
  - change (256 ^ Z.of_nat 0) with 1. lia.
  - rewrite Nat2Z.inj_succ, Z.pow_succ_r by lia. lia.
Qed.

Lemma le_val_replicate_0 (B : nat) : le_val (replicate B 0) = 0.
Proof. induction B as [|B IH]; simpl; lia. Qed.

Lemma le_val_zero_inv (a : list Z) :
  Forall (fun v => 0 <= v < 256) a -> le_val a = 0 ->
  a = replicate (length a) 0.
Proof.
  induction 1 as [|v a Hv Ha IH]; simpl; intros H0; [reflexivity|].
  pose proof (le_val_bound a Ha) as Hb.
  assert (v = 0) by lia. assert (le_val a = 0) by lia.
  subst v. f_equal. auto.
Qed.

(** After [m] turns [compare] has ordered the values of the first [m]
    bytes. *)
Lemma compare_loop_take (m : nat) (a c : list Z) :
  Forall (fun v => 0 <= v < 256) a -> Forall (fun v => 0 <= v < 256) c ->
  (m <= length a)%nat -> (m <= length c)%nat ->
  compare_loop m a c
  = match le_val (take m a) ?= le_val (take m c) with
    | Eq => 0 | Lt => -1 | Gt => 1
    end.
Proof.
  intros Ha Hc Hma Hmc. induction m as [|i IH].
  - reflexivity.
  - destruct (lookup_lt_is_Some_2 a i ltac:(lia)) as [u Hu].
    destruct (lookup_lt_is_Some_2 c i ltac:(lia)) as [w Hw].
    rewrite (take_S_r a i u Hu), (take_S_r c i w Hw), !le_val_app.
    rewrite !length_take, !Nat.min_l by lia.
    simpl compare_loop. rewrite Hu, Hw. simpl js_gt. simpl js_lt.
    simpl le_val. rewrite IH by lia.
    assert (Hba : 0 <= le_val (take i a) < 256 ^ Z.of_nat i).
    { pose proof (le_val_bound (take i a) (Forall_take _ i _ Ha)) as H.
      rewrite length_take, Nat.min_l in H by lia. exact H. }
    assert (Hbc : 0 <= le_val (take i c) < 256 ^ Z.of_nat i).
    { pose proof (le_val_bound (take i c) (Forall_take _ i _ Hc)) as H.
      rewrite length_take, Nat.min_l in H by lia. exact H. }
    set (A := le_val (take i a)) in *. set (C := le_val (take i c)) in *.
    set (W := 256 ^ Z.of_nat i) in *.
    destruct (Z.gtb_spec u w) as [Hgt|Hle].
    + replace (A + W * (u + 256 * 0) ?= C + W * (w + 256 * 0)) with Gt;
        [reflexivity|]. symmetry. apply Z.compare_gt_iff. nia.
    + destruct (Z.ltb_spec u w) as [Hlt|Hge].
      * replace (A + W * (u + 256 * 0) ?= C + W * (w + 256 * 0)) with Lt;
          [reflexivity|]. symmetry. apply Z.compare_lt_iff. nia.
      * assert (u = w) by lia. subst w.
        rewrite (Z.add_comm A), (Z.add_comm C), Z.add_compare_mono_l.
        reflexivity.
Qed.

(** On byte strings of one length [compare] orders the values. *)
Lemma compare_le_val (L : nat) (a c : list Z) :
  is_bytes L a -> is_bytes L c ->
  compare a c
  = match le_val a ?= le_val c with Eq => 0 | Lt => -1 | Gt => 1 end.
Proof.
  intros [Hla Ha] [Hlc Hc]. unfold compare.
  rewrite compare_loop_take by (auto; lia).
  rewrite take_ge, (take_ge c) by lia. reflexivity.
Qed.

Lemma length_le_bytes (B : nat) (b : Z) : length (le_bytes B b) = B.
Proof. revert b; induction B as [|B IH]; intros b; simpl; auto. Qed.

Lemma le_bytes_lookup (B : nat) (b : Z) (m : nat) :
  (m < B)%nat ->
  le_bytes B b !! m = Some (Z.land (Z.shiftr b (8 * Z.of_nat m)) 255).
Proof.
  revert b m; induction B as [|B IH]; intros b m Hm; [lia|].
  destruct m as [|m]; simpl.
  - rewrite Z.shiftr_0_r. reflexivity.
  - rewrite IH by lia. rewrite Z.shiftr_shiftr by lia.
    do 3 f_equal. lia.
Qed.

Lemma le_bytes_bytes (B : nat) (b : Z) : is_bytes B (le_bytes B b).
Proof.
  split; [apply length_le_bytes|].
  revert b; induction B as [|B IH]; intros b; simpl; constructor; auto.
  change 255 with (Z.ones 8). rewrite Z.land_ones by lia.
  apply Z.mod_pos_bound. lia.
Qed.

Lemma le_val_le_bytes (B : nat) (b : Z) :
  le_val (le_bytes B b) = b mod 256 ^ Z.of_nat B.
Proof.
  revert b; induction B as [|B IH]; intros b.
  - simpl. rewrite Z.mod_1_r. reflexivity.
  - simpl le_bytes. simpl le_val. rewrite IH.
    rewrite Nat2Z.inj_succ, Z.pow_succ_r by lia.
    change 255 with (Z.ones 8). rewrite Z.land_ones by lia.
    rewrite Z.shiftr_div_pow2 by lia. change (2 ^ 8) with 256.
    rewrite (Z.rem_mul_r b 256) by lia. reflexivity.
Qed.

(** The encoding loop: with fuel for every bit of [b] it stops at [b = 0],
    having stored the bytes of [b] from index [i] on. *)
Lemma bigintToUint8Array_LE_loop_lookup (fuel : nat) :
  forall (b : Z) (i : nat) (a : list Z) (m : nat),
    0 <= b -> b = 0 \/ Z.log2 b < Z.of_nat fuel ->
    (forall m', (i <= m')%nat -> (m' < length a)%nat -> a !! m' = Some 0) ->
    (m < length a)%nat ->
    bigintToUint8Array_LE_loop fuel b i a !! m
    = if decide (i <= m)%nat
      then Some (Z.land (Z.shiftr b (8 * Z.of_nat (m - i))) 255)
      else a !! m.
Proof.
  induction fuel as [|fuel IH]; intros b i a m Hb Hfuel Hzero Hm.
  - assert (b = 0) by (pose proof (Z.log2_nonneg b); lia). subst b.
    simpl. destruct (decide (i <= m)%nat); [|reflexivity].
    rewrite Z.shiftr_0_l. simpl. apply Hzero; lia.
  - simpl. destruct (Z.gtb_spec b 0) as [Hpos|Hnpos].
    + rewrite IH.
      * destruct (decide (S i <= m)%nat), (decide (i <= m)%nat); try lia.
        -- rewrite Z.shiftr_shiftr by lia. do 3 f_equal. lia.
        -- assert (m = i) by lia. subst m.
           rewrite list_lookup_insert_eq by lia.
           rewrite Nat.sub_diag, Z.shiftr_0_r. reflexivity.
        -- rewrite list_lookup_insert_ne by lia. reflexivity.
      * apply Z.shiftr_nonneg. lia.
      * destruct (Z.eq_dec (Z.shiftr b 8) 0) as [|Hne]; [left; assumption|].
        right. rewrite Z.log2_shiftr by lia.
        assert (0 < Z.shiftr b 8)
          by (pose proof (proj2 (Z.shiftr_nonneg b 8) ltac:(lia)); lia).
        assert (8 <= Z.log2 b).
        { destruct (Z.lt_ge_cases (Z.log2 b) 8) as [Hlt|]; [|assumption].
          rewrite Z.shiftr_eq_0 in Hne by lia. congruence. }
        lia.
      * intros m' Hm' Hlen. rewrite length_insert in Hlen.
        rewrite list_lookup_insert_ne by lia. apply Hzero; lia.
      * rewrite length_insert. assumption.
    + assert (b = 0) by lia. subst b.
      destruct (decide (i <= m)%nat); [|reflexivity].
      rewrite Z.shiftr_0_l. simpl. apply Hzero; lia.
Qed.

Lemma length_bigintToUint8Array_LE_loop (fuel : nat) :
  forall (b : Z) (i : nat) (a : list Z),
    length (bigintToUint8Array_LE_loop fuel b i a) = length a.
Proof.
  induction fuel as [|fuel IH]; intros b i a; simpl; [reflexivity|].
  destruct (b >? 0); [|reflexivity]. rewrite IH, length_insert. reflexivity.
Qed.

(** More fuel changes nothing: the loop has left through its guard. *)
Lemma bigintToUint8Array_LE_loop_fuel (fuel : nat) :
  forall (b : Z) (i : nat) (a : list Z),
    b <= 0 \/ Z.log2 b < Z.of_nat fuel ->
    bigintToUint8Array_LE_loop (S fuel) b i a
    = bigintToUint8Array_LE_loop fuel b i a.
Proof.
  induction fuel as [|fuel IH]; intros b i a Hfuel.
  - simpl. destruct (Z.gtb_spec b 0); [|reflexivity].
    pose proof (Z.log2_nonneg b). lia.
  - change (bigintToUint8Array_LE_loop (S (S fuel)) b i a)
      with (if b >? 0
            then bigintToUint8Array_LE_loop (S fuel) (Z.shiftr b 8) (S i)
                   (<[i := Z.land b 255]> a)
            else a).
    simpl bigintToUint8Array_LE_loop at 2.
    destruct (Z.gtb_spec b 0) as [Hpos|]; [|reflexivity].
    apply IH.
    destruct (Z.le_gt_cases (Z.shiftr b 8) 0) as [|Hs]; [left; assumption|].
    right. rewrite Z.log2_shiftr by lia.
    assert (8 <= Z.log2 b).
    { destruct (Z.lt_ge_cases (Z.log2 b) 8) as [Hlt|]; [|assumption].
      rewrite Z.shiftr_eq_0 in Hs by lia. lia. }
    lia.
Qed.

(** [bigintToUint8Array_LE] stores the [B] low bytes of [b]. *)
Lemma bigintToUint8Array_LE_le_bytes (b : Z) (B : nat) :
  0 <= b -> bigintToUint8Array_LE b B = le_bytes B b.
Proof.
  intros Hb. apply list_eq. intros m. unfold bigintToUint8Array_LE.
  destruct (decide (m < B)%nat) as [Hm|Hm].
  - rewrite bigintToUint8Array_LE_loop_lookup.
    + rewrite le_bytes_lookup by assumption.
      destruct (decide (0 <= m)%nat); [|lia].
      rewrite Nat.sub_0_r. reflexivity.
    + assumption.
    + right. lia.
    + intros m' _ Hm'. unfold new_Uint8Array in *.
      rewrite length_replicate in Hm'. apply lookup_replicate_2. assumption.
    + unfold new_Uint8Array. rewrite length_replicate. assumption.
  - rewrite !lookup_ge_None_2; [reflexivity| |].
    + rewrite length_le_bytes. lia.
    + rewrite length_bigintToUint8Array_LE_loop. unfold new_Uint8Array.
      rewrite length_replicate. lia.
Qed.

(** The decoding loop adds the value of the next [count] bytes. *)
Lemma uint8ArrayToBigint_LE_loop_le_val (count : nat) :
  forall (i : nat) (a : list Z) (b : Z),
    (i + count <= length a)%nat ->
    uint8ArrayToBigint_LE_loop count i a b
    = b + 256 ^ Z.of_nat i * le_val (take count (drop i a)).
Proof.
  induction count as [|count IH]; intros i a b Hlen.
  - simpl. lia.
  - destruct (lookup_lt_is_Some_2 a i ltac:(lia)) as [u Hu].
    simpl uint8ArrayToBigint_LE_loop. rewrite IH by lia.
    rewrite (drop_S a u i Hu). simpl take. simpl le_val.
    rewrite (list_lookup_total_correct a i u Hu).
    rewrite (Z.shiftl_mul_pow2 (Z.of_nat i) 3) by lia.
    change (2 ^ 3) with 8.
    rewrite Z.shiftl_mul_pow2 by lia.
    rewrite Nat2Z.inj_succ, Z.pow_succ_r by lia.
    replace (2 ^ (Z.of_nat i * 8)) with (256 ^ Z.of_nat i).
    + ring.
    + change 256 with (2 ^ 8). rewrite <- Z.pow_mul_r by lia.
      f_equal. lia.
Qed.

Lemma uint8ArrayToBigint_LE_le_val (a : list Z) (B : option nat) :
  uint8ArrayToBigint_LE a B = le_val (take (default (length a) B) a).
Proof.
  unfold uint8ArrayToBigint_LE.
  rewrite uint8ArrayToBigint_LE_loop_le_val by (simpl; lia).
  rewrite drop_0. change (256 ^ Z.of_nat 0) with 1.
  rewrite Z.mul_1_l, Z.add_0_l. f_equal.
  destruct (Nat.le_ge_cases (length a) (default (length a) B)).
  - rewrite Nat.min_l, !take_ge by lia. reflexivity.
  - rewrite Nat.min_r by lia. reflexivity.
Qed.

End BytesFacts.

(** C10. For every byte length [B] and every [b] with [0 <= b < 2^(8 B)],
    decoding the little-endian encoding of [b] gives [b] back:
    [uint8ArrayToBigint_LE(bigintToUint8Array_LE(b, B), B) = b]. *)
Theorem le_roundtrip (b : Z) (B : nat) :
  0 <= b < 2 ^ (8 * Z.of_nat B) ->
  Bytes.uint8ArrayToBigint_LE (Bytes.bigintToUint8Array_LE b B) (Some B) = b.
Proof.
  intros Hb.
  rewrite uint8ArrayToBigint_LE_le_val, bigintToUint8Array_LE_le_bytes by lia.
  simpl default. rewrite take_ge by (rewrite length_le_bytes; lia).
  rewrite le_val_le_bytes. apply Z.mod_small.
  change 256 with (2 ^ 8). rewrite <- Z.pow_mul_r by lia. assumption.
Qed.

Lemma le_roundtrip_witness :
  0 <= 258 < 2 ^ (8 * Z.of_nat 2)
  /\ Bytes.uint8ArrayToBigint_LE
       (Bytes.bigintToUint8Array_LE 258 2) (Some 2%nat) = 258.
Proof. split; [simpl; lia | apply (le_roundtrip 258 2); simpl; lia]. Defined.

(** The byte length of [n] is enough to hold [n]. *)
Lemma byteLength_loop_bound (fuel : nat) :
  forall (n : Z) (i : nat),
    0 <= n -> n = 0 \/ Z.log2 n < Z.of_nat fuel ->
    (i <= Bytes.byteLength_loop fuel n i)%nat
    /\ n < 256 ^ Z.of_nat (Bytes.byteLength_loop fuel n i - i).
Proof.
  induction fuel as [|fuel IH]; intros n i Hn Hfuel.
  - assert (n = 0) by (pose proof (Z.log2_nonneg n); lia). subst n.
    simpl. rewrite Nat.sub_diag. simpl. lia.
  - simpl. destruct (Z.gtb_spec n 0) as [Hpos|Hnpos].
    + destruct (IH (Z.shiftr n 8) (S i)) as [Hi Hlt].
      * apply Z.shiftr_nonneg. lia.
      * destruct (Z.eq_dec (Z.shiftr n 8) 0) as [|Hne]; [left; assumption|].
        right. rewrite Z.log2_shiftr by lia.
        assert (8 <= Z.log2 n).
        { destruct (Z.lt_ge_cases (Z.log2 n) 8) as [Hlt|]; [|assumption].
          rewrite Z.shiftr_eq_0 in Hne by lia. congruence. }
        lia.
      * split; [lia|].
        set (L := Bytes.byteLength_loop fuel (Z.shiftr n 8) (S i)) in *.
        replace (Z.of_nat (L - i)) with (Z.succ (Z.of_nat (L - S i))) by lia.
        rewrite Z.pow_succ_r by lia.
        rewrite Z.shiftr_div_pow2 in Hlt by lia. change (2 ^ 8) with 256 in Hlt.
        pose proof (Z.div_mod n 256 ltac:(lia)).
        pose proof (Z.mod_pos_bound n 256 ltac:(lia)). lia.
    + rewrite Nat.sub_diag. simpl. lia.
Qed.

Lemma byteLength_bound (n : Z) :
  0 <= n -> n < 256 ^ Z.of_nat (Bytes.byteLength n).
Proof.
  intros Hn. unfold Bytes.byteLength.
  destruct (byteLength_loop_bound (S (Z.to_nat (Z.log2 n))) n 0 Hn) as [_ H].
  - right. lia.
  - rewrite Nat.sub_0_r in H. exact H.
Qed.

Lemma byteLength_nonpos (n : Z) : n <= 0 -> Bytes.byteLength n = 0%nat.
Proof.
  intros Hn. unfold Bytes.byteLength. simpl.
  destruct (Z.gtb_spec n 0); [lia|reflexivity].
Qed.

(** ** The nonce loop *)

Lemma nonce_loop_inv (N zero : list Z) (rnd : entropy) (K : list Z)
  (rnd' : entropy) :
  nonce_loop N zero rnd = Some (K, rnd') ->
  K ∈ rnd /\ Bytes.compare K N < 0 /\ Bytes.compare K zero <> 0
  /\ (length rnd' < length rnd)%nat /\ (forall K', K' ∈ rnd' -> K' ∈ rnd).
Proof.
  induction rnd as [|K0 rnd IH]; simpl; [discriminate|].
  assert (Hrec : nonce_loop N zero rnd = Some (K, rnd') ->
    K ∈ K0 :: rnd /\ Bytes.compare K N < 0 /\ Bytes.compare K zero <> 0
    /\ (length rnd' < S (length rnd))%nat
    /\ (forall K', K' ∈ rnd' -> K' ∈ K0 :: rnd)).
  { intros H. destruct (IH H) as (HK & H1 & H2 & H3 & H4).
    split; [constructor; assumption|]. split; [assumption|].
    split; [assumption|]. split; [lia|].
    intros K' HK'. constructor. auto. }
  destruct (Z.geb_spec (Bytes.compare K0 N) 0) as [Hge|Hlt]; simpl;
    [exact Hrec|].
  destruct (Z.eqb_spec (Bytes.compare K0 zero) 0) as [Hz|Hnz]; [exact Hrec|].
  intros H. injection H as -> ->.
  split; [constructor|]. split; [assumption|]. split; [assumption|].
  split; [lia|]. intros K' HK'. constructor. assumption.
Qed.

(** The nonce the generic signer accepts lies in [[1, n)]. *)
Lemma nonce_in_range (n : Z) (rnd : entropy) (K : list Z) (rnd' : entropy) :
  Forall (Bytes.is_bytes (Bytes.byteLength n)) rnd ->
  nonce_loop (Bytes.bigintToUint8Array_LE n (Bytes.byteLength n))
    (Bytes.new_Uint8Array (Bytes.byteLength n)) rnd = Some (K, rnd') ->
  1 <= Bytes.uint8ArrayToBigint_LE K (Some (Bytes.byteLength n)) < n.
Proof.
  intros Hrnd Hloop.
  destruct (nonce_loop_inv _ _ _ _ _ Hloop) as (HK & HN & Hz & _ & _).
  assert (HKb : Bytes.is_bytes (Bytes.byteLength n) K)
    by (eapply Forall_forall in Hrnd; eauto).
  destruct (Z.le_gt_cases n 0) as [Hn|Hn].
  - rewrite byteLength_nonpos in HKb by assumption.
    destruct HKb as [HlenK _]. destruct K; [|discriminate].
    unfold Bytes.compare in HN. simpl in HN. lia.
  - set (L := Bytes.byteLength n) in *.
    rewrite bigintToUint8Array_LE_le_bytes in HN by lia.
    rewrite (compare_le_val L) in HN, Hz; auto using le_bytes_bytes.
    2:{ split; [apply length_replicate|]. apply Forall_replicate. lia. }
    rewrite le_val_le_bytes in HN.
    unfold Bytes.new_Uint8Array in Hz. rewrite le_val_replicate_0 in Hz.
    rewrite Z.mod_small in HN by (split; [lia|apply byteLength_bound; lia]).
    rewrite uint8ArrayToBigint_LE_le_val. simpl default.
    destruct HKb as [HlenK HKb]. rewrite take_ge by lia.
    pose proof (le_val_bound K HKb) as HbK.
    destruct (Z.compare_spec (Bytes.le_val K) n);
      destruct (Z.compare_spec (Bytes.le_val K) 0); lia.
Qed.

(** ** The recovery discriminant *)

Lemma land_1_odd (a : Z) : Z.land a 1 = Z.b2z (Z.odd a).
Proof.
  change 1 with (Z.ones 1) at 1. rewrite Z.land_ones by lia.
  change (2 ^ 1) with 2. rewrite <- Z.bit0_mod, Z.bit0_odd. reflexivity.
Qed.

Lemma lxor_b2z_eqb (u w : bool) :
  (Z.lxor (Z.b2z u) (Z.b2z w) =? 0) = Bool.eqb u w.
Proof. destruct u, w; reflexivity. Qed.

Lemma discriminant_odd (Y q : Z) :
  Z.odd (Z.lor (Z.lor 0 (Z.land Y 1)) (Z.shiftl q 1)) = Z.odd Y.
Proof.
  rewrite <- !Z.bit0_odd.
  rewrite Z.lor_0_l, Z.lor_spec, Z.land_spec, Z.shiftl_spec_low by lia.
  change (Z.testbit 1 0) with true.
  rewrite andb_true_r, orb_false_r. reflexivity.
Qed.

Lemma discriminant_shiftr (Y q : Z) :
  Z.shiftr (Z.lor (Z.lor 0 (Z.land Y 1)) (Z.shiftl q 1)) 1 = q.
Proof.
  rewrite Z.lor_0_l, Z.shiftr_lor, Z.shiftr_land.
  change (Z.shiftr 1 1) with 0. rewrite Z.land_0_r, Z.lor_0_l.
  rewrite Z.shiftr_shiftl_l by lia. apply Z.shiftl_0_r.
Qed.

Lemma lxor_1_odd (v : Z) : Z.odd (Z.lxor v 1) = negb (Z.odd v).
Proof.
  rewrite <- !Z.bit0_odd, Z.lxor_spec.
  change (Z.testbit 1 0) with true. apply xorb_true_r.
Qed.

Lemma lxor_1_shiftr (v : Z) : Z.shiftr (Z.lxor v 1) 1 = Z.shiftr v 1.
Proof.
  rewrite Z.shiftr_lxor. change (Z.shiftr 1 1) with 0. apply Z.lxor_0_r.
Qed.

(** ** Consequences of the laws *)

#[local] Existing Instances eqm_setoid Zplus_eqm Zminus_eqm Zmult_eqm Zopp_eqm.

Section LawsFacts.

Context (T : FiniteDomain.t) (p : Z) (HL : DomainLaws T p).

Local Abbreviation E := (FiniteDomain.E T).
Local Abbreviation F := (FiniteDomain.F T).
Local Abbreviation G := (FiniteDomain.G T).
Local Abbreviation n := (FiniteDomain.n T).
Local Abbreviation h := (FiniteDomain.h T).

Lemma n_pos : 0 < n.
Proof. pose proof (order_gt_1 T p HL). lia. Qed.

Lemma mulG_periodic (q : nat) (a : Z) :
  0 <= a -> mulG T (a + Z.of_nat q * n) = mulG T a.
Proof.
  intros Ha. pose proof n_pos. induction q as [|q IH].
  - f_equal. lia.
  - replace (a + Z.of_nat (S q) * n) with ((a + Z.of_nat q * n) + n) by lia.
    rewrite (mulG_order T p HL) by nia. exact IH.
Qed.

Lemma mulG_mod (a : Z) : 0 <= a -> mulG T a = mulG T (a mod n).
Proof.
  intros Ha. pose proof n_pos.
  pose proof (Z.mod_pos_bound a n ltac:(lia)).
  pose proof (Z.div_pos a n ltac:(lia) ltac:(lia)).
  rewrite <- (mulG_periodic (Z.to_nat (a / n)) (a mod n)) by lia.
  f_equal. rewrite Z2Nat.id by lia.
  pose proof (Z.div_mod a n ltac:(lia)). lia.
Qed.

Lemma mulG_eqm (a c : Z) :
  0 <= a -> 0 <= c -> eqm n a c -> mulG T a = mulG T c.
Proof.
  intros Ha Hc Hac. rewrite (mulG_mod a), (mulG_mod c) by assumption.
  unfold eqm in Hac. rewrite Hac. reflexivity.
Qed.

(** [k * G] for [k] not a multiple of [n]: a finite point. *)
Lemma mulG_coordinates (k : Z) :
  0 <= k -> k mod n <> 0 ->
  FinitePoint.isIdentity (mulG T k) = false
  /\ exists X Y,
       FinitePoint.x (mulG T k) = Some X /\ FinitePoint.y (mulG T k) = Some Y
       /\ 0 <= X < p /\ 0 <= Y < p.
Proof.
  intros Hk Hne. pose proof n_pos.
  pose proof (Z.mod_pos_bound k n ltac:(lia)).
  rewrite (mulG_mod k) by assumption. apply (mulG_finite T p HL). lia.
Qed.

Lemma mulG_x_defined (k X : Z) :
  0 <= k -> FinitePoint.x (mulG T k) = Some X -> k mod n <> 0.
Proof.
  intros Hk HX H0. rewrite (mulG_mod k), H0 in HX by assumption.
  destruct (mulG_identity T p HL) as [_ Hx]. congruence.
Qed.

Lemma mulG_n : mulG T n = mulG T 0.
Proof.
  pose proof n_pos. rewrite (mulG_mod n) by lia.
  rewrite Z.mod_same by lia. reflexivity.
Qed.

(** The opposite of [k * G], for any [k >= 0]. *)
Lemma mulG_negate_mod (k : Z) :
  0 <= k -> FiniteCurve.negate E (mulG T k) = mulG T (n - k mod n).
Proof.
  intros Hk. pose proof n_pos.
  pose proof (Z.mod_pos_bound k n ltac:(lia)).
  rewrite (mulG_mod k) by assumption. apply (mulG_negate T p HL). lia.
Qed.

(** *** The signing loop *)

Lemma sign_loop_inv {S : Type}
  (_7f_ : shape S)
  (d : Z) (M : list Z) (e : Z) (L : nat) (N zero : list Z) (fuel : nat) :
  forall (rnd : entropy) (res : result S),
    sign_loop T _7f_ d M e L N zero fuel rnd = Some res ->
    exists K X,
      K ∈ rnd /\ Bytes.compare K N < 0 /\ Bytes.compare K zero <> 0
      /\ FinitePoint.x (mulG T (Bytes.uint8ArrayToBigint_LE K (Some L)))
         = Some X
      /\ Z.rem X n <> 0
      /\ FiniteField.divide F
           (FiniteField.add F e (FiniteField.multiply F (Z.rem X n) d))
           (Bytes.uint8ArrayToBigint_LE K (Some L)) <> 0
      /\ res = _7f_ T d M e (Z.rem X n)
                 (FiniteField.divide F
                    (FiniteField.add F e (FiniteField.multiply F (Z.rem X n) d))
                    (Bytes.uint8ArrayToBigint_LE K (Some L)))
                 (mulG T (Bytes.uint8ArrayToBigint_LE K (Some L))).
Proof.
  pose proof n_pos as Hn.
  induction fuel as [|fuel IH]; intros rnd res; simpl; [discriminate|].
  destruct (nonce_loop N zero rnd) as [[K rnd']|] eqn:Hnonce; [|discriminate].
  destruct (nonce_loop_inv _ _ _ _ _ Hnonce) as (HK & HN & Hz & _ & Hsub).
  assert (Hrec : sign_loop T _7f_ d M e L N zero fuel rnd' = Some res ->
    exists K X,
      K ∈ rnd /\ Bytes.compare K N < 0 /\ Bytes.compare K zero <> 0
      /\ FinitePoint.x (mulG T (Bytes.uint8ArrayToBigint_LE K (Some L)))
         = Some X
      /\ Z.rem X n <> 0
      /\ FiniteField.divide F
           (FiniteField.add F e (FiniteField.multiply F (Z.rem X n) d))
           (Bytes.uint8ArrayToBigint_LE K (Some L)) <> 0
      /\ res = _7f_ T d M e (Z.rem X n)
                 (FiniteField.divide F
                    (FiniteField.add F e (FiniteField.multiply F (Z.rem X n) d))
                    (Bytes.uint8ArrayToBigint_LE K (Some L)))
                 (mulG T (Bytes.uint8ArrayToBigint_LE K (Some L)))).
  { intros H. destruct (IH _ _ H) as (K1 & X1 & HK1 & Hrest).
    exists K1, X1. split; [auto|exact Hrest]. }
  destruct (FinitePoint.x (mulG T (Bytes.uint8ArrayToBigint_LE K (Some L))))
    as [X|] eqn:HX; [|exact Hrec].
  unfold js_rem. destruct (Z.eqb_spec n 0) as [|_]; [lia|].
  destruct (Z.eqb_spec (Z.rem X n) 0) as [|Hr]; [exact Hrec|].
  match goal with
  | |- context [if ?c =? 0 then _ else _] =>
      destruct (Z.eqb_spec c 0) as [|Hs]; [exact Hrec|]
  end.
  intros H. injection H as <-.
  exists K, X. rewrite HX. repeat (split; [assumption || reflexivity|]).
  reflexivity.
Qed.

(** What the laws say of the components the signer computes from a nonce
    [k]: both lie in [(0, n)] and satisfy the signing equation. *)
Lemma signature_components (d e k X : Z) :
  0 <= d -> 0 <= e -> 0 <= k ->
  FinitePoint.x (mulG T k) = Some X ->
  Z.rem X n <> 0 ->
  FiniteField.divide F
    (FiniteField.add F e (FiniteField.multiply F (Z.rem X n) d)) k <> 0 ->
  let r := Z.rem X n in
  let s := FiniteField.divide F
             (FiniteField.add F e (FiniteField.multiply F r d)) k in
  0 < r < n /\ 0 < s < n /\ r = X mod n /\ 0 <= X < p /\ k mod n <> 0
  /\ eqm n (s * k) (e + r * d).
Proof.
  intros Hd He Hk HX Hr Hs r s. pose proof n_pos as Hn.
  pose proof (mulG_x_defined k X Hk HX) as Hkn.
  destruct (mulG_coordinates k Hk Hkn) as (_ & X' & Y & HX' & _ & HXp & _).
  rewrite HX in HX'. injection HX' as <-.
  assert (Hrm : r = X mod n)
    by (unfold r; apply Z.rem_mod_nonneg; lia).
  pose proof (Z.mod_pos_bound X n Hn) as HrB.
  assert (Hr0 : 0 < r < n) by (unfold r in *; lia).
  assert (Hse : s = ((e + (r * d) mod n) mod n
                     * FiniteField.reciprocal F k) mod n).
  { unfold s. rewrite (F_multiply_mod T p HL) by lia.
    pose proof (Z.mod_pos_bound (r * d) n Hn).
    rewrite (F_add_mod T p HL) by lia.
    pose proof (Z.mod_pos_bound (e + (r * d) mod n) n Hn).
    rewrite (F_divide_mod T p HL) by lia. reflexivity. }
  pose proof (Z.mod_pos_bound
                ((e + (r * d) mod n) mod n * FiniteField.reciprocal F k) n Hn).
  assert (Hs' : s <> 0) by exact Hs.
  split; [assumption|]. split; [rewrite Hse in *; lia|].
  split; [assumption|]. split; [assumption|]. split; [assumption|].
  rewrite Hse. rewrite !Zmod_eqm.
  replace ((e + r * d) * FiniteField.reciprocal F k * k)
    with ((e + r * d) * (k * FiniteField.reciprocal F k)) by ring.
  assert (H1 : eqm n (k * FiniteField.reciprocal F k) 1).
  { unfold eqm. rewrite (F_reciprocal_mod T p HL) by assumption.
    rewrite Z.mod_1_l by (pose proof (order_gt_1 T p HL); lia). reflexivity. }
  rewrite H1. replace ((e + r * d) * 1) with (e + r * d) by ring. reflexivity.
Qed.

(** *** Verification *)

Lemma verify_accepts {S : Type} `{HasRS S} (digest : list Z -> Z) (sig : S)
  (M : list Z) (d k X : Z) :
  0 <= d -> 0 <= digest M -> 0 <= k ->
  0 < get_r sig < n -> 0 < get_s sig < n ->
  eqm n (get_s sig * k) (digest M + get_r sig * d) ->
  FinitePoint.x (mulG T k) = Some X -> X mod n = get_r sig ->
  verify T digest (mulG T d) sig M = Ok true.
Proof.
  intros Hd He Hk Hr Hs. pose proof n_pos as Hn.
  pose proof (order_gt_1 T p HL) as Hn1.
  unfold verify.
  destruct (Z.eqb_spec (get_r sig) 0) as [|_]; [lia|].
  destruct (Z.geb_spec (get_r sig) n) as [|_]; [lia|].
  destruct (Z.eqb_spec (get_s sig) 0) as [|_]; [lia|].
  destruct (Z.geb_spec (get_s sig) n) as [|_]; [lia|]. simpl orb. cbv iota.
  assert (Hs0 : 0 <= get_s sig) by lia.
  assert (Hsn : get_s sig mod n <> 0) by (rewrite Z.mod_small; lia).
  pose proof (F_reciprocal_range T p HL (get_s sig) Hs0 Hsn) as Hrec.
  assert (H1 : eqm n (get_s sig * FiniteField.reciprocal F (get_s sig)) 1).
  { unfold eqm. rewrite (F_reciprocal_mod T p HL) by (assumption || lia).
    rewrite Z.mod_1_l by lia. reflexivity. }
  rewrite (mulG_multiply T p HL) by lia.
  rewrite (mulG_add T p HL) by nia.
  rewrite (divide_mulG T p HL) by nia.
  rewrite (mulG_multiply T p HL) by nia.
  assert (Hnn : 0 <= FiniteField.reciprocal F (get_s sig)
                     * (digest M + get_r sig * d)) by nia.
  intros Heq HX.
  assert (Hk' : eqm n (FiniteField.reciprocal F (get_s sig)
                       * (digest M + get_r sig * d)) k).
  { rewrite <- Heq.
    replace (FiniteField.reciprocal F (get_s sig) * (get_s sig * k))
      with ((get_s sig * FiniteField.reciprocal F (get_s sig)) * k) by ring.
    rewrite H1. replace (1 * k) with k by ring. reflexivity. }
  rewrite (mulG_eqm _ k Hnn Hk Hk').
  pose proof (mulG_x_defined k X Hk HX) as Hkn.
  destruct (mulG_coordinates k Hk Hkn) as (Hid & X' & Y & HX' & _ & HXp & _).
  rewrite Hid, HX. simpl. unfold js_rem.
  rewrite HX in HX'. injection HX' as <-.
  destruct (Z.eqb_spec n 0) as [Hn0|_]; [clear - Hn Hn0; lia|]. simpl.
  rewrite Z.rem_mod_nonneg by (clear - Hn HXp; lia).
  intros ->. rewrite Z.eqb_refl. reflexivity.
Qed.

Lemma uint8ArrayToBigint_LE_nonneg (a : list Z) (B : option nat) :
  Forall (fun v => 0 <= v < 256) a -> 0 <= Bytes.uint8ArrayToBigint_LE a B.
Proof.
  intros Ha. rewrite uint8ArrayToBigint_LE_le_val.
  apply (le_val_bound _ (Forall_take _ _ _ Ha)).
Qed.

Lemma entropy_nonneg (L : nat) (rnd : entropy) (K : list Z) (B : option nat) :
  Forall (Bytes.is_bytes L) rnd -> K ∈ rnd ->
  0 <= Bytes.uint8ArrayToBigint_LE K B.
Proof.
  intros Hrnd HK. apply uint8ArrayToBigint_LE_nonneg.
  eapply Forall_forall in Hrnd; [|exact HK]. apply Hrnd.
Qed.

(** *** The class form of the signing loop *)

Lemma class_nonce_loop_inv (N zero : list Z) (rnd : entropy) (K : list Z)
  (rnd' : entropy) :
  ClassForm.nonce_loop N zero rnd = Some (K, rnd') ->
  K ∈ rnd /\ Bytes.compare K N <> 1 /\ Bytes.compare K zero <> 0
  /\ (forall K', K' ∈ rnd' -> K' ∈ rnd).
Proof.
  induction rnd as [|K0 rnd IH]; simpl; [discriminate|].
  assert (Hrec : ClassForm.nonce_loop N zero rnd = Some (K, rnd') ->
    K ∈ K0 :: rnd /\ Bytes.compare K N <> 1 /\ Bytes.compare K zero <> 0
    /\ (forall K', K' ∈ rnd' -> K' ∈ K0 :: rnd)).
  { intros H. destruct (IH H) as (HK & H1 & H2 & H4).
    split; [constructor; assumption|]. split; [assumption|].
    split; [assumption|]. intros K' HK'. constructor. auto. }
  destruct (Z.eqb_spec (Bytes.compare K0 N) 1) as [Hge|Hlt]; simpl;
    [exact Hrec|].
  destruct (Z.eqb_spec (Bytes.compare K0 zero) 0) as [Hz|Hnz]; [exact Hrec|].
  intros H. injection H as -> ->.
  split; [constructor|]. split; [assumption|]. split; [assumption|].
  intros K' HK'. constructor. assumption.
Qed.

Lemma class_sign_loop_inv (d e : Z) (L : nat) (N zero : list Z) (fuel : nat) :
  forall (rnd : entropy) (res : result Signature.t),
    ClassForm.sign_loop T d e L N zero fuel rnd = Some res ->
    exists K X,
      K ∈ rnd /\ Bytes.compare K N <> 1 /\ Bytes.compare K zero <> 0
      /\ FinitePoint.x (mulG T (Bytes.uint8ArrayToBigint_LE K (Some L)))
         = Some X
      /\ Z.rem X n <> 0
      /\ FiniteField.divide F
           (FiniteField.add F e (FiniteField.multiply F (Z.rem X n) d))
           (Bytes.uint8ArrayToBigint_LE K (Some L)) <> 0
      /\ res = Ok (Signature.mk (Z.rem X n)
                     (FiniteField.divide F
                        (FiniteField.add F e
                           (FiniteField.multiply F (Z.rem X n) d))
                        (Bytes.uint8ArrayToBigint_LE K (Some L)))).
Proof.
  pose proof n_pos as Hn.
  induction fuel as [|fuel IH]; intros rnd res; simpl; [discriminate|].
  destruct (ClassForm.nonce_loop N zero rnd) as [[K rnd']|] eqn:Hnonce;
    [|discriminate].
  destruct (class_nonce_loop_inv _ _ _ _ _ Hnonce) as (HK & HN & Hz & Hsub).
  assert (Hrec : ClassForm.sign_loop T d e L N zero fuel rnd' = Some res ->
    exists K X,
      K ∈ rnd /\ Bytes.compare K N <> 1 /\ Bytes.compare K zero <> 0
      /\ FinitePoint.x (mulG T (Bytes.uint8ArrayToBigint_LE K (Some L)))
         = Some X
      /\ Z.rem X n <> 0
      /\ FiniteField.divide F
           (FiniteField.add F e (FiniteField.multiply F (Z.rem X n) d))
           (Bytes.uint8ArrayToBigint_LE K (Some L)) <> 0
      /\ res = Ok (Signature.mk (Z.rem X n)
                     (FiniteField.divide F
                        (FiniteField.add F e
                           (FiniteField.multiply F (Z.rem X n) d))
                        (Bytes.uint8ArrayToBigint_LE K (Some L))))).
  { intros H. destruct (IH _ _ H) as (K1 & X1 & HK1 & Hrest).
    exists K1, X1. split; [auto|exact Hrest]. }
  destruct (FinitePoint.x (mulG T (Bytes.uint8ArrayToBigint_LE K (Some L))))
    as [X|] eqn:HX; [|exact Hrec].
  unfold js_rem. destruct (Z.eqb_spec n 0) as [|_]; [lia|].
  destruct (Z.eqb_spec (Z.rem X n) 0) as [|Hr]; [exact Hrec|].
  match goal with
  | |- context [if ?c =? 0 then _ else _] =>
      destruct (Z.eqb_spec c 0) as [|Hs]; [exact Hrec|]
  end.
  intros H. injection H as <-.
  exists K, X. rewrite HX. repeat (split; [assumption || reflexivity|]).
  reflexivity.
Qed.

(** *** The recoverable shape *)

Lemma _033399__inv (r s : Z) (R : FinitePoint.t) (m : Z)
  (sig : RecoverableSignature.t) :
  _033399_ r s R m = Ok sig ->
  exists X Y,
    FinitePoint.x R = Some X /\ FinitePoint.y R = Some Y /\ m <> 0
    /\ RecoverableSignature.r sig = r
    /\ (RecoverableSignature.s sig, RecoverableSignature.v sig)
       = low_s m (s, Z.lor (Z.lor 0 (Z.land Y 1)) (Z.shiftl (Z.quot X m) 1)).
Proof.
  unfold _033399_, defined, js_quot.
  destruct (FinitePoint.y R) as [Y|]; simpl; [|discriminate].
  destruct (FinitePoint.x R) as [X|]; simpl; [|discriminate].
  destruct (Z.eqb_spec m 0) as [|Hm]; simpl; [discriminate|].
  unfold low_s.
  destruct (s >? Z.shiftr m 1); intros H; injection H as <-; exists X, Y;
    repeat (split; [assumption || reflexivity|]); reflexivity.
Qed.

(** *** Signatures are in range *)

(** C8. Every base-form signature the signer returns has [0 < r < n] and
    [0 < s < n], in the generic form and in the class form, for a secret
    [d >= 0] and a digest that is not negative; the signer does not throw. *)
Theorem sign_components_in_range :
  (forall (digest : list Z -> Z) (d : Z) (M : list Z) (rnd : entropy)
          (res : result Signature.t),
      0 <= d -> 0 <= digest M ->
      Forall (Bytes.is_bytes (Bytes.byteLength n)) rnd ->
      Ecdsa_sign (EcdsaSec T digest) d M rnd = Some res ->
      exists sig, res = Ok sig
        /\ 0 < Signature.r sig < n /\ 0 < Signature.s sig < n)
  /\ (forall (H : list Z) (d : Z) (hashlen : nat) (rnd : entropy)
             (res : result Signature.t),
        0 <= d -> Forall (fun v => 0 <= v < 256) H ->
        Forall (Bytes.is_bytes hashlen) rnd ->
        ClassForm.sign T H d hashlen rnd = Some res ->
        exists sig, res = Ok sig
          /\ 0 < Signature.r sig < n /\ 0 < Signature.s sig < n).
Proof.
  split.
  - intros digest d M rnd res Hd He Hrnd Hsign.
    unfold EcdsaSec, _66a7cf_, Ecdsa_sign, _6dcb8a_ in Hsign.
    apply sign_loop_inv in Hsign
      as (K & X & HK & _ & _ & HX & Hr & Hs & ->).
    pose proof (entropy_nonneg _ _ K (Some (Bytes.byteLength n)) Hrnd HK) as Hk.
    destruct (signature_components d (digest M) _ X Hd He Hk HX Hr Hs)
      as (Hr0 & Hs0 & _).
    eexists. split; [reflexivity|]. simpl. split; assumption.
  - intros H d hashlen rnd res Hd HH Hrnd Hsign.
    unfold ClassForm.sign in Hsign.
    apply class_sign_loop_inv in Hsign
      as (K & X & HK & _ & _ & HX & Hr & Hs & ->).
    pose proof (entropy_nonneg _ _ K (Some hashlen) Hrnd HK) as Hk.
    pose proof (uint8ArrayToBigint_LE_nonneg H (Some hashlen) HH) as He.
    destruct (signature_components d _ _ X Hd He Hk HX Hr Hs)
      as (Hr0 & Hs0 & _).
    eexists. split; [reflexivity|]. simpl. split; assumption.
Qed.

(** *** Round trip *)

(** C1. A signature the signer produces for the secret [d] in [(0, n)] and
    a message verifies against the public point [d * G] and the same
    message: in the generic form with the base shape and with the
    recoverable shape, and in the class form. *)
Theorem sign_verify_roundtrip :
  (forall (digest : list Z -> Z) (d : Z) (M : list Z) (rnd : entropy)
          (sig : Signature.t),
      0 < d < n -> 0 <= digest M ->
      Forall (Bytes.is_bytes (Bytes.byteLength n)) rnd ->
      Ecdsa_sign (EcdsaSec T digest) d M rnd = Some (Ok sig) ->
      Ecdsa_verify (EcdsaSec T digest) (mulG T d) sig M = Ok true)
  /\ (forall (digest : list Z -> Z) (d : Z) (M : list Z) (rnd : entropy)
             (sig : RecoverableSignature.t),
        0 < d < n -> 0 <= digest M ->
        Forall (Bytes.is_bytes (Bytes.byteLength n)) rnd ->
        Ecdsa_sign (EcdsaFastRecover T digest) d M rnd = Some (Ok sig) ->
        Ecdsa_verify (EcdsaFastRecover T digest) (mulG T d) sig M = Ok true)
  /\ (forall (H : list Z) (d : Z) (hashlen : nat) (rnd : entropy)
             (sig : Signature.t),
        0 < d < n -> Forall (fun v => 0 <= v < 256) H ->
        Forall (Bytes.is_bytes hashlen) rnd ->
        ClassForm.sign T H d hashlen rnd = Some (Ok sig) ->
        ClassForm.verify T (mulG T d) sig H hashlen = Ok true).
Proof.
  pose proof n_pos as Hn.
  split; [|split].
  - intros digest d M rnd sig Hd He Hrnd Hsign.
    unfold EcdsaSec, _66a7cf_, Ecdsa_sign, _6dcb8a_ in Hsign.
    apply sign_loop_inv in Hsign
      as (K & X & HK & _ & _ & HX & Hr & Hs & Hsig).
    pose proof (entropy_nonneg _ _ K (Some (Bytes.byteLength n)) Hrnd HK) as Hk.
    assert (Hd0 : 0 <= d) by lia.
    destruct (signature_components d (digest M) _ X Hd0 He Hk HX Hr Hs)
      as (Hr0 & Hs0 & Hrm & HXp & Hkn & Heq).
    injection Hsig as ->.
    unfold EcdsaSec, _66a7cf_, Ecdsa_verify.
    apply (verify_accepts digest _ M d _ X Hd0 He Hk); simpl;
      [exact Hr0|exact Hs0|exact Heq|exact HX|symmetry; exact Hrm].
  - intros digest d M rnd sig Hd He Hrnd Hsign.
    unfold EcdsaFastRecover, _66a7cf_, Ecdsa_sign, _6dcb8a_ in Hsign.
    apply sign_loop_inv in Hsign
      as (K & X & HK & _ & _ & HX & Hr & Hs & Hsig).
    pose proof (entropy_nonneg _ _ K (Some (Bytes.byteLength n)) Hrnd HK) as Hk.
    assert (Hd0 : 0 <= d) by lia.
    destruct (signature_components d (digest M) _ X Hd0 He Hk HX Hr Hs)
      as (Hr0 & Hs0 & Hrm & HXp & Hkn & Heq).
    symmetry in Hsig. unfold _30ecde_ in Hsig.
    apply _033399__inv in Hsig as (X' & Y & _ & _ & _ & Hsr & Hsv).
    unfold EcdsaFastRecover, _66a7cf_, Ecdsa_verify.
    set (k := Bytes.uint8ArrayToBigint_LE K (Some (Bytes.byteLength n))) in *.
    set (s := FiniteField.divide F _ k) in *.
    unfold low_s in Hsv.
    destruct (Z.gtb_spec s (Z.shiftr n 1)) as [Hhigh|Hlow];
      injection Hsv as Hs' Hv'.
    + (* s was replaced by n - s: the nonce is that of the opposite point *)
      pose proof (Z.mod_pos_bound k n Hn) as HkB.
      assert (HkB' : 0 < k mod n < n) by (clear - HkB Hkn; lia).
      assert (Hs1 : 0 < n - s < n) by (clear - Hs0 Hhigh; lia).
      apply (verify_accepts digest sig M d (n - k mod n) X Hd0 He); simpl.
      * clear - HkB'. lia.
      * rewrite Hsr. exact Hr0.
      * rewrite Hs'. exact Hs1.
      * rewrite Hs', Hsr.
        replace ((n - s) * (n - k mod n))
          with (n * (n - s - k mod n) + s * (k mod n)) by ring.
        rewrite <- Heq.
        assert (H0 : eqm n (n * (n - s - k mod n)) 0).
        { unfold eqm. rewrite Z.mul_comm, Z.mod_mul by (clear - Hn; lia).
          reflexivity. }
        rewrite H0, Zmod_eqm. reflexivity.
      * rewrite (mulG_opposite_x T p HL) by exact HkB'.
        rewrite <- (mulG_mod k) by assumption. assumption.
      * rewrite Hsr. symmetry. assumption.
    + apply (verify_accepts digest sig M d k X Hd0 He Hk); simpl.
      * rewrite Hsr. exact Hr0.
      * rewrite Hs'. exact Hs0.
      * rewrite Hs', Hsr. exact Heq.
      * exact HX.
      * rewrite Hsr. symmetry. assumption.
  - intros H d hashlen rnd sig Hd HH Hrnd Hsign.
    unfold ClassForm.sign in Hsign.
    apply class_sign_loop_inv in Hsign
      as (K & X & HK & _ & _ & HX & Hr & Hs & Hsig).
    pose proof (entropy_nonneg _ _ K (Some hashlen) Hrnd HK) as Hk.
    pose proof (uint8ArrayToBigint_LE_nonneg H (Some hashlen) HH) as He.
    assert (Hd0 : 0 <= d) by lia.
    destruct (signature_components d _ _ X Hd0 He Hk HX Hr Hs)
      as (Hr0 & Hs0 & Hrm & HXp & Hkn & Heq).
    injection Hsig as ->.
    change (ClassForm.verify T (mulG T d) ?sg H hashlen)
      with (verify T (fun H => Bytes.uint8ArrayToBigint_LE H (Some hashlen))
              (mulG T d) sg H).
    apply (verify_accepts _ _ H d _ X Hd0 He Hk); simpl;
      [exact Hr0|exact Hs0|exact Heq|exact HX|symmetry; exact Hrm].
Qed.

(** *** Fast recovery *)

(** The fast recoverer on a signature whose [v] names the point [kf * G]:
    [v >> 1] is the quotient of its x-coordinate by [n], bit 0 of [v] the
    parity of its y-coordinate, and [s * kf = e + r * d] modulo [n]. *)
Lemma fast_recover_core (digest : list Z -> Z) (sig : RecoverableSignature.t)
  (M : list Z) (d kf X Yf : Z) :
  0 <= d -> 0 <= digest M -> 0 < kf < n ->
  FinitePoint.x (mulG T kf) = Some X ->
  FinitePoint.y (mulG T kf) = Some Yf ->
  RecoverableSignature.r sig = Z.rem X n ->
  Z.rem X n <> 0 ->
  0 <= RecoverableSignature.s sig ->
  Z.shiftr (RecoverableSignature.v sig) 1 = Z.quot X n ->
  Z.odd (RecoverableSignature.v sig) = Z.odd Yf ->
  eqm n (RecoverableSignature.s sig * kf)
        (digest M + RecoverableSignature.r sig * d) ->
  _560c92_ T digest sig M = Ok (mulG T d).
Proof.
  intros Hd He Hkf HX HYf Hr Hr0 Hs Hv1 Hv0 Heq.
  pose proof n_pos as Hn. pose proof (order_gt_1 T p HL) as Hn1.
  unfold _560c92_. simpl get_r. simpl get_v. simpl get_s.
  rewrite Hr, Hv1.
  replace (Z.rem X n + Z.quot X n * n) with X
    by (rewrite (Z.quot_rem' X n) at 1; ring).
  set (R0 := FinitePoint.set_x (FiniteCurve.new E) (Some X)).
  assert (HR0 : FinitePoint.x R0 = FinitePoint.x (mulG T kf))
    by (rewrite HX; reflexivity).
  (* the point the recoverer settles on is [kf * G] *)
  assert (Hsel : exists Ys,
    FinitePoint.y (FiniteCurve.solve E R0) = Some Ys
    /\ (if negb (Z.lxor (Z.land (RecoverableSignature.v sig) 1)
                   (Z.land Ys 1) =? 0)
        then FiniteCurve.negate E (FiniteCurve.solve E R0)
        else FiniteCurve.solve E R0) = mulG T kf).
  { destruct (solve_mulG T p HL kf R0 Hkf HR0) as [Hsol|Hsol]; rewrite Hsol.
    - exists Yf. split; [assumption|].
      rewrite !land_1_odd, lxor_b2z_eqb, Hv0, eqb_reflx. reflexivity.
    - destruct (mulG_finite T p HL (n - kf) ltac:(lia))
        as (_ & X' & Y' & _ & HY' & _).
      exists Y'. split; [assumption|].
      pose proof (mulG_parity T p HL kf Yf Y' Hkf HYf HY') as Hpar.
      rewrite !land_1_odd in Hpar.
      rewrite !land_1_odd, lxor_b2z_eqb, Hv0.
      replace (Bool.eqb (Z.odd Yf) (Z.odd Y')) with false
        by (destruct (Z.odd Yf), (Z.odd Y'); simpl in *; congruence).
      simpl negb. cbv iota.
      rewrite (mulG_negate T p HL) by lia. f_equal. lia. }
  destruct Hsel as (Ys & HYs & Hsel). rewrite HYs. simpl bind.
  rewrite Hsel, HX. simpl bind. unfold js_rem.
  destruct (Z.eqb_spec n 0) as [|_]; [lia|]. simpl bind.
  f_equal.
  (* the scalars *)
  assert (HXB : 0 <= X).
  { destruct (mulG_finite T p HL kf Hkf) as (_ & X' & Y' & HX' & _ & HXp & _).
    rewrite HX in HX'. injection HX' as <-. lia. }
  assert (HXn : X mod n <> 0)
    by (rewrite <- Z.rem_mod_nonneg by lia; exact Hr0).
  pose proof (F_reciprocal_range T p HL X HXB HXn) as Hir.
  pose proof (F_reciprocal_mod T p HL X HXB HXn) as Hir1.
  set (ir := FiniteField.reciprocal F X) in *.
  assert (HrX : eqm n (RecoverableSignature.r sig) X).
  { rewrite Hr, Z.rem_mod_nonneg by (clear - HXB Hn; lia). apply Zmod_eqm. }
  assert (Hone : eqm n (X * ir) 1).
  { unfold eqm. rewrite Hir1, Z.mod_1_l by (clear - Hn1; lia). reflexivity. }
  clear Hir1 HXn Hr0.
  set (e := digest M) in *.
  assert (HhB : 0 <= Z.rem e n < n).
  { rewrite Z.rem_mod_nonneg by lia. apply Z.mod_pos_bound. lia. }
  rewrite (F_inverse_mod T p HL) by exact HhB.
  assert (HiB : 0 <= (n - Z.rem e n) mod n) by (apply Z.mod_pos_bound; lia).
  rewrite !(F_multiply_mod T p HL) by assumption.
  assert (Hu1 : 0 <= ((n - Z.rem e n) mod n * ir) mod n)
    by (apply Z.mod_pos_bound; lia).
  assert (Hu2 : 0 <= (RecoverableSignature.s sig * ir) mod n)
    by (apply Z.mod_pos_bound; lia).
  rewrite (mulG_multiply T p HL) by (assumption || (clear - Hkf; lia)).
  assert (Hu2k : 0 <= (RecoverableSignature.s sig * ir) mod n * kf)
    by (clear - Hu2 Hkf; nia).
  rewrite (mulG_add T p HL) by assumption.
  apply mulG_eqm; [clear - Hu1 Hu2k; lia|assumption|].
  rewrite !Zmod_eqm.
  rewrite Z.rem_mod_nonneg by (clear - He Hn; lia).
  rewrite Zmod_eqm.
  replace ((n - e) * ir + RecoverableSignature.s sig * ir * kf)
    with (n * ir + (RecoverableSignature.s sig * kf - e) * ir) by ring.
  rewrite Heq, HrX.
  replace (e + X * d - e) with (X * d) by ring.
  replace (X * d * ir) with (d * (X * ir)) by ring.
  rewrite Hone.
  assert (H0 : eqm n (n * ir) 0).
  { unfold eqm. rewrite Z.mul_comm, Z.mod_mul by (clear - Hn; lia).
    reflexivity. }
  rewrite H0. replace (0 + d * 1) with d by ring. reflexivity.
Qed.

(** C3. For every recoverable signature [{r, s, v}] the signer produces
    with the secret [d] in [(0, n)], the fast recoverer applied to it and
    the same message returns the public point [d * G] itself. *)
Theorem fast_recover_public_point (digest : list Z -> Z) (d : Z) (M : list Z)
  (rnd : entropy) (sig : RecoverableSignature.t) :
  0 < d < n -> 0 <= digest M ->
  Forall (Bytes.is_bytes (Bytes.byteLength n)) rnd ->
  Ecdsa_sign (EcdsaFastRecover T digest) d M rnd = Some (Ok sig) ->
  Ecdsa_recover (EcdsaFastRecover T digest) sig M = Ok (mulG T d).
Proof.
  intros Hd He Hrnd Hsign. pose proof n_pos as Hn.
  unfold EcdsaFastRecover, _66a7cf_, Ecdsa_sign, _6dcb8a_ in Hsign.
  apply sign_loop_inv in Hsign
    as (K & X & HK & _ & _ & HX & Hr & Hs & Hsig).
  pose proof (entropy_nonneg _ _ K (Some (Bytes.byteLength n)) Hrnd HK) as Hk.
  assert (Hd0 : 0 <= d) by lia.
  destruct (signature_components d (digest M) _ X Hd0 He Hk HX Hr Hs)
    as (Hr0 & Hs0 & _ & HXp & Hkn & Heq).
  symmetry in Hsig. unfold _30ecde_ in Hsig.
  apply _033399__inv in Hsig as (X' & Y & HX' & HY & _ & Hsr & Hsv).
  rewrite HX in HX'. injection HX' as <-.
  unfold EcdsaFastRecover, _66a7cf_, Ecdsa_recover.
  set (k := Bytes.uint8ArrayToBigint_LE K (Some (Bytes.byteLength n))) in *.
  set (s := FiniteField.divide F _ k) in *.
  pose proof (Z.mod_pos_bound k n Hn) as HkB.
  assert (HkB' : 0 < k mod n < n) by (clear - HkB Hkn; lia).
  clear HkB Hkn.
  rewrite (mulG_mod k Hk) in HX, HY.
  assert (Heq' : eqm n (s * (k mod n)) (digest M + Z.rem X n * d))
    by (rewrite Zmod_eqm; exact Heq).
  unfold low_s in Hsv.
  destruct (Z.gtb_spec s (Z.shiftr n 1)) as [Hhigh|Hlow];
    injection Hsv as Hs' Hv'.
  - (* s was replaced by n - s and bit 0 flipped: the opposite point *)
    destruct (mulG_finite T p HL (n - k mod n) ltac:(clear - HkB'; lia))
      as (_ & X' & Y' & _ & HY' & _).
    pose proof (mulG_parity T p HL (k mod n) Y Y' HkB' HY HY') as Hpar.
    rewrite !land_1_odd in Hpar.
    apply (fast_recover_core digest sig M d (n - k mod n) X Y'); auto.
    + clear - HkB'. lia.
    + rewrite (mulG_opposite_x T p HL) by exact HkB'. exact HX.
    + rewrite Hs'. clear - Hs0. lia.
    + rewrite Hv', lxor_1_shiftr. apply discriminant_shiftr.
    + rewrite Hv', lxor_1_odd, discriminant_odd.
      destruct (Z.odd Y), (Z.odd Y'); simpl in *; congruence.
    + rewrite Hs', Hsr.
      replace ((n - s) * (n - k mod n))
        with (n * (n - s - k mod n) + s * (k mod n)) by ring.
      rewrite Heq'.
      assert (H0 : eqm n (n * (n - s - k mod n)) 0).
      { unfold eqm. rewrite Z.mul_comm, Z.mod_mul by (clear - Hn; lia).
        reflexivity. }
      rewrite H0. reflexivity.
  - apply (fast_recover_core digest sig M d (k mod n) X Y); auto.
    + rewrite Hs'. clear - Hs0. lia.
    + rewrite Hv'. apply discriminant_shiftr.
    + rewrite Hv'. apply discriminant_odd.
    + rewrite Hs', Hsr. exact Heq'.
Qed.

(** *** Generic recovery *)

(** The point [inverse(e % n) * G] the recoverer adds is the opposite of
    [e * G]. *)
Lemma inverse_digest_point (e : Z) :
  0 <= e ->
  mulG T (FiniteField.inverse F (Z.rem e n)) = FiniteCurve.negate E (mulG T e).
Proof.
  intros He. pose proof n_pos as Hn.
  rewrite Z.rem_mod_nonneg by lia.
  pose proof (Z.mod_pos_bound e n Hn) as HeB.
  rewrite (F_inverse_mod T p HL) by exact HeB.
  rewrite <- mulG_mod by (clear - HeB; lia).
  rewrite mulG_negate_mod by assumption. reflexivity.
Qed.

Lemma yield_loop_formula (r s e : Z) (R : FinitePoint.t) :
  0 <= e ->
  yield_loop T s (FiniteField.reciprocal F r)
    (mulG T (FiniteField.inverse F (Z.rem e n))) 2 R
  = ([recovery_formula T r s e R;
      recovery_formula T r s e (FiniteCurve.negate E R)],
     FiniteCurve.negate E (FiniteCurve.negate E R)).
Proof.
  intros He. simpl. rewrite inverse_digest_point by assumption. reflexivity.
Qed.

Lemma recover_loop_sound (r s e : Z) (fuel : nat) :
  0 <= e ->
  forall (j jn : Z) (R0 : FinitePoint.t) (Q : FinitePoint.t),
    0 <= j -> jn = j * n ->
    Q ∈ recover_loop T r s (FiniteField.reciprocal F r)
          (mulG T (FiniteField.inverse F (Z.rem e n))) fuel j jn R0 ->
    exists (j' : Z) (R0' : FinitePoint.t),
      0 <= j' <= h
      /\ FinitePoint.x R0'
         = Some (FiniteField.add (FiniteCurve.F E) r (j' * n))
      /\ FinitePoint.isIdentity
           (FiniteCurve.multiply E n (FiniteCurve.solve E R0')) = true
      /\ (Q = recovery_formula T r s e (FiniteCurve.solve E R0')
          \/ Q = recovery_formula T r s e
                   (FiniteCurve.negate E (FiniteCurve.solve E R0'))).
Proof.
  intros He. induction fuel as [|fuel IH]; intros j jn R0 Q Hj Hjn HQ.
  - simpl in HQ. inversion HQ.
  - simpl in HQ. destruct (Z.leb_spec j h) as [Hjh|]; [|inversion HQ].
    set (R1 := FinitePoint.set_x R0
                 (Some (FiniteField.add (FiniteCurve.F E) r jn))) in *.
    destruct (FinitePoint.isIdentity
                (FiniteCurve.multiply E n (FiniteCurve.solve E R1))) eqn:Hid;
      simpl negb in HQ; cbv iota in HQ.
    + apply elem_of_cons in HQ as [->|HQ];
        [|apply elem_of_cons in HQ as [->|HQ]].
      * exists j, R1. subst jn. rewrite inverse_digest_point by assumption.
        repeat (split; [assumption || reflexivity || lia|]). left. reflexivity.
      * exists j, R1. subst jn. rewrite inverse_digest_point by assumption.
        repeat (split; [assumption || reflexivity || lia|]). right. reflexivity.
      * apply IH in HQ; [|lia|lia].
        destruct HQ as (j' & R0' & Hj' & Hrest). exists j', R0'.
        split; [lia|exact Hrest].
    + apply IH in HQ; [|lia|lia].
      destruct HQ as (j' & R0' & Hj' & Hrest). exists j', R0'.
      split; [lia|exact Hrest].
Qed.

(** *** Completeness of generic recovery *)

(** The candidate computed from the ephemeral point [k * G] of a signature
    is the public point. *)
Lemma candidate_is_public (r s e d k : Z) :
  0 <= d -> 0 <= e -> 0 <= k -> 0 < r < n -> 0 <= s ->
  eqm n (s * k) (e + r * d) ->
  FiniteCurve.multiply E (FiniteField.reciprocal F r)
    (FiniteCurve.add E (FiniteCurve.multiply E s (mulG T k))
       (mulG T (FiniteField.inverse F (Z.rem e n))))
  = mulG T d.
Proof.
  intros Hd He Hk Hr Hs Heq. pose proof n_pos as Hn.
  pose proof (order_gt_1 T p HL) as Hn1.
  assert (Hr0 : 0 <= r) by lia.
  assert (Hrn : r mod n <> 0) by (rewrite Z.mod_small; lia).
  pose proof (F_reciprocal_range T p HL r Hr0 Hrn) as Hrec.
  pose proof (F_reciprocal_mod T p HL r Hr0 Hrn) as Hrec1.
  clear Hrn.
  assert (Hone : eqm n (r * FiniteField.reciprocal F r) 1).
  { unfold eqm. rewrite Hrec1, Z.mod_1_l by (clear - Hn1; lia). reflexivity. }
  clear Hrec1.
  assert (HhB : 0 <= Z.rem e n < n).
  { rewrite Z.rem_mod_nonneg by lia. apply Z.mod_pos_bound. lia. }
  rewrite (F_inverse_mod T p HL) by exact HhB.
  assert (HiB : 0 <= (n - Z.rem e n) mod n) by (apply Z.mod_pos_bound; lia).
  rewrite (mulG_multiply T p HL) by assumption.
  assert (Hsk : 0 <= s * k) by (clear - Hs Hk; nia).
  rewrite (mulG_add T p HL) by assumption.
  assert (Hsum : 0 <= s * k + (n - Z.rem e n) mod n)
    by (clear - Hsk HiB; lia).
  rewrite (mulG_multiply T p HL) by assumption.
  apply mulG_eqm; [clear - Hrec Hsum; nia|assumption|].
  rewrite Zmod_eqm, Heq.
  rewrite Z.rem_mod_nonneg by (clear - He Hn; lia).
  assert (He' : eqm n (e mod n) e) by apply Zmod_eqm.
  set (e' := e mod n) in *. rewrite He'.
  replace (FiniteField.reciprocal F r * (e + r * d + (n - e)))
    with (n * FiniteField.reciprocal F r
          + d * (r * FiniteField.reciprocal F r)) by ring.
  rewrite Hone.
  assert (H0 : eqm n (n * FiniteField.reciprocal F r) 0).
  { unfold eqm. rewrite Z.mul_comm, Z.mod_mul by (clear - Hn; lia).
    reflexivity. }
  rewrite H0. replace (0 + d * 1) with d by ring. reflexivity.
Qed.

Lemma recover_loop_complete (r s e d k X : Z) (fuel : nat) :
  0 <= d -> 0 <= e -> 0 < k < n -> 0 < r < n -> 0 <= s ->
  eqm n (s * k) (e + r * d) ->
  FinitePoint.x (mulG T k) = Some X -> 0 <= X < p -> r = X - (X / n) * n ->
  X / n <= h ->
  forall (j jn : Z) (R0 : FinitePoint.t),
    0 <= j <= X / n -> jn = j * n -> X / n < j + Z.of_nat fuel ->
    mulG T d ∈ recover_loop T r s (FiniteField.reciprocal F r)
                 (mulG T (FiniteField.inverse F (Z.rem e n))) fuel j jn R0.
Proof.
  intros Hd He Hk Hr Hs Heq HX HXp HrX Hjh. pose proof n_pos as Hn.
  assert (Hnk : mulG T (n * k) = mulG T 0).
  { apply mulG_eqm; [clear - Hn Hk; nia|lia|].
    unfold eqm. rewrite Z.mul_comm, Z.mod_mul by (clear - Hn; lia).
    reflexivity. }
  assert (Hnk' : mulG T (n * (n - k)) = mulG T 0).
  { apply mulG_eqm; [clear - Hn Hk; nia|lia|].
    unfold eqm. rewrite Z.mul_comm, Z.mod_mul by (clear - Hn; lia).
    reflexivity. }
  destruct (mulG_identity T p HL) as [Hid0 _].
  induction fuel as [|fuel IH]; intros j jn R0 Hj Hjn Hfuel; [lia|].
  simpl recover_loop.
  destruct (Z.leb_spec j h) as [_|]; [|lia].
  set (R1 := FinitePoint.set_x R0
               (Some (FiniteField.add (FiniteCurve.F E) r jn))).
  destruct (Z.eq_dec j (X / n)) as [Hjeq|Hjne].
  - (* the turn of the x-coordinate of the ephemeral point *)
    assert (HR1 : FinitePoint.x R1 = FinitePoint.x (mulG T k)).
    { rewrite HX. unfold R1. simpl. f_equal.
      assert (Hjn0 : 0 <= jn) by (subst jn; clear - Hj Hn; nia).
      rewrite (EF_add_mod T p HL) by (assumption || lia).
      replace (r + jn) with X by (subst jn j; lia).
      apply Z.mod_small. assumption. }
    destruct (solve_mulG T p HL k R1 Hk HR1) as [Hsol|Hsol]; rewrite Hsol.
    + rewrite (mulG_multiply T p HL) by lia. rewrite Hnk, Hid0.
      simpl. rewrite (candidate_is_public r s e d k) by (assumption || lia).
      constructor.
    + rewrite (mulG_multiply T p HL) by lia. rewrite Hnk', Hid0.
      simpl. rewrite (mulG_negate T p HL (n - k)) by lia.
      replace (n - (n - k)) with k by ring.
      rewrite (candidate_is_public r s e d k) by (assumption || lia).
      constructor. constructor.
  - assert (Hnext : forall R, mulG T d ∈ recover_loop T r s
        (FiniteField.reciprocal F r)
        (mulG T (FiniteField.inverse F (Z.rem e n))) fuel (j + 1) (jn + n) R)
      by (intros R; apply IH; lia).
    destruct (negb _).
    + apply Hnext.
    + do 2 constructor. apply Hnext.
Qed.

(** With [p <= (h + 1) * n] an x-coordinate is [r + j * n] for some
    [j <= h]. *)
Lemma x_quotient_bound (X : Z) :
  p <= (h + 1) * n -> 0 <= X < p -> 0 <= X / n <= h.
Proof.
  intros Hc HXp. pose proof n_pos as Hn.
  split; [apply Z.div_pos; lia|].
  assert (X / n < h + 1); [|lia].
  apply Z.div_lt_upper_bound; [lia|]. clear - Hc HXp Hn. nia.
Qed.

(** When [p <= (h + 1) * n], for every base-form signature the signer
    produces with the secret [d] in [(0, n)], the public point [d * G] is
    among the candidates the generic recoverer yields for that signature
    and message. *)
Lemma generic_recover_complete (digest : list Z -> Z) (d : Z) (M : list Z)
  (rnd : entropy) (sig : Signature.t) :
  p <= (h + 1) * n ->
  0 < d < n -> 0 <= digest M ->
  Forall (Bytes.is_bytes (Bytes.byteLength n)) rnd ->
  Ecdsa_sign (EcdsaSec T digest) d M rnd = Some (Ok sig) ->
  exists cands,
    Ecdsa_recover (EcdsaSec T digest) sig M = Ok cands
    /\ mulG T d ∈ cands.
Proof.
  intros Hc Hd He Hrnd Hsign. pose proof n_pos as Hn.
  unfold EcdsaSec, _66a7cf_, Ecdsa_sign, _6dcb8a_ in Hsign.
  apply sign_loop_inv in Hsign
    as (K & X & HK & _ & _ & HX & Hr & Hs & Hsig).
  pose proof (entropy_nonneg _ _ K (Some (Bytes.byteLength n)) Hrnd HK) as Hk.
  assert (Hd0 : 0 <= d) by lia.
  destruct (signature_components d (digest M) _ X Hd0 He Hk HX Hr Hs)
    as (Hr0 & Hs0 & Hrm & HXp & Hkn & Heq).
  injection Hsig as ->.
  set (k := Bytes.uint8ArrayToBigint_LE K (Some (Bytes.byteLength n))) in *.
  set (s := FiniteField.divide F _ k) in *.
  pose proof (Z.mod_pos_bound k n Hn) as HkB.
  assert (HkB' : 0 < k mod n < n) by (clear - HkB Hkn; lia).
  clear HkB Hkn.
  rewrite (mulG_mod k Hk) in HX.
  assert (Heq' : eqm n (s * (k mod n)) (digest M + Z.rem X n * d))
    by (rewrite Zmod_eqm; exact Heq).
  assert (HrX : Z.rem X n = X - X / n * n).
  { rewrite Hrm. rewrite Z.mod_eq by (clear - Hn; lia). ring. }
  clear Hrm.
  destruct (x_quotient_bound X Hc HXp) as [Hq0 Hqh].
  unfold EcdsaSec, _66a7cf_, Ecdsa_recover, _2bfce0_, js_rem.
  destruct (Z.eqb_spec n 0) as [|_]; [lia|]. simpl bind.
  eexists. split; [reflexivity|]. simpl get_r. simpl get_s.
  apply (recover_loop_complete _ s (digest M) d (k mod n) X); auto; try lia.
Qed.

(** *** Recovery in the class form

    The class form gives the digest to [inverse] as it is, while the generic
    form reduces it modulo [n] first; the law of [inverse] speaks of
    arguments below [n], and for such a digest the two loops coincide. *)

Lemma class_recover_loop_generic (sig : Signature.t) (H : list Z)
  (hashlen : nat) (fuel : nat) :
  0 <= Bytes.uint8ArrayToBigint_LE H (Some hashlen) < n ->
  forall (j : Z) (R0 : FinitePoint.t),
    ClassForm.recover_loop T sig H hashlen fuel j R0
    = recover_loop T (Signature.r sig) (Signature.s sig)
        (FiniteField.reciprocal F (Signature.r sig))
        (mulG T (FiniteField.inverse F
                   (Z.rem (Bytes.uint8ArrayToBigint_LE H (Some hashlen)) n)))
        fuel j (j * n) R0.
Proof.
  intros He. rewrite Z.rem_small by exact He.
  induction fuel as [|fuel IH]; intros j R0; [reflexivity|].
  simpl. destruct (j <=? h); [|reflexivity].
  rewrite (solve_p3mod4_solve T p HL).
  replace (j * n + n) with ((j + 1) * n) by ring.
  destruct (negb _); [apply IH|].
  rewrite IH. reflexivity.
Qed.

(** The same in the class form, for a digest below [n]. *)
Lemma class_recover_complete (H : list Z) (d : Z) (hashlen : nat)
  (rnd : entropy) (sig : Signature.t) :
  p <= (h + 1) * n ->
  0 < d < n -> Forall (fun v => 0 <= v < 256) H ->
  Bytes.uint8ArrayToBigint_LE H (Some hashlen) < n ->
  Forall (Bytes.is_bytes hashlen) rnd ->
  ClassForm.sign T H d hashlen rnd = Some (Ok sig) ->
  mulG T d ∈ ClassForm.recover_p3mod4 T sig H hashlen.
Proof.
  intros Hc Hd HH Hen Hrnd Hsign. pose proof n_pos as Hn.
  pose proof (uint8ArrayToBigint_LE_nonneg H (Some hashlen) HH) as He.
  unfold ClassForm.sign in Hsign.
  apply class_sign_loop_inv in Hsign
    as (K & X & HK & _ & _ & HX & Hr & Hs & Hsig).
  pose proof (entropy_nonneg _ _ K (Some hashlen) Hrnd HK) as Hk.
  assert (Hd0 : 0 <= d) by lia.
  destruct (signature_components d _ _ X Hd0 He Hk HX Hr Hs)
    as (Hr0 & Hs0 & Hrm & HXp & Hkn & Heq).
  injection Hsig as ->.
  set (e := Bytes.uint8ArrayToBigint_LE H (Some hashlen)) in *.
  set (k := Bytes.uint8ArrayToBigint_LE K (Some hashlen)) in *.
  set (s := FiniteField.divide F _ k) in *.
  pose proof (Z.mod_pos_bound k n Hn) as HkB.
  assert (HkB' : 0 < k mod n < n) by (clear - HkB Hkn; lia).
  clear HkB Hkn.
  rewrite (mulG_mod k Hk) in HX.
  assert (Heq' : eqm n (s * (k mod n)) (e + Z.rem X n * d))
    by (rewrite Zmod_eqm; exact Heq).
  assert (HrX : Z.rem X n = X - X / n * n).
  { rewrite Hrm. rewrite Z.mod_eq by (clear - Hn; lia). ring. }
  clear Hrm.
  destruct (x_quotient_bound X Hc HXp) as [Hq0 Hqh].
  unfold ClassForm.recover_p3mod4.
  rewrite class_recover_loop_generic by (fold e; lia).
  simpl Signature.r. simpl Signature.s. fold e.
  apply (recover_loop_complete _ s e d (k mod n) X); auto; try lia.
Qed.

Lemma class_recover_formula (sig : Signature.t) (H : list Z) (hashlen : nat)
  (Q : FinitePoint.t) :
  0 <= Bytes.uint8ArrayToBigint_LE H (Some hashlen) < n ->
  Q ∈ ClassForm.recover_p3mod4 T sig H hashlen ->
  exists (j : Z) (R0 : FinitePoint.t),
    0 <= j <= h
    /\ FinitePoint.x R0
       = Some (FiniteField.add (FiniteCurve.F E) (Signature.r sig) (j * n))
    /\ FinitePoint.isIdentity
         (FiniteCurve.multiply E n (FiniteCurve.solve_p3mod4 E R0)) = true
    /\ (Q = recovery_formula T (Signature.r sig) (Signature.s sig)
              (Bytes.uint8ArrayToBigint_LE H (Some hashlen))
              (FiniteCurve.solve_p3mod4 E R0)
        \/ Q = recovery_formula T (Signature.r sig) (Signature.s sig)
                 (Bytes.uint8ArrayToBigint_LE H (Some hashlen))
                 (FiniteCurve.negate E (FiniteCurve.solve_p3mod4 E R0))).
Proof.
  intros He HQ. unfold ClassForm.recover_p3mod4 in HQ.
  rewrite class_recover_loop_generic in HQ by exact He.
  apply recover_loop_sound in HQ; [|lia|lia|lia].
  destruct HQ as (j & R0 & Hj & HxR & Hid & HQ).
  exists j, R0. rewrite !(solve_p3mod4_solve T p HL). auto.
Qed.

(** C2, with the two conditions it needs.  When [p <= (h + 1) * n], for
    every base-form signature the signer produces with the secret [d] in
    [(0, n)], the public point [d * G] is among the candidates the generic
    recoverer [_2bfce0_] yields for that signature and message; and it is
    among the points [Ecdsa.recover_p3mod4] of the class form yields for a
    signature of [Ecdsa.sign] when, besides, the digest is below [n].
    (That the prime of the base field is 3 modulo 4 is what lets [solve]
    meet its law.) *)
Theorem recover_complete :
  p <= (h + 1) * n ->
  (forall (digest : list Z -> Z) (d : Z) (M : list Z) (rnd : entropy)
          (sig : Signature.t),
      0 < d < n -> 0 <= digest M ->
      Forall (Bytes.is_bytes (Bytes.byteLength n)) rnd ->
      Ecdsa_sign (EcdsaSec T digest) d M rnd = Some (Ok sig) ->
      exists cands,
        Ecdsa_recover (EcdsaSec T digest) sig M = Ok cands
        /\ mulG T d ∈ cands)
  /\ (forall (H : list Z) (d : Z) (hashlen : nat) (rnd : entropy)
             (sig : Signature.t),
        0 < d < n -> Forall (fun v => 0 <= v < 256) H ->
        Bytes.uint8ArrayToBigint_LE H (Some hashlen) < n ->
        Forall (Bytes.is_bytes hashlen) rnd ->
        ClassForm.sign T H d hashlen rnd = Some (Ok sig) ->
        mulG T d ∈ ClassForm.recover_p3mod4 T sig H hashlen).
Proof.
  intros Hc. split.
  - intros digest d M rnd sig.
    apply (generic_recover_complete digest d M rnd sig Hc).
  - intros H d hashlen rnd sig.
    apply (class_recover_complete H d hashlen rnd sig Hc).
Qed.

End LawsFacts.

(** ** Properties of the code that need no law *)

Section CodeFacts.

Context (T : FiniteDomain.t).

Local Abbreviation E := (FiniteDomain.E T).
Local Abbreviation F := (FiniteDomain.F T).
Local Abbreviation G := (FiniteDomain.G T).
Local Abbreviation n := (FiniteDomain.n T).

Lemma sign_loop_shape {S : Type}
  (_7f_ : shape S)
  (d : Z) (M : list Z) (e : Z) (L : nat) (N zero : list Z) (fuel : nat) :
  forall (rnd : entropy) (res : result S),
    sign_loop T _7f_ d M e L N zero fuel rnd = Some res ->
    res = Throw \/ exists r s R, res = _7f_ T d M e r s R.
Proof.
  induction fuel as [|fuel IH]; intros rnd res; simpl; [discriminate|].
  destruct (nonce_loop N zero rnd) as [[K rnd']|]; [|discriminate].
  destruct (FinitePoint.x _) as [X|]; [|apply IH].
  destruct (js_rem X n) as [r|];
    [|intros H; injection H as <-; left; reflexivity].
  destruct (r =? 0); [apply IH|].
  match goal with
  | |- context [if ?c =? 0 then _ else _] => destruct (c =? 0); [apply IH|]
  end.
  intros H. injection H as <-. right. eauto.
Qed.

(** The fuel of the signing loop is enough: with more fuel than draws the
    loop behaves as with one unit less, so that it ends without a signature
    only when the draws have run out. *)
Lemma sign_loop_fuel {S : Type}
  (_7f_ : shape S)
  (d : Z) (M : list Z) (e : Z) (L : nat) (N zero : list Z) (fuel : nat) :
  forall (rnd : entropy),
    (length rnd <= fuel)%nat ->
    sign_loop T _7f_ d M e L N zero (Datatypes.S fuel) rnd
    = sign_loop T _7f_ d M e L N zero fuel rnd.
Proof.
  induction fuel as [|fuel IH]; intros rnd Hlen.
  - destruct rnd; [reflexivity|simpl in Hlen; lia].
  - change (sign_loop T _7f_ d M e L N zero
              (Datatypes.S (Datatypes.S fuel)) rnd)
      with (match nonce_loop N zero rnd with
            | None => None
            | Some (K, rnd') =>
                let k := Bytes.uint8ArrayToBigint_LE K (Some L) in
                let R := FiniteCurve.multiply E k G in
                match FinitePoint.x R with
                | None =>
                    sign_loop T _7f_ d M e L N zero (Datatypes.S fuel) rnd'
                | Some X =>
                    match js_rem X n with
                    | Throw => Some Throw
                    | Ok r =>
                        if r =? 0
                        then sign_loop T _7f_ d M e L N zero
                               (Datatypes.S fuel) rnd'
                        else
                          let _77_ := FiniteField.multiply F r d in
                          let _68_ := FiniteField.add F e _77_ in
                          let s := FiniteField.divide F _68_ k in
                          if s =? 0
                          then sign_loop T _7f_ d M e L N zero
                                 (Datatypes.S fuel) rnd'
                          else Some (_7f_ T d M e r s R)
                    end
                end
            end).
    simpl sign_loop at 4.
    destruct (nonce_loop N zero rnd) as [[K rnd']|] eqn:Hnonce; [|reflexivity].
    destruct (nonce_loop_inv _ _ _ _ _ Hnonce) as (_ & _ & _ & Hlt & _).
    rewrite IH by lia. reflexivity.
Qed.

(** The signer returns as soon as a draw is accepted and gives components
    that are not zero. *)
Lemma sign_returns {S : Type} (_ef_ : list Z -> Z)
  (_7f_ : shape S)
  (d : Z) (M K : list Z) (rnd : entropy) (X : Z) :
  let L := Bytes.byteLength n in
  let k := Bytes.uint8ArrayToBigint_LE K (Some L) in
  let r := Z.rem X n in
  let s := FiniteField.divide F
             (FiniteField.add F (_ef_ M) (FiniteField.multiply F r d)) k in
  Bytes.compare K (Bytes.bigintToUint8Array_LE n L) < 0 ->
  Bytes.compare K (Bytes.new_Uint8Array L) <> 0 ->
  FinitePoint.x (FiniteCurve.multiply E k G) = Some X ->
  n <> 0 -> r <> 0 -> s <> 0 ->
  _6dcb8a_ T _ef_ _7f_ d M (K :: rnd)
  = Some (_7f_ T d M (_ef_ M) r s (FiniteCurve.multiply E k G)).
Proof.
  intros L k r s HN Hz HX Hn Hr Hs. unfold _6dcb8a_. simpl.
  fold L.
  destruct (Z.geb_spec
              (Bytes.compare K (Bytes.bigintToUint8Array_LE n L)) 0)
    as [|_]; [lia|].
  destruct (Z.eqb_spec (Bytes.compare K (Bytes.new_Uint8Array L)) 0)
    as [|_]; [contradiction|]. simpl.
  fold k. rewrite HX. unfold js_rem.
  destruct (Z.eqb_spec n 0) as [|_]; [contradiction|].
  fold r. destruct (Z.eqb_spec r 0) as [|_]; [contradiction|].
  fold s. destruct (Z.eqb_spec s 0) as [|_]; [contradiction|].
  reflexivity.
Qed.

(** A turn of the recovery loop. *)
Lemma recover_loop_S (r s reciprocalR : Z) (eG : FinitePoint.t)
  (fuel : nat) (j jn : Z) (R : FinitePoint.t) :
  recover_loop T r s reciprocalR eG (Datatypes.S fuel) j jn R
  = if j <=? FiniteDomain.h T then
      let R1 := FiniteCurve.solve E
                  (FinitePoint.set_x R
                     (Some (FiniteField.add (FiniteCurve.F E) r jn))) in
      if negb (FinitePoint.isIdentity (FiniteCurve.multiply E n R1))
      then recover_loop T r s reciprocalR eG fuel (j + 1) (jn + n) R1
      else
        fst (yield_loop T s reciprocalR eG 2 R1)
        ++ recover_loop T r s reciprocalR eG fuel (j + 1) (jn + n)
             (snd (yield_loop T s reciprocalR eG 2 R1))
    else [].
Proof.
  simpl. destruct (j <=? FiniteDomain.h T); [|reflexivity].
  destruct (negb _); reflexivity.
Qed.

(** The fuel of the recovery loop is enough: it leaves through its test
    [j <= T.h]. *)
Lemma recover_loop_fuel (r s reciprocalR : Z) (eG : FinitePoint.t)
  (fuel : nat) :
  forall (j jn : Z) (R : FinitePoint.t),
    FiniteDomain.h T + 1 - j <= Z.of_nat fuel ->
    recover_loop T r s reciprocalR eG (Datatypes.S fuel) j jn R
    = recover_loop T r s reciprocalR eG fuel j jn R.
Proof.
  induction fuel as [|fuel IH]; intros j jn R Hfuel.
  - simpl. destruct (Z.leb_spec j (FiniteDomain.h T)); [lia|reflexivity].
  - rewrite (recover_loop_S _ _ _ _ (Datatypes.S fuel)).
    rewrite (recover_loop_S _ _ _ _ fuel).
    destruct (j <=? FiniteDomain.h T); [|reflexivity]. cbv zeta.
    rewrite !IH by lia. reflexivity.
Qed.

(** The digest of the exported instances is not negative. *)
Lemma uint8ArrayToBigint_BE_loop_nonneg (count : nat) :
  forall (i : nat) (a : list Z) (b : Z),
    Forall (fun v => 0 <= v < 256) a -> 0 <= b ->
    0 <= uint8ArrayToBigint_BE_loop count i a b.
Proof.
  induction count as [|count IH]; intros i a b Ha Hb; simpl; [assumption|].
  apply IH; [assumption|].
  assert (0 <= a !!! i).
  { destruct (a !! i) as [v|] eqn:Hv.
    - rewrite (list_lookup_total_correct a i v Hv).
      apply list_elem_of_lookup_2 in Hv.
      eapply Forall_forall in Ha; [|exact Hv]. lia.
    - rewrite list_lookup_total_alt, Hv. simpl. lia. }
  pose proof (proj2 (Z.shiftl_nonneg b 8) Hb). lia.
Qed.

Lemma _23dee7__nonneg (keccak256 : list Z -> list Z) (M : list Z) :
  Forall (fun v => 0 <= v < 256) (keccak256 M) -> 0 <= _23dee7_ keccak256 M.
Proof.
  intros Hk. unfold _23dee7_, uint8ArrayToBigint_BE.
  apply uint8ArrayToBigint_BE_loop_nonneg; [assumption|lia].
Qed.

(** The right shift by one that the normalization compares with is the
    half of [n], rounded down. *)
Lemma shiftr_1_half (m : Z) : Z.shiftr m 1 = m / 2.
Proof. rewrite Z.shiftr_div_pow2 by lia. reflexivity. Qed.

(** C7. The recoverable shape replaces [s] with [n - s] and flips bit 0 of
    the discriminant exactly when [s > n / 2]; the [s] it emits is at most
    [n / 2], so is the [s] of every recoverable signature the signer
    returns; and the normalization leaves a normalized pair as it is. *)
Theorem low_s_normalization :
  (forall (r s : Z) (R : FinitePoint.t) (m : Z) (sig : RecoverableSignature.t),
      _033399_ r s R m = Ok sig ->
      exists X Y,
        FinitePoint.x R = Some X /\ FinitePoint.y R = Some Y
        /\ let v0 := Z.lor (Z.lor 0 (Z.land Y 1)) (Z.shiftl (Z.quot X m) 1) in
           (m / 2 < s ->
              RecoverableSignature.s sig = m - s
              /\ RecoverableSignature.v sig = Z.lxor v0 1
              /\ Z.testbit (RecoverableSignature.v sig) 0
                 = negb (Z.testbit v0 0)
              /\ Z.shiftr (RecoverableSignature.v sig) 1 = Z.shiftr v0 1)
           /\ (s <= m / 2 ->
                 RecoverableSignature.s sig = s
                 /\ RecoverableSignature.v sig = v0)
           /\ RecoverableSignature.s sig <= m / 2
           /\ low_s m (RecoverableSignature.s sig, RecoverableSignature.v sig)
              = (RecoverableSignature.s sig, RecoverableSignature.v sig))
  /\ (forall (digest : list Z -> Z) (d : Z) (M : list Z) (rnd : entropy)
             (sig : RecoverableSignature.t),
        Ecdsa_sign (EcdsaFastRecover T digest) d M rnd = Some (Ok sig) ->
        RecoverableSignature.s sig <= n / 2
        /\ low_s n (RecoverableSignature.s sig, RecoverableSignature.v sig)
           = (RecoverableSignature.s sig, RecoverableSignature.v sig))
  /\ (forall m s v, low_s m (low_s m (s, v)) = low_s m (s, v)).
Proof.
  assert (Hnorm : forall m s v s' v',
             low_s m (s, v) = (s', v') ->
             s' <= m / 2 /\ low_s m (s', v') = (s', v')).
  { intros m s v s' v'. unfold low_s. rewrite !shiftr_1_half.
    destruct (Z.gtb_spec s (m / 2)) as [Hhigh|Hlow];
      intros H; injection H as <- <-.
    - assert (m - s <= m / 2)
        by (pose proof (Z.div_mod m 2 ltac:(lia));
            pose proof (Z.mod_pos_bound m 2 ltac:(lia)); lia).
      split; [assumption|].
      destruct (Z.gtb_spec (m - s) (m / 2)); [lia|reflexivity].
    - split; [assumption|].
      destruct (Z.gtb_spec s (m / 2)); [lia|reflexivity]. }
  split; [|split].
  - intros r s R m sig Hsig.
    apply _033399__inv in Hsig as (X & Y & HX & HY & _ & _ & Hsv).
    exists X, Y. split; [assumption|]. split; [assumption|]. cbv zeta.
    symmetry in Hsv. destruct (Hnorm _ _ _ _ _ Hsv) as [Hle Hidem].
    unfold low_s in Hsv. rewrite shiftr_1_half in Hsv.
    split; [|split; [|split; assumption]].
    + intros Hhigh. destruct (Z.gtb_spec s (m / 2)); [|lia].
      injection Hsv as <- <-.
      split; [reflexivity|]. split; [reflexivity|].
      rewrite lxor_1_shiftr, !Z.bit0_odd, lxor_1_odd. split; reflexivity.
    + intros Hlow. destruct (Z.gtb_spec s (m / 2)); [lia|].
      injection Hsv as <- <-. split; reflexivity.
  - intros digest d M rnd sig Hsign.
    unfold EcdsaFastRecover, _66a7cf_, Ecdsa_sign, _6dcb8a_ in Hsign.
    apply sign_loop_shape in Hsign as [|(r & s & R & Hsig)]; [discriminate|].
    symmetry in Hsig. unfold _30ecde_ in Hsig.
    apply _033399__inv in Hsig as (X & Y & _ & _ & _ & _ & Hsv).
    symmetry in Hsv. exact (Hnorm _ _ _ _ _ Hsv).
  - intros m s v. destruct (low_s m (s, v)) as [s' v'] eqn:Hsv.
    exact (proj2 (Hnorm _ _ _ _ _ Hsv)).
Qed.

End CodeFacts.

(** ** A small domain that passes [check] meets the laws *)

Lemma range_forallb (P : Z -> bool) (N : nat) :
  forallb P (Toy.range N) = true ->
  forall i, 0 <= i < Z.of_nat N -> P i = true.
Proof.
  intros Hall i Hi. rewrite List.forallb_forall in Hall. apply Hall.
  unfold Toy.range. rewrite <- (Z2Nat.id i) by lia.
  apply List.in_map, List.in_seq. lia.
Qed.

Lemma coordinate_eqb_eq (u v : option Z) :
  FinitePoint.coordinate_eqb u v = true -> u = v.
Proof.
  destruct u as [a|], v as [b|]; simpl; try discriminate; [|reflexivity].
  intros H. apply Z.eqb_eq in H. congruence.
Qed.

Lemma FinitePoint_eqb_eq (P Q : FinitePoint.t) :
  FinitePoint.eqb P Q = true -> P = Q.
Proof.
  destruct P as [x1 y1 i1], Q as [x2 y2 i2]. unfold FinitePoint.eqb. simpl.
  intros H. apply andb_prop in H as [H Hi]. apply andb_prop in H as [Hx Hy].
  apply coordinate_eqb_eq in Hx, Hy. apply Bool.eqb_prop in Hi. congruence.
Qed.

Section ToyFacts.

Context (c : Toy.curve) (Hcheck : Toy.check c = true).

Local Abbreviation n := (Toy.n c).

Lemma toy_checks :
  1 < n
  /\ Toy.public c n = Toy.O
  /\ (forall u, 0 <= u < n -> Toy.check_reciprocal c u = true)
  /\ (forall u, 0 <= u < n -> Toy.check_add c u = true)
  /\ (forall u, 0 <= u <= n -> Toy.check_negate c u = true)
  /\ (forall u, 0 <= u < n -> Toy.check_finite c u = true)
  /\ (forall u, 0 <= u < n -> Toy.check_opposite c u = true)
  /\ (forall u, 0 <= u < n -> Toy.check_solve c u = true).
Proof.
  unfold Toy.check in Hcheck.
  repeat (apply andb_prop in Hcheck as [Hcheck ?]).
  apply Z.ltb_lt in Hcheck.
  repeat split; try assumption.
  - apply FinitePoint_eqb_eq. assumption.
  - intros u Hu. eapply range_forallb; [eassumption|lia].
  - intros u Hu. eapply range_forallb; [eassumption|lia].
  - intros u Hu. eapply range_forallb; [eassumption|lia].
  - intros u Hu. eapply range_forallb; [eassumption|lia].
  - intros u Hu. eapply range_forallb; [eassumption|lia].
  - intros u Hu. eapply range_forallb; [eassumption|lia].
Qed.

Lemma toy_public_period (u : Z) :
  0 <= u -> Toy.public c (u + n) = Toy.public c u.
Proof.
  intros Hu. destruct toy_checks as (Hn & HnO & _).
  unfold Toy.public, Toy.multiply in *.
  rewrite Z2Nat.inj_add by lia. rewrite Nat.iter_add, HnO. reflexivity.
Qed.

Lemma toy_public_mod (u : Z) :
  0 <= u -> Toy.public c u = Toy.public c (u mod n).
Proof.
  intros Hu. destruct toy_checks as (Hn & _).
  assert (Hper : forall (q : nat) (w : Z), 0 <= w ->
             Toy.public c (w + Z.of_nat q * n) = Toy.public c w).
  { induction q as [|q IH]; intros w Hw.
    - f_equal. lia.
    - replace (w + Z.of_nat (S q) * n) with ((w + Z.of_nat q * n) + n) by lia.
      rewrite toy_public_period by nia. apply IH. assumption. }
  pose proof (Z.mod_pos_bound u n ltac:(lia)).
  pose proof (Z.div_pos u n ltac:(lia) ltac:(lia)).
  rewrite <- (Hper (Z.to_nat (u / n)) (u mod n)) by lia.
  f_equal. rewrite Z2Nat.id by lia.
  pose proof (Z.div_mod u n ltac:(lia)). lia.
Qed.

Lemma toy_add_public (u v : Z) :
  0 <= u -> 0 <= v ->
  Toy.add c (Toy.public c u) (Toy.public c v) = Toy.public c (u + v).
Proof.
  intros Hu Hv. destruct toy_checks as (Hn & _ & _ & Hadd & _).
  rewrite (toy_public_mod u), (toy_public_mod v), (toy_public_mod (u + v))
    by lia.
  pose proof (Z.mod_pos_bound u n ltac:(lia)) as Hu'.
  pose proof (Z.mod_pos_bound v n ltac:(lia)) as Hv'.
  pose proof (Hadd (u mod n) Hu') as Hall.
  unfold Toy.check_add in Hall.
  pose proof (range_forallb _ _ Hall (v mod n) ltac:(lia)) as Hc.
  apply FinitePoint_eqb_eq in Hc. rewrite Hc.
  f_equal. symmetry. apply Z.add_mod. lia.
Qed.

Lemma toy_multiply_public (u v : Z) :
  0 <= u -> 0 <= v ->
  Toy.multiply c u (Toy.public c v) = Toy.public c (u * v).
Proof.
  intros Hu Hv. revert u Hu. apply natlike_ind.
  - reflexivity.
  - intros u Hu IH. unfold Toy.multiply in *.
    rewrite Z2Nat.inj_succ by assumption. simpl Nat.iter. rewrite IH.
    rewrite toy_add_public by nia. f_equal. lia.
Qed.

Lemma toy_laws : DomainLaws (Toy.T c) (Toy.p c).
Proof.
  destruct toy_checks
    as (Hn & HnO & Hrec & Hadd & Hneg & Hfin & Hopp & Hsol).
  constructor;
    change (FiniteDomain.n (Toy.T c)) with n;
    change (FiniteCurve.multiply (FiniteDomain.E (Toy.T c)))
      with (Toy.multiply c);
    change (FiniteCurve.add (FiniteDomain.E (Toy.T c))) with (Toy.add c);
    change (FiniteCurve.negate (FiniteDomain.E (Toy.T c))) with (Toy.negate c);
    change (FiniteCurve.solve (FiniteDomain.E (Toy.T c))) with (Toy.solve c);
    change (FiniteCurve.solve_p3mod4 (FiniteDomain.E (Toy.T c)))
      with (Toy.solve c);
    change (FiniteDomain.G (Toy.T c)) with (Toy.affine (Toy.Gx c) (Toy.Gy c));
    change (Toy.multiply c ?k (Toy.affine (Toy.Gx c) (Toy.Gy c)))
      with (Toy.public c k).
  - exact Hn.
  - reflexivity.
  - reflexivity.
  - reflexivity.
  - intros u _ _. apply Z.mod_pos_bound. lia.
  - intros u Hu Hne.
    rewrite <- Z.mul_mod_idemp_l by lia.
    pose proof (Z.mod_pos_bound u n ltac:(lia)) as HuB.
    pose proof (Hrec (u mod n) HuB) as Hc.
    unfold Toy.check_reciprocal in Hc.
    apply orb_prop in Hc as [H0|H1]; [apply Z.eqb_eq in H0; contradiction|].
    apply Z.eqb_eq in H1. simpl FiniteField.reciprocal in *.
    rewrite Z.mod_mod in H1 by lia. exact H1.
  - reflexivity.
  - reflexivity.
  - intros u Hu. apply toy_public_period. assumption.
  - intros u v Hu Hv. apply toy_multiply_public; assumption.
  - intros u v Hu Hv. apply toy_add_public; assumption.
  - intros u Hu. apply FinitePoint_eqb_eq. apply Hneg. assumption.
  - split; reflexivity.
  - intros u Hu.
    pose proof (Hfin u ltac:(lia)) as Hc. unfold Toy.check_finite in Hc.
    apply orb_prop in Hc as [H0|H1]; [apply Z.eqb_eq in H0; lia|].
    destruct (FinitePoint.x (Toy.public c u)) as [X|]; [|discriminate].
    destruct (FinitePoint.y (Toy.public c u)) as [Y|]; [|discriminate].
    repeat (apply andb_prop in H1 as [H1 ?]).
    apply negb_true_iff in H1. split; [assumption|].
    exists X, Y. repeat split; lia.
  - intros u Hu.
    pose proof (Hopp u ltac:(lia)) as Hc. unfold Toy.check_opposite in Hc.
    apply orb_prop in Hc as [H0|H1]; [apply Z.eqb_eq in H0; lia|].
    apply andb_prop in H1 as [H1 _]. apply coordinate_eqb_eq in H1. exact H1.
  - intros u Y Y' Hu HY HY'.
    pose proof (Hopp u ltac:(lia)) as Hc. unfold Toy.check_opposite in Hc.
    apply orb_prop in Hc as [H0|H1]; [apply Z.eqb_eq in H0; lia|].
    apply andb_prop in H1 as [_ H1].
    rewrite HY, HY' in H1. apply negb_true_iff, Z.eqb_neq in H1. exact H1.
  - reflexivity.
  - intros u R0 Hu HR0.
    assert (Hx : exists X, FinitePoint.x (Toy.public c u) = Some X).
    { pose proof (Hfin u ltac:(lia)) as Hc. unfold Toy.check_finite in Hc.
      apply orb_prop in Hc as [H0|H1]; [apply Z.eqb_eq in H0; lia|].
      destruct (FinitePoint.x (Toy.public c u)) as [X|]; [eauto|discriminate]. }
    destruct Hx as [X Hx].
    assert (Hsame : Toy.solve c R0 = Toy.solve c (Toy.public c u))
      by (unfold Toy.solve; rewrite HR0, Hx; reflexivity).
    rewrite Hsame.
    pose proof (Hsol u ltac:(lia)) as Hc. unfold Toy.check_solve in Hc.
    apply orb_prop in Hc as [Hc|H2]; [apply orb_prop in Hc as [H0|H1]|].
    + apply Z.eqb_eq in H0. lia.
    + left. apply FinitePoint_eqb_eq. exact H1.
    + right. apply FinitePoint_eqb_eq. exact H2.
  - reflexivity.
Qed.

End ToyFacts.

Lemma small_laws : DomainLaws (Toy.T Toy.small) 19.
Proof. apply (toy_laws Toy.small). vm_compute. reflexivity. Qed.

Lemma cofactor3_laws : DomainLaws (Toy.T Toy.cofactor3) 31.
Proof. apply (toy_laws Toy.cofactor3). vm_compute. reflexivity. Qed.

(** ** The small domains with the scalar field computed with [%] *)

(** A domain that differs from a lawful one only in how its scalar field
    treats arguments outside the range of the laws is lawful. *)
Lemma laws_transfer (T T' : FiniteDomain.t) (p : Z) :
  DomainLaws T p ->
  FiniteDomain.E T' = FiniteDomain.E T ->
  FiniteDomain.G T' = FiniteDomain.G T ->
  FiniteDomain.n T' = FiniteDomain.n T ->
  (forall a b, 0 <= a -> 0 <= b ->
     FiniteField.add (FiniteDomain.F T') a b
     = FiniteField.add (FiniteDomain.F T) a b) ->
  (forall a b, 0 <= a -> 0 <= b ->
     FiniteField.multiply (FiniteDomain.F T') a b
     = FiniteField.multiply (FiniteDomain.F T) a b) ->
  (forall a b, 0 <= a -> 0 <= b ->
     FiniteField.divide (FiniteDomain.F T') a b
     = FiniteField.divide (FiniteDomain.F T) a b) ->
  (forall a, 0 <= a < FiniteDomain.n T ->
     FiniteField.inverse (FiniteDomain.F T') a
     = FiniteField.inverse (FiniteDomain.F T) a) ->
  (forall a, 0 <= a ->
     FiniteField.reciprocal (FiniteDomain.F T') a
     = FiniteField.reciprocal (FiniteDomain.F T) a) ->
  (forall s P, 0 <= s ->
     FiniteDomain.divide T' s P = FiniteDomain.divide T s P) ->
  DomainLaws T' p.
Proof.
  intros HL HE HG Hn Hadd Hmul Hdiv Hinv Hrec HTdiv.
  constructor; rewrite ?HE, ?HG, ?Hn.
  - apply (order_gt_1 T p HL).
  - intros a b Ha Hb. rewrite Hadd by assumption.
    apply (F_add_mod T p HL); assumption.
  - intros a b Ha Hb. rewrite Hmul by assumption.
    apply (F_multiply_mod T p HL); assumption.
  - intros a Ha. rewrite Hinv by assumption.
    apply (F_inverse_mod T p HL); assumption.
  - intros a Ha Hne. rewrite Hrec by assumption.
    apply (F_reciprocal_range T p HL); assumption.
  - intros a Ha Hne. rewrite Hrec by assumption.
    apply (F_reciprocal_mod T p HL); assumption.
  - intros a b Ha Hb Hne. rewrite Hdiv, Hrec by assumption.
    apply (F_divide_mod T p HL); assumption.
  - apply (EF_add_mod T p HL).
  - apply (mulG_order T p HL).
  - apply (mulG_multiply T p HL).
  - apply (mulG_add T p HL).
  - apply (mulG_negate T p HL).
  - apply (mulG_identity T p HL).
  - apply (mulG_finite T p HL).
  - apply (mulG_opposite_x T p HL).
  - apply (mulG_parity T p HL).
  - intros s a Hs Hne Ha. rewrite HTdiv, Hrec by assumption.
    apply (divide_mulG T p HL); assumption.
  - apply (solve_mulG T p HL).
  - apply (solve_p3mod4_solve T p HL).
Qed.

Lemma field_rem_reciprocal (m u : Z) :
  0 < m -> 0 <= u ->
  FiniteField.reciprocal (Toy.field_rem m) u
  = FiniteField.reciprocal (Toy.field m) u.
Proof.
  intros Hm Hu. simpl.
  rewrite (Z.rem_mod_nonneg u m) by lia.
  apply Z.rem_mod_nonneg; [|lia].
  destruct (Z.le_gt_cases 0 (m - 2)) as [He|He].
  - apply Z.pow_nonneg. apply Z.mod_pos_bound. lia.
  - rewrite Z.pow_neg_r by lia. lia.
Qed.

Lemma toy_rem_laws (c : Toy.curve) :
  Toy.check c = true -> DomainLaws (Toy.T_rem c) (Toy.p c).
Proof.
  intros Hcheck. pose proof (toy_laws c Hcheck) as HL.
  pose proof (order_gt_1 _ _ HL) as Hn.
  change (FiniteDomain.n (Toy.T c)) with (Toy.n c) in Hn.
  apply (laws_transfer (Toy.T c)); try reflexivity; try assumption.
  - intros a b Ha Hb. simpl. apply Z.rem_mod_nonneg; lia.
  - intros a b Ha Hb. simpl. apply Z.rem_mod_nonneg; [nia|lia].
  - intros a b Ha Hb.
    pose proof (field_rem_reciprocal (Toy.n c) b ltac:(lia) Hb) as Hr.
    simpl in Hr |- *. rewrite Hr. apply Z.rem_mod_nonneg; [|lia].
    apply Z.mul_nonneg_nonneg; [assumption|].
    apply Z.mod_pos_bound. lia.
  - intros a Ha. simpl in Ha |- *. apply Z.rem_mod_nonneg; lia.
  - intros a Ha. apply field_rem_reciprocal; [lia|assumption].
  - intros s P Hs.
    change (Toy.multiply c
              (FiniteField.reciprocal (Toy.field_rem (Toy.n c)) s) P
            = Toy.multiply c
                (FiniteField.reciprocal (Toy.field (Toy.n c)) s) P).
    rewrite field_rem_reciprocal by lia. reflexivity.
Qed.

Lemma small_rem_laws : DomainLaws (Toy.T_rem Toy.small) 19.
Proof. apply (toy_rem_laws Toy.small). vm_compute. reflexivity. Qed.

(** ** Verification *)

Section VerifyFacts.

Context (T : FiniteDomain.t).

Local Abbreviation E := (FiniteDomain.E T).
Local Abbreviation G := (FiniteDomain.G T).
Local Abbreviation n := (FiniteDomain.n T).

Lemma verify_in_range {S : Type} `{HasRS S} (digest : list Z -> Z)
  (Q : FinitePoint.t) (sig : S) (M : list Z) :
  0 < get_r sig < n -> 0 < get_s sig < n ->
  verify T digest Q sig M
  = let R' := FiniteDomain.divide T (get_s sig)
                (FiniteCurve.add E (FiniteCurve.multiply E (digest M) G)
                   (FiniteCurve.multiply E (get_r sig) Q)) in
    if FinitePoint.isIdentity R' then Ok false
    else match FinitePoint.x R' with
         | Some X => Ok (Z.rem X n =? get_r sig)
         | None => Throw
         end.
Proof.
  intros Hr Hs. unfold verify.
  destruct (Z.eqb_spec (get_r sig) 0) as [|_]; [lia|].
  destruct (Z.geb_spec (get_r sig) n) as [|_]; [lia|].
  destruct (Z.eqb_spec (get_s sig) 0) as [|_]; [lia|].
  destruct (Z.geb_spec (get_s sig) n) as [|_]; [lia|].
  simpl orb. cbv iota zeta.
  destruct (FinitePoint.isIdentity _); [reflexivity|].
  destruct (FinitePoint.x _) as [X|]; [|reflexivity].
  simpl. unfold js_rem. destruct (Z.eqb_spec n 0) as [|_]; [lia|].
  reflexivity.
Qed.

(** C9. For an in-range signature, [verify] computes
    [R' = (e * G + r * Q) / s], returns [false] when [R'] is the identity,
    and otherwise returns whether [R'.x % n] is [r]: for the x-coordinate
    [X >= 0] of [R'], [true] if and only if [X mod n = r].  The generic and
    the class form agree. *)
Theorem verify_decides :
  (forall (S : Type) (HS : HasRS S) (digest : list Z -> Z) (Q : FinitePoint.t)
          (sig : S) (M : list Z),
      0 < get_r sig < n -> 0 < get_s sig < n ->
      let R' := FiniteDomain.divide T (get_s sig)
                  (FiniteCurve.add E (FiniteCurve.multiply E (digest M) G)
                     (FiniteCurve.multiply E (get_r sig) Q)) in
      (FinitePoint.isIdentity R' = true -> verify T digest Q sig M = Ok false)
      /\ (forall X,
            FinitePoint.isIdentity R' = false -> FinitePoint.x R' = Some X ->
            verify T digest Q sig M = Ok (Z.rem X n =? get_r sig)
            /\ (0 <= X ->
                (verify T digest Q sig M = Ok true <-> X mod n = get_r sig)
                /\ (verify T digest Q sig M = Ok false
                    <-> X mod n <> get_r sig))))
  /\ (forall (Q : FinitePoint.t) (sig : Signature.t) (H : list Z)
             (hashlen : nat),
        ClassForm.verify T Q sig H hashlen
        = verify T (fun H => Bytes.uint8ArrayToBigint_LE H (Some hashlen))
            Q sig H).
Proof.
  split; [|reflexivity].
  intros S HS digest Q sig M Hr Hs R'.
  rewrite (verify_in_range digest Q sig M Hr Hs). fold R'. cbv zeta.
  split.
  - intros ->. reflexivity.
  - intros X -> ->. split; [reflexivity|].
    intros HX. rewrite Z.rem_mod_nonneg by lia.
    destruct (Z.eqb_spec (X mod n) (get_r sig)) as [Heq|Hne].
    + split; split; intros; (reflexivity || assumption || congruence).
    + split; split; intros; (reflexivity || assumption || congruence).
Qed.

(** X24. [verify] returns [false], before any arithmetic, when [r = 0],
    [r >= n], [s = 0] or [s >= n]; and it returns [false] for a negative
    [r] when [n > 0] and the point [R'] it computes is the identity or has
    an x-coordinate that is not negative.  The guard
    [S.s == 0n || S.s >= T.n] lets a negative [s] through: what [verify]
    returns for it is decided by [T.divide]. *)
Theorem verify_range_rejection :
  (forall (S : Type) (HS : HasRS S) (digest : list Z -> Z) (Q : FinitePoint.t)
          (sig : S) (M : list Z),
      (get_r sig = 0 \/ n <= get_r sig \/ get_s sig = 0 \/ n <= get_s sig ->
       verify T digest Q sig M = Ok false)
      /\ (get_r sig < 0 -> 0 < n ->
          wf_point (FiniteDomain.divide T (get_s sig)
                      (FiniteCurve.add E (FiniteCurve.multiply E (digest M) G)
                         (FiniteCurve.multiply E (get_r sig) Q))) ->
          verify T digest Q sig M = Ok false))
  /\ (forall (Q : FinitePoint.t) (sig : Signature.t) (H : list Z)
             (hashlen : nat),
        (Signature.r sig = 0 \/ n <= Signature.r sig
         \/ Signature.s sig = 0 \/ n <= Signature.s sig ->
         ClassForm.verify T Q sig H hashlen = Ok false)
        /\ (Signature.r sig < 0 -> 0 < n ->
            wf_point (FiniteDomain.divide T (Signature.s sig)
                        (FiniteCurve.add E
                           (FiniteCurve.multiply E
                              (Bytes.uint8ArrayToBigint_LE H (Some hashlen)) G)
                           (FiniteCurve.multiply E (Signature.r sig) Q))) ->
            ClassForm.verify T Q sig H hashlen = Ok false)).
Proof.
  assert (Hgen : forall (S : Type) (HS : HasRS S) (digest : list Z -> Z)
                        (Q : FinitePoint.t) (sig : S) (M : list Z),
      (get_r sig = 0 \/ n <= get_r sig \/ get_s sig = 0 \/ n <= get_s sig ->
       verify T digest Q sig M = Ok false)
      /\ (get_r sig < 0 -> 0 < n ->
          wf_point (FiniteDomain.divide T (get_s sig)
                      (FiniteCurve.add E (FiniteCurve.multiply E (digest M) G)
                         (FiniteCurve.multiply E (get_r sig) Q))) ->
          verify T digest Q sig M = Ok false)).
  { intros S HS digest Q sig M. unfold verify. split.
    - intros Hout.
      destruct (Z.eqb_spec (get_r sig) 0) as [|Hr0]; [reflexivity|].
      destruct (Z.geb_spec (get_r sig) n) as [|Hrn]; [reflexivity|].
      destruct (Z.eqb_spec (get_s sig) 0) as [|Hs0]; [reflexivity|].
      destruct (Z.geb_spec (get_s sig) n) as [|Hsn]; [reflexivity|].
      lia.
    - intros Hneg Hn Hwf.
      destruct ((get_r sig =? 0) || (get_r sig >=? n)); [reflexivity|].
      destruct ((get_s sig =? 0) || (get_s sig >=? n)); [reflexivity|].
      cbv zeta. destruct Hwf as [->|(X & -> & HX)]; [reflexivity|].
      destruct (FinitePoint.isIdentity _); [reflexivity|].
      simpl. unfold js_rem. destruct (Z.eqb_spec n 0) as [|_]; [lia|].
      simpl. f_equal. apply Z.eqb_neq.
      pose proof (Z.rem_nonneg X n ltac:(lia) HX). lia. }
  split; [exact Hgen|].
  intros Q sig H hashlen.
  exact (Hgen Signature.t _
           (fun H => Bytes.uint8ArrayToBigint_LE H (Some hashlen)) Q sig H).
Qed.

End VerifyFacts.

(** ** The nonce loop of the class form *)

(** C6, where the class form departs from it.  The class form redraws on
    [compare(K, N) == 1] only, so it accepts the draw that encodes the
    order itself: for every order [n > 0] and every [hashlen] that holds
    [n], the draw [K = N] leaves the loop with [k = n], which is not in
    [[1, n)]. *)
Theorem class_form_nonce_accepts_order (n : Z) (hashlen : nat)
  (rnd : entropy) :
  0 < n -> (Bytes.byteLength n <= hashlen)%nat ->
  let N := Bytes.bigintToUint8Array_LE n hashlen in
  ClassForm.nonce_loop N (Bytes.new_Uint8Array hashlen) (N :: rnd)
  = Some (N, rnd)
  /\ Bytes.uint8ArrayToBigint_LE N (Some hashlen) = n.
Proof.
  intros Hn Hlen N.
  assert (Hn256 : n < 256 ^ Z.of_nat hashlen).
  { pose proof (byteLength_bound n ltac:(lia)) as Hb.
    eapply Z.lt_le_trans; [exact Hb|].
    apply Z.pow_le_mono_r; lia. }
  assert (HN : N = Bytes.le_bytes hashlen n)
    by (apply bigintToUint8Array_LE_le_bytes; lia).
  assert (HNb : Bytes.is_bytes hashlen N)
    by (rewrite HN; apply le_bytes_bytes).
  assert (HNv : Bytes.le_val N = n)
    by (rewrite HN, le_val_le_bytes; apply Z.mod_small; lia).
  split.
  - simpl. rewrite (compare_le_val hashlen N N HNb HNb).
    rewrite Z.compare_refl. simpl.
    rewrite (compare_le_val hashlen N (Bytes.new_Uint8Array hashlen) HNb).
    2:{ split; [apply length_replicate|]. apply Forall_replicate. lia. }
    unfold Bytes.new_Uint8Array. rewrite le_val_replicate_0, HNv.
    destruct (Z.compare_spec n 0); try lia. reflexivity.
  - rewrite uint8ArrayToBigint_LE_le_val. simpl default.
    destruct HNb as [HNlen _]. rewrite take_ge by lia. exact HNv.
Qed.

(** ** The theorems at the small domains

    Over [Toy.small], with the secret [d = 5], the digest [e = 9] and the
    nonce [k = 3]: [R = 3 * G = (4, 5)], [r = 4],
    [s = (9 + 4 * 5) / 3 = 4], and the public point is [5 * G = (8, 5)]. *)

Section Examples.

Local Abbreviation T19 := (Toy.T Toy.small).
Local Abbreviation Sec19 := (EcdsaSec (Toy.T Toy.small) Toy.digest).
Local Abbreviation Fast19 := (EcdsaFastRecover (Toy.T Toy.small) Toy.digest).
Local Abbreviation Q19 := (Toy.public Toy.small 5).
Local Abbreviation T19rem := (Toy.T_rem Toy.small).
Local Abbreviation T31 := (Toy.T Toy.cofactor3).
Local Abbreviation Sec31 := (EcdsaSec (Toy.T Toy.cofactor3) Toy.digest).
Local Abbreviation Fast31 :=
  (EcdsaFastRecover (Toy.T Toy.cofactor3) Toy.digest).

Example toy_sign :
  Ecdsa_sign Sec19 5 [9] [[3]] = Some (Ok (Signature.mk 4 4)).
Proof. vm_compute. reflexivity. Qed.

Example toy_public : Q19 = Toy.affine 8 5.
Proof. vm_compute. reflexivity. Qed.

(** Draws that are rejected ([0], [17]), a draw with [r = 0] ([6]) and a
    draw above the order ([200]) are passed over. *)
Example toy_sign_retries :
  Ecdsa_sign Sec19 5 [9] [[0]; [17]; [6]; [200]; [2]]
  = Some (Ok (Signature.mk 1 7)).
Proof. vm_compute. reflexivity. Qed.

(** The nonce 15 gives [R = (18, 11)]: [r = 18 mod 17], bit 1 of [v] is
    set, and [s = 10] is replaced by [17 - 10] with bit 0 flipped. *)
Example toy_sign_recoverable :
  Ecdsa_sign Fast19 5 [9] [[15]]
  = Some (Ok (RecoverableSignature.mk 1 7 2)).
Proof. vm_compute. reflexivity. Qed.

Lemma toy_entropy (L : nat) (rnd : entropy) :
  forallb
    (fun K => (length K =? L)%nat
              && forallb (fun v => (0 <=? v) && (v <? 256)) K) rnd = true ->
  Forall (Bytes.is_bytes L) rnd.
Proof.
  intros Hall. rewrite List.forallb_forall in Hall.
  apply Forall_forall. intros K HK. apply list_elem_of_In in HK.
  apply Hall in HK. apply andb_prop in HK as [Hlen Hbytes].
  split; [apply Nat.eqb_eq; assumption|].
  rewrite List.forallb_forall in Hbytes.
  apply Forall_forall. intros v Hv. apply list_elem_of_In in Hv.
  apply Hbytes in Hv. apply andb_prop in Hv as [H0 H1].
  apply Z.leb_le in H0. apply Z.ltb_lt in H1. lia.
Qed.

Lemma sign_verify_roundtrip_witness :
  DomainLaws T19 19
  /\ Ecdsa_verify Sec19 (mulG T19 5) (Signature.mk 4 4) [9] = Ok true.
Proof.
  split; [exact small_laws|].
  apply (proj1 (sign_verify_roundtrip T19 19 small_laws)
           Toy.digest 5 [9] [[3]]).
  - vm_compute. split; reflexivity.
  - vm_compute. discriminate.
  - apply toy_entropy. vm_compute. reflexivity.
  - vm_compute. reflexivity.
Defined.

Lemma recover_complete_witness :
  DomainLaws T19 19
  /\ 19 <= (FiniteDomain.h T19 + 1) * FiniteDomain.n T19
  /\ (exists cands,
        Ecdsa_recover Sec19 (Signature.mk 4 4) [9] = Ok cands
        /\ mulG T19 5 ∈ cands)
  /\ mulG T19 5 ∈ ClassForm.recover_p3mod4 T19 (Signature.mk 4 4) [9] 1.
Proof.
  assert (Hc : 19 <= (FiniteDomain.h T19 + 1) * FiniteDomain.n T19)
    by (vm_compute; discriminate).
  split; [exact small_laws|]. split; [exact Hc|]. split.
  - apply (proj1 (recover_complete T19 19 small_laws Hc)
             Toy.digest 5 [9] [[3]]).
    + vm_compute. split; reflexivity.
    + vm_compute. discriminate.
    + apply toy_entropy. vm_compute. reflexivity.
    + vm_compute. reflexivity.
  - apply (proj2 (recover_complete T19 19 small_laws Hc) [9] 5 1%nat [[3]]).
    + vm_compute. split; reflexivity.
    + repeat constructor; lia.
    + vm_compute. reflexivity.
    + apply toy_entropy. vm_compute. reflexivity.
    + vm_compute. reflexivity.
Defined.

(** Without the bound on the cofactor the public point can be missed.  On
    the curve [y^2 = x^3 + 19] over the field of 31 elements (31 is 3
    modulo 4), with the generator [(6, 7)] of order 7 and the cofactor 3,
    the nonce 3 gives [R = (30, 24)] and [r = 30 mod 7 = 2]; the recoverer
    tries the x-coordinates 2, 9, 16 and 23 and never 30: it yields no
    candidate, while the signature verifies against the public point. *)
Lemma generic_recover_misses_public_point :
  DomainLaws T31 31
  /\ 31 mod 4 = 3
  /\ Ecdsa_sign Sec31 2 [5] [[3]] = Some (Ok (Signature.mk 2 3))
  /\ Ecdsa_verify Sec31 (mulG T31 2) (Signature.mk 2 3) [5] = Ok true
  /\ Ecdsa_recover Sec31 (Signature.mk 2 3) [5] = Ok []
  /\ ~ (exists cands,
          Ecdsa_recover Sec31 (Signature.mk 2 3) [5] = Ok cands
          /\ mulG T31 2 ∈ cands).
Proof.
  split; [exact cofactor3_laws|].
  split; [reflexivity|]. split; [vm_compute; reflexivity|].
  split; [vm_compute; reflexivity|]. split; [vm_compute; reflexivity|].
  intros (cands & Hrec & Hin).
  assert (Hnil : Ecdsa_recover Sec31 (Signature.mk 2 3) [5] = Ok [])
    by (vm_compute; reflexivity).
  rewrite Hnil in Hrec. injection Hrec as <-. inversion Hin.
Qed.

(** The class form hands the digest to [T.F.inverse] as it is, where the
    generic form reduces it modulo [n] first.  Over the small domain with
    the scalar field computed with [%], the hash [[26]] gives the digest
    [26 >= 17], [inverse(26) = (17 - 26) % 17 = -9], and the class form
    misses the public point [(8, 5)] that the generic form finds. *)
Example class_recover_misses_public_point :
  DomainLaws T19rem 19
  /\ 19 <= (FiniteDomain.h T19rem + 1) * FiniteDomain.n T19rem
  /\ ClassForm.sign T19rem [26] 5 1 [[3]] = Some (Ok (Signature.mk 4 4))
  /\ ClassForm.verify T19rem (mulG T19rem 5) (Signature.mk 4 4) [26] 1
     = Ok true
  /\ ClassForm.recover_p3mod4 T19rem (Signature.mk 4 4) [26] 1
     = [Toy.affine 4 5; Toy.affine 4 14]
  /\ mulG T19rem 5 = Toy.affine 8 5
  /\ Ecdsa_recover
       (EcdsaSec T19rem (fun H => Bytes.uint8ArrayToBigint_LE H (Some 1%nat)))
       (Signature.mk 4 4) [26]
     = Ok [Toy.affine 8 5; Toy.affine 3 10].
Proof.
  split; [exact small_rem_laws|].
  repeat (split; [vm_compute; first [reflexivity | discriminate]|]).
  vm_compute. reflexivity.
Qed.

(** The fast recoverer does not depend on the cofactor: on the same
    signature in its recoverable form it returns the public point. *)
Example cofactor3_fast_recover :
  Ecdsa_sign Fast31 2 [5] [[3]]
  = Some (Ok (RecoverableSignature.mk 2 3 8))
  /\ Ecdsa_recover Fast31 (RecoverableSignature.mk 2 3 8) [5]
     = Ok (mulG T31 2).
Proof. split; vm_compute; reflexivity. Qed.

Lemma fast_recover_public_point_witness :
  DomainLaws T19 19
  /\ Ecdsa_recover Fast19 (RecoverableSignature.mk 1 7 2) [9]
     = Ok (mulG T19 5).
Proof.
  split; [exact small_laws|].
  apply (fast_recover_public_point T19 19 small_laws Toy.digest 5 [9] [[15]]).
  - vm_compute. split; reflexivity.
  - vm_compute. discriminate.
  - apply toy_entropy. vm_compute. reflexivity.
  - vm_compute. reflexivity.
Defined.

(** The two candidates of that signature: the public point, from
    [R = (4, 5)], and the point from [-R]. *)
Example toy_recover :
  Ecdsa_recover Sec19 (Signature.mk 4 4) [9]
  = Ok [Toy.affine 8 5; Toy.affine 3 10].
Proof. vm_compute. reflexivity. Qed.

Lemma sign_components_in_range_witness :
  DomainLaws T19 19
  /\ exists sig,
       Ok (Signature.mk 4 4) = Ok sig
       /\ 0 < Signature.r sig < FiniteDomain.n T19
       /\ 0 < Signature.s sig < FiniteDomain.n T19.
Proof.
  split; [exact small_laws|].
  apply (proj1 (sign_components_in_range T19 19 small_laws)
           Toy.digest 5 [9] [[3]]).
  - vm_compute. discriminate.
  - vm_compute. discriminate.
  - apply toy_entropy. vm_compute. reflexivity.
  - vm_compute. reflexivity.
Defined.

Lemma low_s_normalization_witness :
  Ecdsa_sign Fast19 5 [9] [[15]]
  = Some (Ok (RecoverableSignature.mk 1 7 2))
  /\ RecoverableSignature.s (RecoverableSignature.mk 1 7 2)
     <= FiniteDomain.n T19 / 2
  /\ low_s (FiniteDomain.n T19) (7, 2) = (7, 2).
Proof.
  split; [vm_compute; reflexivity|].
  apply (proj1 (proj2 (low_s_normalization T19))
           Toy.digest 5 [9] [[15]] (RecoverableSignature.mk 1 7 2)).
  vm_compute. reflexivity.
Defined.

Lemma verify_decides_witness :
  0 < 4 < FiniteDomain.n T19
  /\ (verify T19 Toy.digest Q19 (Signature.mk 4 4) [9] = Ok true
      <-> 4 mod FiniteDomain.n T19 = 4).
Proof.
  split; [vm_compute; split; reflexivity|].
  apply (proj2 (proj1 (verify_decides T19) Signature.t _ Toy.digest
                  Q19 (Signature.mk 4 4) [9]
                  ltac:(vm_compute; split; reflexivity)
                  ltac:(vm_compute; split; reflexivity))
           4 ltac:(vm_compute; reflexivity) ltac:(vm_compute; reflexivity)).
  vm_compute. discriminate.
Defined.

Lemma verify_range_rejection_witness :
  verify T19 Toy.digest Q19 (Signature.mk 17 4) [9] = Ok false
  /\ verify T19 Toy.digest Q19 (Signature.mk (-13) 4) [9] = Ok false.
Proof.
  split.
  - apply (proj1 (proj1 (verify_range_rejection T19) Signature.t _
                    Toy.digest Q19 (Signature.mk 17 4) [9])).
    right. left. vm_compute. discriminate.
  - apply (proj2 (proj1 (verify_range_rejection T19) Signature.t _
                    Toy.digest Q19 (Signature.mk (-13) 4) [9])).
    + vm_compute. reflexivity.
    + vm_compute. reflexivity.
    + right. eexists. split; [vm_compute; reflexivity|].
      vm_compute. discriminate.
Defined.

(** A negative [s] passes the range guard of [verify], and what follows is
    the arithmetic's.  Over the small domain, whose scalar field reduces
    its arguments modulo [n], the signature [{r = 4, s = 4 - 17}] verifies
    as [{r = 4, s = 4}] does; over the same domain with the scalar field
    computed with [%] it is rejected. *)
Example verify_accepts_negative_s :
  DomainLaws T19 19
  /\ Signature.s (Signature.mk 4 (-13)) <= 0
  /\ verify T19 Toy.digest Q19 (Signature.mk 4 (-13)) [9] = Ok true.
Proof.
  split; [exact small_laws|]. split; [vm_compute; discriminate|].
  vm_compute. reflexivity.
Qed.

Example verify_rejects_negative_s_truncating :
  DomainLaws T19rem 19
  /\ verify T19rem Toy.digest (mulG T19rem 5) (Signature.mk 4 4) [9] = Ok true
  /\ verify T19rem Toy.digest (mulG T19rem 5) (Signature.mk 4 (-13)) [9]
     = Ok false.
Proof.
  split; [exact small_rem_laws|]. split; vm_compute; reflexivity.
Qed.

Lemma class_form_nonce_accepts_order_witness :
  0 < 17
  /\ ClassForm.nonce_loop (Bytes.bigintToUint8Array_LE 17 1)
       (Bytes.new_Uint8Array 1) [Bytes.bigintToUint8Array_LE 17 1; [3]]
     = Some (Bytes.bigintToUint8Array_LE 17 1, [[3]])
  /\ Bytes.uint8ArrayToBigint_LE (Bytes.bigintToUint8Array_LE 17 1)
       (Some 1%nat) = 17.
Proof.
  split; [lia|].
  apply (class_form_nonce_accepts_order 17 1 [[3]]).
  - lia.
  - vm_compute. lia.
Defined.

(** The generic form redraws on that draw; the class form, having accepted
    it, finds [n * G] without an x-coordinate and draws again. *)
Example generic_nonce_rejects_order :
  nonce_loop (Bytes.bigintToUint8Array_LE 17 1) (Bytes.new_Uint8Array 1)
    [[17]; [3]] = Some ([3], []).
Proof. vm_compute. reflexivity. Qed.

Example class_form_nonce_accepts_17 :
  ClassForm.nonce_loop (Bytes.bigintToUint8Array_LE 17 1)
    (Bytes.new_Uint8Array 1) [[17]; [3]] = Some ([17], [[3]]).
Proof. vm_compute. reflexivity. Qed.

Example class_form_sign_after_order :
  ClassForm.sign T19 [9] 5 1 [[17]; [3]] = Some (Ok (Signature.mk 4 4)).
Proof. vm_compute. reflexivity. Qed.

End Examples.

(** * Further properties of the code *)

(** ** More on the byte helpers *)

Section BytesMore.

Import Bytes.

Lemma le_bytes_le_val (a : list Z) :
  Forall (fun v => 0 <= v < 256) a -> le_bytes (length a) (le_val a) = a.
Proof.
  induction 1 as [|v a Hv _ IH]; [reflexivity|].
  simpl length. simpl le_val. simpl le_bytes.
  change 255 with (Z.ones 8). rewrite Z.land_ones by lia.
  rewrite Z.shiftr_div_pow2 by lia. change (2 ^ 8) with 256.
  rewrite (Z.mul_comm 256), Z.mod_add, Z.div_add by lia.
  rewrite Z.mod_small, Z.div_small, Z.add_0_l, IH by lia. reflexivity.
Qed.

Lemma le_val_inj (L : nat) (a c : list Z) :
  is_bytes L a -> is_bytes L c -> le_val a = le_val c -> a = c.
Proof.
  intros [Hla Ha] [Hlc Hc] Heq.
  rewrite <- (le_bytes_le_val a Ha), <- (le_bytes_le_val c Hc).
  rewrite Hla, Hlc, Heq. reflexivity.
Qed.

Lemma compare_loop_refl (m : nat) (a : list Z) : compare_loop m a a = 0.
Proof.
  induction m as [|i IH]; [reflexivity|]. simpl.
  destruct (a !! i) as [v|]; simpl; [|exact IH].
  rewrite Z.gtb_ltb, Z.ltb_irrefl. exact IH.
Qed.

Lemma compare_loop_ext (m : nat) (a a' c c' : list Z) :
  (forall i, (i < m)%nat -> a !! i = a' !! i) ->
  (forall i, (i < m)%nat -> c !! i = c' !! i) ->
  compare_loop m a c = compare_loop m a' c'.
Proof.
  induction m as [|i IH]; intros Ha Hc; [reflexivity|]. simpl.
  rewrite <- (Ha i), <- (Hc i) by lia.
  rewrite IH by (intros; (apply Ha || apply Hc); lia). reflexivity.
Qed.

Lemma compare_loop_beyond (m : nat) (a c : list Z) :
  (length c <= m)%nat ->
  compare_loop m a c = compare_loop (length c) a c.
Proof.
  induction m as [|i IH]; intros Hm.
  - replace (length c) with 0%nat by lia. reflexivity.
  - destruct (decide (length c = S i)) as [->|Hne]; [reflexivity|].
    simpl. rewrite (lookup_ge_None_2 c i) by lia.
    destruct (a !! i); simpl; apply IH; lia.
Qed.

Lemma byteLength_loop_lower (fuel : nat) :
  forall (n : Z) (i : nat),
    0 < n -> Z.log2 n < Z.of_nat fuel ->
    (i < byteLength_loop fuel n i)%nat
    /\ 256 ^ Z.of_nat (byteLength_loop fuel n i - S i) <= n.
Proof.
  induction fuel as [|fuel IH]; intros n i Hn Hfuel.
  - pose proof (Z.log2_nonneg n). lia.
  - simpl. destruct (Z.gtb_spec n 0) as [_|]; [|lia].
    destruct (Z.eq_dec (Z.shiftr n 8) 0) as [H0|Hne].
    + rewrite H0. replace (byteLength_loop fuel 0 (S i)) with (S i)
        by (destruct fuel; reflexivity).
      rewrite Nat.sub_diag. simpl. lia.
    + assert (Hs : 0 < Z.shiftr n 8)
        by (pose proof (proj2 (Z.shiftr_nonneg n 8) ltac:(lia)); lia).
      assert (8 <= Z.log2 n).
      { destruct (Z.lt_ge_cases (Z.log2 n) 8) as [Hlt|]; [|assumption].
        rewrite Z.shiftr_eq_0 in Hne by lia. congruence. }
      destruct (IH (Z.shiftr n 8) (S i) Hs) as [Hi Hle].
      { rewrite Z.log2_shiftr by lia. lia. }
      split; [lia|].
      set (L := byteLength_loop fuel (Z.shiftr n 8) (S i)) in *.
      replace (Z.of_nat (L - S i)) with (Z.succ (Z.of_nat (L - S (S i))))
        by lia.
      rewrite Z.pow_succ_r by lia.
      rewrite Z.shiftr_div_pow2 in Hle by lia. change (2 ^ 8) with 256 in Hle.
      pose proof (Z.div_mod n 256 ltac:(lia)).
      pose proof (Z.mod_pos_bound n 256 ltac:(lia)). lia.
Qed.

End BytesMore.

(** X1. On two byte arrays of one length [compare] orders the little-endian
    values: it returns [-1] exactly when the value of the first is below
    that of the second, [1] exactly when it is above, and [0] exactly when
    the two arrays are equal. *)
Theorem compare_orders_values (L : nat) (a c : list Z) :
  Bytes.is_bytes L a -> Bytes.is_bytes L c ->
  (Bytes.compare a c = -1
   <-> Bytes.uint8ArrayToBigint_LE a None < Bytes.uint8ArrayToBigint_LE c None)
  /\ (Bytes.compare a c = 0 <-> a = c)
  /\ (Bytes.compare a c = 1
      <-> Bytes.uint8ArrayToBigint_LE c None < Bytes.uint8ArrayToBigint_LE a None).
Proof.
  intros Ha Hc. rewrite (compare_le_val L a c Ha Hc).
  rewrite !uint8ArrayToBigint_LE_le_val. simpl default.
  rewrite !firstn_all.
  destruct (Z.compare_spec (Bytes.le_val a) (Bytes.le_val c)) as [Heq|Hlt|Hgt].
  - apply (le_val_inj L a c Ha Hc) in Heq. subst c.
    repeat split; intros; try (discriminate || reflexivity || lia).
  - repeat split; intros; try (discriminate || reflexivity || lia).
    subst c. lia.
  - repeat split; intros; try (discriminate || reflexivity || lia).
    subst c. lia.
Qed.

(** X2. [compare] looks only at the indices the two arrays share: the bytes
    of the longer array beyond the length of the shorter one are ignored.
    So an array and any extension of it compare as equal ([0]), whichever of
    the two comes first. *)
Theorem compare_ignores_excess_bytes (a c x : list Z) :
  Bytes.compare a c
  = Bytes.compare (take (length c) a) (take (length a) c)
  /\ Bytes.compare a (a ++ x) = 0
  /\ Bytes.compare (a ++ x) a = 0.
Proof.
  assert (Hgen : forall a c : list Z,
             Bytes.compare a c
             = Bytes.compare (take (length c) a) (take (length a) c)).
  { clear. intros a c. unfold Bytes.compare. rewrite length_take.
    destruct (Nat.le_ge_cases (length a) (length c)) as [Hle|Hge].
    - rewrite Nat.min_r by lia. apply compare_loop_ext; intros i Hi.
      + rewrite take_ge by lia. reflexivity.
      + rewrite lookup_take_lt by lia. reflexivity.
    - rewrite Nat.min_l by lia. rewrite compare_loop_beyond by lia.
      apply compare_loop_ext; intros i Hi.
      + rewrite lookup_take_lt by lia. reflexivity.
      + rewrite take_ge by lia. reflexivity. }
  split; [apply Hgen|]. split.
  - rewrite Hgen. rewrite take_app_length, length_app, take_ge by lia.
    apply compare_loop_refl.
  - rewrite Hgen. rewrite take_app_length, length_app, take_ge by lia.
    apply compare_loop_refl.
Qed.

(** X3. [bigintToUint8Array_LE(b, B)] always returns [B] bytes.  For
    [b >= 0] they are the [B] low bytes of [b], the higher ones being
    dropped: decoding the array gives [b mod 2^(8 B)].  For [b <= 0] the
    array is all zeros. *)
Theorem bigintToUint8Array_LE_truncates (b : Z) (B : nat) :
  length (Bytes.bigintToUint8Array_LE b B) = B
  /\ (0 <= b ->
      Bytes.uint8ArrayToBigint_LE (Bytes.bigintToUint8Array_LE b B) None
      = b mod 2 ^ (8 * Z.of_nat B))
  /\ (b <= 0 -> Bytes.bigintToUint8Array_LE b B = Bytes.new_Uint8Array B).
Proof.
  split; [|split].
  - unfold Bytes.bigintToUint8Array_LE.
    rewrite length_bigintToUint8Array_LE_loop. apply length_replicate.
  - intros Hb.
    rewrite uint8ArrayToBigint_LE_le_val, bigintToUint8Array_LE_le_bytes by lia.
    simpl default. rewrite firstn_all, le_val_le_bytes.
    change 256 with (2 ^ 8). rewrite <- Z.pow_mul_r by lia. reflexivity.
  - intros Hb. unfold Bytes.bigintToUint8Array_LE. simpl.
    destruct (Z.gtb_spec b 0); [lia|reflexivity].
Qed.

(** X4. Decoding a byte array of length [L] as a little-endian integer and
    encoding that integer on [L] bytes gives the array back. *)
Theorem le_decode_encode (L : nat) (a : list Z) :
  Bytes.is_bytes L a ->
  Bytes.bigintToUint8Array_LE (Bytes.uint8ArrayToBigint_LE a None) L = a.
Proof.
  intros [Hlen Ha]. rewrite uint8ArrayToBigint_LE_le_val. simpl default.
  rewrite firstn_all.
  rewrite bigintToUint8Array_LE_le_bytes by apply (le_val_bound a Ha).
  rewrite <- Hlen. apply le_bytes_le_val. assumption.
Qed.

(** ** The big-endian helpers *)

Section BigEndian.

Import Bytes.

(** The big-endian decoding loop appends the next [count] bytes, most
    significant first. *)
Lemma uint8ArrayToBigint_BE_loop_le_val (count : nat) :
  forall (i : nat) (a : list Z) (b : Z),
    (i + count <= length a)%nat ->
    uint8ArrayToBigint_BE_loop count i a b
    = b * 256 ^ Z.of_nat count + le_val (reverse (take count (drop i a))).
Proof.
  induction count as [|count IH]; intros i a b Hlen.
  - simpl. lia.
  - destruct (lookup_lt_is_Some_2 a i ltac:(lia)) as [u Hu].
    simpl uint8ArrayToBigint_BE_loop. rewrite IH by lia.
    rewrite (drop_S a u i Hu). simpl take. rewrite reverse_cons, le_val_app.
    rewrite length_reverse, length_take, length_drop, Nat.min_l by lia.
    rewrite (list_lookup_total_correct a i u Hu).
    rewrite Z.shiftl_mul_pow2 by lia. change (2 ^ 8) with 256.
    rewrite Nat2Z.inj_succ, Z.pow_succ_r by lia. simpl le_val. ring.
Qed.

Lemma uint8ArrayToBigint_BE_le_val (a : list Z) (B : option nat) :
  uint8ArrayToBigint_BE a B
  = le_val (reverse (take (default (length a) B) a)).
Proof.
  unfold uint8ArrayToBigint_BE.
  rewrite uint8ArrayToBigint_BE_loop_le_val by (simpl; lia).
  rewrite drop_0, Z.mul_0_l, Z.add_0_l. do 2 f_equal.
  destruct (Nat.le_ge_cases (length a) (default (length a) B)).
  - rewrite Nat.min_l, !take_ge by lia. reflexivity.
  - rewrite Nat.min_r by lia. reflexivity.
Qed.

(** The encoding loop stores the bytes of [b] from index [i] downwards. *)
Lemma bigintToUint8Array_BE_loop_lookup (fuel : nat) :
  forall (b i : Z) (a : list Z) (m : nat),
    0 <= b -> b = 0 \/ Z.log2 b < Z.of_nat fuel ->
    -1 <= i < Z.of_nat (length a) -> b < 256 ^ (i + 1) ->
    (forall m', Z.of_nat m' <= i -> a !! m' = Some 0) ->
    (m < length a)%nat ->
    bigintToUint8Array_BE_loop fuel b i a !! m
    = if decide (Z.of_nat m <= i)
      then Some (Z.land (Z.shiftr b (8 * (i - Z.of_nat m))) 255)
      else a !! m.
Proof.
  induction fuel as [|fuel IH]; intros b i a m Hb Hfuel Hi Hlt Hzero Hm.
  - assert (b = 0) by (pose proof (Z.log2_nonneg b); lia). subst b.
    simpl. destruct (decide (Z.of_nat m <= i)); [|reflexivity].
    rewrite Z.shiftr_0_l. simpl. apply Hzero; lia.
  - simpl. destruct (Z.gtb_spec b 0) as [Hpos|Hnpos].
    + assert (Hi0 : 0 <= i).
      { destruct (Z.eq_dec i (-1)) as [->|]; [simpl in Hlt; lia|lia]. }
      unfold store. destruct (Z.leb_spec 0 i) as [_|]; [|lia].
      rewrite IH.
      * destruct (decide (Z.of_nat m <= i - 1)), (decide (Z.of_nat m <= i));
          try lia.
        -- rewrite Z.shiftr_shiftr by lia. do 3 f_equal. lia.
        -- assert (m = Z.to_nat i) by lia. subst m.
           rewrite list_lookup_insert_eq by lia.
           replace (i - Z.of_nat (Z.to_nat i)) with 0 by lia.
           rewrite Z.shiftr_0_r. reflexivity.
        -- rewrite list_lookup_insert_ne by lia. reflexivity.
      * apply Z.shiftr_nonneg. lia.
      * destruct (Z.eq_dec (Z.shiftr b 8) 0) as [|Hne]; [left; assumption|].
        right. rewrite Z.log2_shiftr by lia.
        assert (0 < Z.shiftr b 8)
          by (pose proof (proj2 (Z.shiftr_nonneg b 8) ltac:(lia)); lia).
        assert (8 <= Z.log2 b).
        { destruct (Z.lt_ge_cases (Z.log2 b) 8) as [Hlt'|]; [|assumption].
          rewrite Z.shiftr_eq_0 in Hne by lia. congruence. }
        lia.
      * rewrite length_insert. lia.
      * rewrite Z.shiftr_div_pow2 by lia. change (2 ^ 8) with 256.
        apply Z.div_lt_upper_bound; [lia|].
        replace (i - 1 + 1) with i by lia.
        replace (i + 1) with (Z.succ i) in Hlt by lia.
        rewrite Z.pow_succ_r in Hlt by lia. exact Hlt.
      * intros m' Hm'. rewrite list_lookup_insert_ne by lia.
        apply Hzero; lia.
      * rewrite length_insert. assumption.
    + assert (b = 0) by lia. subst b.
      destruct (decide (Z.of_nat m <= i)); [|reflexivity].
      rewrite Z.shiftr_0_l. simpl. apply Hzero; lia.
Qed.

Lemma length_bigintToUint8Array_BE_loop (fuel : nat) :
  forall (b i : Z) (a : list Z),
    length (bigintToUint8Array_BE_loop fuel b i a) = length a.
Proof.
  induction fuel as [|fuel IH]; intros b i a; simpl; [reflexivity|].
  destruct (b >? 0); [|reflexivity]. rewrite IH. unfold store.
  destruct (0 <=? i); [apply length_insert|reflexivity].
Qed.

Lemma length_bigintToUint8Array_BE (b : Z) (B : nat) :
  length (bigintToUint8Array_BE b B) = B.
Proof.
  unfold bigintToUint8Array_BE.
  rewrite length_bigintToUint8Array_BE_loop. apply length_replicate.
Qed.

(** [bigintToUint8Array_BE]: the [m] most significant of the [L] bytes of
    [b], [m] the smaller of [L] and [B], most significant first, and zeros
    after them. *)
Lemma bigintToUint8Array_BE_bytes (b : Z) (B : nat) :
  0 <= b ->
  let L := byteLength b in
  let m := Nat.min L B in
  bigintToUint8Array_BE b B
  = reverse (le_bytes m (Z.shiftr b (8 * Z.of_nat (L - m))))
    ++ replicate (B - m) 0.
Proof.
  intros Hb L m.
  pose proof (byteLength_bound b Hb) as HbL. fold L in HbL.
  set (b' := Z.shiftr b (8 * Z.of_nat (L - m))).
  assert (Hb' : 0 <= b') by (apply Z.shiftr_nonneg; assumption).
  assert (Hb'm : b' < 256 ^ Z.of_nat m).
  { unfold b'. rewrite Z.shiftr_div_pow2 by lia.
    apply Z.div_lt_upper_bound; [apply Z.pow_pos_nonneg; lia|].
    replace (2 ^ (8 * Z.of_nat (L - m))) with (256 ^ Z.of_nat (L - m))
      by (change 256 with (2 ^ 8); rewrite <- Z.pow_mul_r by lia;
          reflexivity).
    rewrite <- Z.pow_add_r by lia.
    replace (Z.of_nat (L - m) + Z.of_nat m) with (Z.of_nat L) by lia.
    exact HbL. }
  assert (Hunf : bigintToUint8Array_BE b B
                 = bigintToUint8Array_BE_loop (S (Z.to_nat (Z.log2 b'))) b'
                     (Z.of_nat m - 1) (new_Uint8Array B)).
  { unfold bigintToUint8Array_BE. fold L.
    assert (Hsh : Z.shiftl (if Z.of_nat L >? Z.of_nat B - 1
                            then Z.of_nat L - Z.of_nat B else 0) 3
                  = 8 * Z.of_nat (L - m)).
    { rewrite Z.shiftl_mul_pow2 by lia. change (2 ^ 3) with 8.
      destruct (Z.gtb_spec (Z.of_nat L) (Z.of_nat B - 1)); lia. }
    rewrite Hsh. fold b'.
    replace (Z.min (Z.of_nat B - 1) (Z.of_nat L - 1)) with (Z.of_nat m - 1)
      by lia.
    reflexivity. }
  rewrite Hunf. apply list_eq. intros j.
  destruct (decide (j < B)%nat) as [Hj|Hj].
  - rewrite bigintToUint8Array_BE_loop_lookup.
    + destruct (decide (Z.of_nat j <= Z.of_nat m - 1)) as [Hjm|Hjm].
      * rewrite lookup_app_l by (rewrite length_reverse, length_le_bytes; lia).
        rewrite reverse_lookup by (rewrite length_le_bytes; lia).
        rewrite length_le_bytes, le_bytes_lookup by lia.
        do 3 f_equal. lia.
      * rewrite lookup_app_r by (rewrite length_reverse, length_le_bytes; lia).
        rewrite length_reverse, length_le_bytes.
        unfold new_Uint8Array.
        rewrite !lookup_replicate_2 by lia. reflexivity.
    + assumption.
    + right. lia.
    + unfold new_Uint8Array. rewrite length_replicate. lia.
    + replace (Z.of_nat m - 1 + 1) with (Z.of_nat m) by lia. exact Hb'm.
    + intros m' Hm'. unfold new_Uint8Array. apply lookup_replicate_2. lia.
    + unfold new_Uint8Array. rewrite length_replicate. assumption.
  - rewrite !lookup_ge_None_2; [reflexivity| |].
    + rewrite length_app, length_reverse, length_le_bytes, length_replicate.
      lia.
    + rewrite length_bigintToUint8Array_BE_loop. unfold new_Uint8Array.
      rewrite length_replicate. lia.
Qed.

End BigEndian.

(** X5. For [b >= 0] whose byte length [L] is at most [B],
    [bigintToUint8Array_BE(b, B)] has [B] bytes, the first [L] of which are
    [b] in big-endian order and the others zero: decoding the first [L]
    bytes gives [b], and decoding all [B] bytes gives [b * 256^(B - L)]. *)
Theorem bigintToUint8Array_BE_left_aligned (b : Z) (B : nat) :
  0 <= b -> (Bytes.byteLength b <= B)%nat ->
  length (bigintToUint8Array_BE b B) = B
  /\ uint8ArrayToBigint_BE (bigintToUint8Array_BE b B)
       (Some (Bytes.byteLength b)) = b
  /\ uint8ArrayToBigint_BE (bigintToUint8Array_BE b B) None
     = b * 256 ^ Z.of_nat (B - Bytes.byteLength b).
Proof.
  intros Hb HL. split; [apply length_bigintToUint8Array_BE|].
  pose proof (byteLength_bound b Hb) as HbL.
  rewrite !uint8ArrayToBigint_BE_le_val, length_bigintToUint8Array_BE.
  rewrite (bigintToUint8Array_BE_bytes b B Hb). cbv zeta.
  rewrite Nat.min_l, Nat.sub_diag by assumption.
  change (8 * Z.of_nat 0) with 0. rewrite Z.shiftr_0_r. simpl default.
  assert (Hlen : length (reverse (Bytes.le_bytes (Bytes.byteLength b) b))
                 = Bytes.byteLength b)
    by (rewrite length_reverse; apply length_le_bytes).
  split.
  - rewrite take_app_le, take_ge by lia.
    rewrite reverse_involutive, le_val_le_bytes.
    apply Z.mod_small. lia.
  - rewrite take_ge
      by (rewrite length_app, length_replicate; lia).
    rewrite reverse_app, reverse_involutive, reverse_replicate, le_val_app.
    rewrite le_val_replicate_0, length_replicate, le_val_le_bytes.
    rewrite Z.mod_small by lia. ring.
Qed.

(** X6. For [b >= 0] whose byte length [L] is at least [B],
    [bigintToUint8Array_BE(b, B)] holds the [B] most significant bytes of
    [b]: decoding it as a big-endian integer gives [b >> 8 (L - B)]. *)
Theorem bigintToUint8Array_BE_most_significant (b : Z) (B : nat) :
  0 <= b -> (B <= Bytes.byteLength b)%nat ->
  uint8ArrayToBigint_BE (bigintToUint8Array_BE b B) None
  = Z.shiftr b (8 * Z.of_nat (Bytes.byteLength b - B)).
Proof.
  intros Hb HL.
  pose proof (byteLength_bound b Hb) as HbL.
  rewrite uint8ArrayToBigint_BE_le_val, length_bigintToUint8Array_BE.
  rewrite (bigintToUint8Array_BE_bytes b B Hb). cbv zeta.
  rewrite Nat.min_r, Nat.sub_diag by assumption. simpl default.
  rewrite app_nil_r.
  rewrite take_ge by (rewrite length_reverse, length_le_bytes; lia).
  rewrite reverse_involutive, le_val_le_bytes.
  apply Z.mod_small. split; [apply Z.shiftr_nonneg; assumption|].
  rewrite Z.shiftr_div_pow2 by lia.
  apply Z.div_lt_upper_bound; [apply Z.pow_pos_nonneg; lia|].
  replace (2 ^ (8 * Z.of_nat (Bytes.byteLength b - B)))
    with (256 ^ Z.of_nat (Bytes.byteLength b - B))
    by (change 256 with (2 ^ 8); rewrite <- Z.pow_mul_r by lia; reflexivity).
  rewrite <- Z.pow_add_r by lia.
  replace (Z.of_nat (Bytes.byteLength b - B) + Z.of_nat B)
    with (Z.of_nat (Bytes.byteLength b)) by lia.
  exact HbL.
Qed.

(** X7. The big-endian value of the first [B] bytes of an array (of all of
    them when [B] is undefined) is the little-endian value of these bytes in
    reverse order. *)
Theorem uint8ArrayToBigint_BE_reverse (a : list Z) (B : option nat) :
  uint8ArrayToBigint_BE a B
  = Bytes.uint8ArrayToBigint_LE
      (reverse (take (default (length a) B) a)) None.
Proof.
  rewrite uint8ArrayToBigint_BE_le_val, uint8ArrayToBigint_LE_le_val.
  simpl default. rewrite firstn_all. reflexivity.
Qed.

(** X8. The digest integer of the exported instances, the big-endian value
    of the hash, is not negative and lies below [256^len] for a hash of
    [len] bytes. *)
Theorem digest_BE_range (keccak256 : list Z -> list Z) (M : list Z) :
  Forall (fun v => 0 <= v < 256) (keccak256 M) ->
  0 <= _23dee7_ keccak256 M < 256 ^ Z.of_nat (length (keccak256 M)).
Proof.
  intros Hk. unfold _23dee7_. rewrite uint8ArrayToBigint_BE_le_val.
  simpl default. rewrite firstn_all.
  rewrite <- (length_reverse (keccak256 M)). apply le_val_bound.
  apply Forall_reverse. assumption.
Qed.

(** ** The signing loop *)

(** X9. The byte length [L] the signer computes for an order [n > 0] is the
    number of bytes of [n]: [L >= 1] and [256^(L - 1) <= n < 256^L]. *)
Theorem byteLength_spec (n : Z) :
  0 < n ->
  (1 <= Bytes.byteLength n)%nat
  /\ 256 ^ (Z.of_nat (Bytes.byteLength n) - 1) <= n
     < 256 ^ Z.of_nat (Bytes.byteLength n).
Proof.
  intros Hn.
  destruct (byteLength_loop_lower (S (Z.to_nat (Z.log2 n))) n 0 Hn) as [H1 H2];
    [lia|].
  fold (Bytes.byteLength n) in H1, H2.
  split; [lia|]. split.
  - replace (Z.of_nat (Bytes.byteLength n) - 1)
      with (Z.of_nat (Bytes.byteLength n - 1)) by lia. exact H2.
  - apply byteLength_bound. lia.
Qed.

Section SignerFacts.

Context (T : FiniteDomain.t).

Local Abbreviation E := (FiniteDomain.E T).
Local Abbreviation F := (FiniteDomain.F T).
Local Abbreviation G := (FiniteDomain.G T).
Local Abbreviation n := (FiniteDomain.n T).
Local Abbreviation L := (Bytes.byteLength (FiniteDomain.n T)).
Local Abbreviation N :=
  (Bytes.bigintToUint8Array_LE (FiniteDomain.n T)
     (Bytes.byteLength (FiniteDomain.n T))).
Local Abbreviation zero :=
  (Bytes.new_Uint8Array (Bytes.byteLength (FiniteDomain.n T))).

Lemma compare_nil_r (K : list Z) : Bytes.compare K [] = 0.
Proof.
  unfold Bytes.compare. rewrite compare_loop_beyond by (simpl; lia).
  reflexivity.
Qed.

Lemma bigintToUint8Array_LE_nonpos (m : Z) :
  m <= 0 -> Bytes.bigintToUint8Array_LE m (Bytes.byteLength m) = [].
Proof.
  intros Hm. rewrite byteLength_nonpos by lia.
  unfold Bytes.bigintToUint8Array_LE. simpl.
  destruct (Z.gtb_spec m 0); [lia|reflexivity].
Qed.

Lemma redraws_nonpos (_ef_ : list Z -> Z) (d : Z) (M K : list Z) :
  n <= 0 -> redraws T _ef_ d M K = true.
Proof.
  intros Hn. unfold redraws.
  rewrite bigintToUint8Array_LE_nonpos, compare_nil_r by assumption.
  reflexivity.
Qed.

Lemma sign_loop_S {S : Type} (_7f_ : shape S) (d : Z) (M : list Z) (e : Z)
  (nByteLength : nat) (N0 zero0 : list Z) (fuel : nat) (rnd : entropy) :
  sign_loop T _7f_ d M e nByteLength N0 zero0 (Datatypes.S fuel) rnd
  = match nonce_loop N0 zero0 rnd with
    | None => None
    | Some (K, rnd') =>
        let k := Bytes.uint8ArrayToBigint_LE K (Some nByteLength) in
        let R := FiniteCurve.multiply E k G in
        match FinitePoint.x R with
        | None => sign_loop T _7f_ d M e nByteLength N0 zero0 fuel rnd'
        | Some X =>
            match js_rem X n with
            | Throw => Some Throw
            | Ok r =>
                if r =? 0
                then sign_loop T _7f_ d M e nByteLength N0 zero0 fuel rnd'
                else
                  let _77_ := FiniteField.multiply F r d in
                  let _68_ := FiniteField.add F e _77_ in
                  let s := FiniteField.divide F _68_ k in
                  if s =? 0
                  then sign_loop T _7f_ d M e nByteLength N0 zero0 fuel rnd'
                  else Some (_7f_ T d M e r s R)
            end
        end
    end.
Proof. reflexivity. Qed.

(** A draw that is passed over costs the loop one draw and nothing else. *)
Lemma sign_loop_redraws {S : Type} (_ef_ : list Z -> Z) (_7f_ : shape S)
  (d : Z) (M K : list Z) (fuel : nat) (rnd : entropy) :
  redraws T _ef_ d M K = true -> (length rnd <= fuel)%nat ->
  sign_loop T _7f_ d M (_ef_ M) L N zero (Datatypes.S fuel) (K :: rnd)
  = sign_loop T _7f_ d M (_ef_ M) L N zero fuel rnd.
Proof.
  intros Hre Hlen. rewrite sign_loop_S. unfold redraws in Hre.
  cbn [nonce_loop].
  destruct ((Bytes.compare K N >=? 0) || (Bytes.compare K zero =? 0))
    eqn:Hnonce.
  - rewrite <- sign_loop_S. apply sign_loop_fuel. assumption.
  - simpl orb in Hre. cbv zeta in Hre |- *.
    assert (Hn : n <> 0).
    { intros Hn0. apply orb_false_elim in Hnonce as [Hc _].
      rewrite bigintToUint8Array_LE_nonpos, compare_nil_r in Hc by lia.
      discriminate. }
    destruct (FinitePoint.x _) as [X|]; [|reflexivity].
    unfold js_rem. destruct (Z.eqb_spec n 0) as [|_]; [contradiction|].
    destruct (Z.rem X n =? 0); [reflexivity|].
    simpl orb in Hre. rewrite Hre. reflexivity.
Qed.

Lemma _6dcb8a__redraws {S : Type} (_ef_ : list Z -> Z) (_7f_ : shape S)
  (d : Z) (M K : list Z) (rnd : entropy) :
  redraws T _ef_ d M K = true ->
  _6dcb8a_ T _ef_ _7f_ d M (K :: rnd) = _6dcb8a_ T _ef_ _7f_ d M rnd.
Proof.
  intros Hre. unfold _6dcb8a_. simpl length.
  apply sign_loop_redraws; [assumption|lia].
Qed.

End SignerFacts.

(** The nonce loop *)
Lemma nonce_compare_range (m : Z) (K : list Z) :
  Bytes.is_bytes (Bytes.byteLength m) K ->
  let k := Bytes.uint8ArrayToBigint_LE K (Some (Bytes.byteLength m)) in
  0 <= k
  /\ ((Bytes.compare K (Bytes.bigintToUint8Array_LE m (Bytes.byteLength m))
       >=? 0)
      || (Bytes.compare K (Bytes.new_Uint8Array (Bytes.byteLength m)) =? 0)
      = negb ((1 <=? k) && (k <? m))).
Proof.
  intros HKb k.
  assert (Hk : k = Bytes.le_val K).
  { unfold k. rewrite uint8ArrayToBigint_LE_le_val. simpl default.
    destruct HKb as [HlenK _]. rewrite take_ge by lia. reflexivity. }
  pose proof (le_val_bound K (proj2 HKb)) as HbK. rewrite <- Hk in HbK.
  split; [lia|].
  destruct (Z.le_gt_cases m 0) as [Hm|Hm].
  - rewrite bigintToUint8Array_LE_nonpos, compare_nil_r by assumption.
    simpl. symmetry. apply negb_true_iff, andb_false_iff.
    right. apply Z.ltb_ge. lia.
  - rewrite bigintToUint8Array_LE_le_bytes by lia.
    rewrite (compare_le_val (Bytes.byteLength m) K (Bytes.le_bytes _ m))
      by auto using le_bytes_bytes.
    rewrite (compare_le_val (Bytes.byteLength m) K (Bytes.new_Uint8Array _)).
    2:{ assumption. }
    2:{ split; [apply length_replicate|]. apply Forall_replicate. lia. }
    rewrite le_val_le_bytes. unfold Bytes.new_Uint8Array.
    rewrite le_val_replicate_0, <- Hk.
    rewrite Z.mod_small by (split; [lia|apply byteLength_bound; lia]).
    destruct (Z.compare_spec k m); destruct (Z.compare_spec k 0);
      destruct (Z.leb_spec 1 k); destruct (Z.ltb_spec k m);
      try lia; reflexivity.
Qed.

(** X10. The nonce loop of the generic signer returns the first draw whose
    little-endian value lies in [[1, n)]: each draw before it has the value
    [0] or a value of at least [n], and the loop uses up the draws without
    accepting one only when all of them are such. *)
Theorem nonce_loop_first_in_range (m : Z) (rnd : entropy) :
  Forall (Bytes.is_bytes (Bytes.byteLength m)) rnd ->
  let value K := Bytes.uint8ArrayToBigint_LE K (Some (Bytes.byteLength m)) in
  match nonce_loop (Bytes.bigintToUint8Array_LE m (Bytes.byteLength m))
          (Bytes.new_Uint8Array (Bytes.byteLength m)) rnd with
  | Some (K, rnd') =>
      exists skipped,
        rnd = skipped ++ K :: rnd'
        /\ Forall (fun K' => value K' = 0 \/ m <= value K') skipped
        /\ 1 <= value K < m
  | None => Forall (fun K' => value K' = 0 \/ m <= value K') rnd
  end.
Proof.
  intros Hrnd value.
  induction Hrnd as [|K0 rnd HK0 _ IH]; [constructor|].
  cbn [nonce_loop].
  destruct (nonce_compare_range m K0 HK0) as [Hk0 ->]. fold (value K0) in *.
  destruct (Z.leb_spec 1 (value K0)) as [H1|H1];
    [destruct (Z.ltb_spec (value K0) m) as [H2|H2]|]; simpl.
  - exists []. split; [reflexivity|]. split; [constructor|lia].
  - destruct (nonce_loop _ _ rnd) as [[K rnd']|].
    + destruct IH as (skipped & -> & Hsk & HK).
      exists (K0 :: skipped). split; [reflexivity|].
      split; [constructor; [lia|assumption]|assumption].
    + constructor; [lia|assumption].
  - destruct (nonce_loop _ _ rnd) as [[K rnd']|].
    + destruct IH as (skipped & -> & Hsk & HK).
      exists (K0 :: skipped). split; [reflexivity|].
      split; [constructor; [lia|assumption]|assumption].
    + constructor; [lia|assumption].
Qed.

(** X11. The signer returns the signature of the first draw that is not
    passed over.  The draws before it, which fail the nonce test or give no
    x-coordinate, [r = 0] or [s = 0], are skipped; the draws after it are
    not looked at; and the signature is the shape applied to
    [r = R.x % n], [s = (e + r * d) / k] and [R = k * G] for the nonce [k]
    of the accepted draw. *)
Theorem sign_first_accepted_draw {S : Type} (T : FiniteDomain.t)
  (_ef_ : list Z -> Z) (_7f_ : shape S) (d : Z) (M : list Z)
  (pre : entropy) (K : list Z) (post : entropy) (X : Z) :
  let k := Bytes.uint8ArrayToBigint_LE K
             (Some (Bytes.byteLength (FiniteDomain.n T))) in
  let r := Z.rem X (FiniteDomain.n T) in
  let s := FiniteField.divide (FiniteDomain.F T)
             (FiniteField.add (FiniteDomain.F T) (_ef_ M)
                (FiniteField.multiply (FiniteDomain.F T) r d)) k in
  Forall (fun K' => redraws T _ef_ d M K' = true) pre ->
  redraws T _ef_ d M K = false ->
  FinitePoint.x (mulG T k) = Some X ->
  _6dcb8a_ T _ef_ _7f_ d M (pre ++ K :: post)
  = Some (_7f_ T d M (_ef_ M) r s (mulG T k)).
Proof.
  intros k r s Hpre HK HX.
  induction Hpre as [|K' pre HK' _ IH].
  - simpl app. unfold redraws in HK. fold k in HK. rewrite HX in HK.
    cbv zeta in HK. fold r s in HK.
    apply orb_false_elim in HK as [HK Hrs].
    apply orb_false_elim in HK as [HN Hz].
    apply orb_false_elim in Hrs as [Hr Hs].
    assert (Hn : FiniteDomain.n T <> 0).
    { intros Hn0.
      rewrite bigintToUint8Array_LE_nonpos, compare_nil_r in HN by lia.
      discriminate. }
    apply (sign_returns T _ef_ _7f_ d M K post X).
    + destruct (Z.geb_spec
                  (Bytes.compare K
                     (Bytes.bigintToUint8Array_LE (FiniteDomain.n T)
                        (Bytes.byteLength (FiniteDomain.n T)))) 0);
        [discriminate|lia].
    + apply Z.eqb_neq. exact Hz.
    + exact HX.
    + exact Hn.
    + apply Z.eqb_neq. exact Hr.
    + apply Z.eqb_neq. exact Hs.
  - simpl app. rewrite _6dcb8a__redraws by assumption. exact IH.
Qed.

(** X12. As long as every draw is passed over the signer does not return;
    and for an order [n <= 0] every draw is passed over, whatever the
    entropy and the arithmetic: the signer never returns. *)
Theorem sign_exhausts_entropy {S : Type} (T : FiniteDomain.t)
  (_ef_ : list Z -> Z) (_7f_ : shape S) (d : Z) (M : list Z) (rnd : entropy) :
  (Forall (fun K => redraws T _ef_ d M K = true) rnd ->
   _6dcb8a_ T _ef_ _7f_ d M rnd = None)
  /\ (FiniteDomain.n T <= 0 -> _6dcb8a_ T _ef_ _7f_ d M rnd = None).
Proof.
  assert (Hall : Forall (fun K => redraws T _ef_ d M K = true) rnd ->
                 _6dcb8a_ T _ef_ _7f_ d M rnd = None).
  { induction 1 as [|K rnd HK _ IH]; [reflexivity|].
    rewrite _6dcb8a__redraws by assumption. exact IH. }
  split; [exact Hall|].
  intros Hn. apply Hall. apply Forall_forall. intros K _.
  apply redraws_nonpos. assumption.
Qed.

(** ** Signatures and verification under the laws *)

Lemma shiftr_1_odd_decompose (v : Z) :
  v = 2 * Z.shiftr v 1 + Z.b2z (Z.odd v).
Proof. rewrite <- Z.div2_spec. apply Z.div2_odd. Qed.

Section SignatureFacts.

Context (T : FiniteDomain.t) (p : Z) (HL : DomainLaws T p).

Local Abbreviation E := (FiniteDomain.E T).
Local Abbreviation F := (FiniteDomain.F T).
Local Abbreviation G := (FiniteDomain.G T).
Local Abbreviation n := (FiniteDomain.n T).
Local Abbreviation h := (FiniteDomain.h T).
Local Abbreviation L := (Bytes.byteLength (FiniteDomain.n T)).

(** X13. Whatever the base-form signer returns is a signature [{r, s}] made
    from one of the draws [K], whose value [k] lies in [[1, n)]: [r] is the
    x-coordinate of [k * G] modulo [n], and [s * k = e + r * d] modulo [n],
    for a secret [d >= 0] and a digest [e >= 0]. *)
Theorem sign_equation (digest : list Z -> Z) (d : Z) (M : list Z)
  (rnd : entropy) (res : result Signature.t) :
  0 <= d -> 0 <= digest M ->
  Forall (Bytes.is_bytes L) rnd ->
  Ecdsa_sign (EcdsaSec T digest) d M rnd = Some res ->
  exists (K : list Z) (X : Z) (sig : Signature.t),
    let k := Bytes.uint8ArrayToBigint_LE K (Some L) in
    K ∈ rnd /\ 1 <= k < n
    /\ FinitePoint.x (mulG T k) = Some X
    /\ res = Ok sig
    /\ Signature.r sig = X mod n
    /\ (Signature.s sig * k) mod n
       = (digest M + Signature.r sig * d) mod n.
Proof.
  intros Hd He Hrnd Hsign.
  unfold EcdsaSec, _66a7cf_, Ecdsa_sign, _6dcb8a_ in Hsign.
  apply (sign_loop_inv T p HL) in Hsign
    as (K & X & HK & HN & Hz & HX & Hr & Hs & ->).
  pose proof (entropy_nonneg _ _ K (Some L) Hrnd HK) as Hk.
  destruct (signature_components T p HL d (digest M) _ X Hd He Hk HX Hr Hs)
    as (Hr0 & Hs0 & Hrm & HXp & Hkn & Heq).
  assert (HKb : Bytes.is_bytes L K)
    by (eapply Forall_forall in Hrnd; eauto).
  destruct (nonce_compare_range n K HKb) as [_ Hrange].
  assert (Hin : 1 <= Bytes.uint8ArrayToBigint_LE K (Some L) < n).
  { clear - HN Hz Hrange.
    destruct (Z.geb_spec (Bytes.compare K
                (Bytes.bigintToUint8Array_LE n L)) 0); [lia|].
    destruct (Z.eqb_spec (Bytes.compare K (Bytes.new_Uint8Array L)) 0);
      [contradiction|].
    simpl in Hrange. symmetry in Hrange.
    apply negb_false_iff, andb_true_iff in Hrange as [H1 H2].
    apply Z.leb_le in H1. apply Z.ltb_lt in H2. lia. }
  exists K, X. eexists. cbv zeta.
  split; [exact HK|]. split; [exact Hin|]. split; [exact HX|].
  split; [reflexivity|]. split; [exact Hrm|]. exact Heq.
Qed.

(** X14. Whatever the signer returns with the recoverable shape is a
    signature (no exception) with [0 < r < n], [0 < s <= n / 2] and
    [v >= 0]; and [v <= 2 h + 1] when [p <= (h + 1) * n], so that [v] is one
    of 0, 1, 2, 3 for a domain of cofactor 1. *)
Theorem recoverable_signature_in_range (digest : list Z -> Z) (d : Z)
  (M : list Z) (rnd : entropy) (res : result RecoverableSignature.t) :
  0 <= d -> 0 <= digest M ->
  Forall (Bytes.is_bytes L) rnd ->
  Ecdsa_sign (EcdsaFastRecover T digest) d M rnd = Some res ->
  exists sig,
    res = Ok sig
    /\ 0 < RecoverableSignature.r sig < n
    /\ 0 < RecoverableSignature.s sig <= n / 2
    /\ 0 <= RecoverableSignature.v sig
    /\ (p <= (h + 1) * n -> RecoverableSignature.v sig <= 2 * h + 1).
Proof.
  intros Hd He Hrnd Hsign. pose proof (n_pos T p HL) as Hn.
  unfold EcdsaFastRecover, _66a7cf_, Ecdsa_sign, _6dcb8a_ in Hsign.
  apply (sign_loop_inv T p HL) in Hsign
    as (K & X & HK & _ & _ & HX & Hr & Hs & ->).
  pose proof (entropy_nonneg _ _ K (Some L) Hrnd HK) as Hk.
  destruct (signature_components T p HL d (digest M) _ X Hd He Hk HX Hr Hs)
    as (Hr0 & Hs0 & _ & HXp & Hkn & _).
  destruct (mulG_coordinates T p HL _ Hk Hkn) as (_ & X' & Y & HX' & HY & _).
  set (k := Bytes.uint8ArrayToBigint_LE K (Some L)) in *.
  set (s := FiniteField.divide F _ k) in *.
  set (r := Z.rem X n) in *.
  unfold _30ecde_, _033399_. rewrite HY, HX. simpl bind. unfold js_quot.
  destruct (Z.eqb_spec n 0) as [|_]; [lia|]. simpl bind.
  set (v0 := Z.lor (Z.lor 0 (Z.land Y 1)) (Z.shiftl (Z.quot X n) 1)).
  assert (Hq : Z.shiftr v0 1 = X / n).
  { unfold v0. rewrite discriminant_shiftr.
    apply Z.quot_div_nonneg; lia. }
  assert (Hq0 : 0 <= X / n) by (apply Z.div_pos; lia).
  assert (Hhalf : Z.shiftr n 1 = n / 2) by apply shiftr_1_half.
  assert (Hn2 : n - n / 2 <= n / 2 + 1).
  { pose proof (Z.div_mod n 2 ltac:(lia)).
    pose proof (Z.mod_pos_bound n 2 ltac:(lia)). lia. }
  assert (Hcof : p <= (h + 1) * n -> X / n <= h)
    by (intros Hc; apply (x_quotient_bound T p HL X Hc HXp)).
  unfold low_s. rewrite Hhalf.
  destruct (Z.gtb_spec s (n / 2)) as [Hhigh|Hlow].
  - eexists. split; [reflexivity|]. simpl.
    pose proof (shiftr_1_odd_decompose (Z.lxor v0 1)) as Hv.
    rewrite lxor_1_shiftr, Hq in Hv.
    split; [exact Hr0|]. split; [clear - Hs0 Hhigh Hn2; lia|].
    split.
    + rewrite Hv. destruct (Z.odd _); simpl; clear - Hq0; lia.
    + intros Hc. specialize (Hcof Hc). rewrite Hv.
      destruct (Z.odd _); simpl; clear - Hcof; lia.
  - eexists. split; [reflexivity|]. simpl.
    pose proof (shiftr_1_odd_decompose v0) as Hv. rewrite Hq in Hv.
    split; [exact Hr0|]. split; [clear - Hs0 Hlow; lia|].
    split.
    + rewrite Hv. destruct (Z.odd _); simpl; clear - Hq0; lia.
    + intros Hc. specialize (Hcof Hc). rewrite Hv.
      destruct (Z.odd _); simpl; clear - Hcof; lia.
Qed.

(** the signing equation written for the opposite nonce *)
Lemma opposite_nonce_equation (s k c : Z) :
  eqm n (s * k) c -> eqm n ((n - s) * (n - k mod n)) c.
Proof.
  intros Heq. pose proof (n_pos T p HL) as Hn.
  replace ((n - s) * (n - k mod n))
    with (n * (n - s - k mod n) + s * (k mod n)) by ring.
  assert (H0 : eqm n (n * (n - s - k mod n)) 0).
  { unfold eqm. rewrite Z.mul_comm, Z.mod_mul by (clear - Hn; lia).
    reflexivity. }
  rewrite H0, Zmod_eqm, Heq. reflexivity.
Qed.

(** X15. With a base-form signature [{r, s}] of the signer, [{r, n - s}]
    verifies against the same public point and message as well. *)
Theorem verify_accepts_opposite_s (digest : list Z -> Z) (d : Z) (M : list Z)
  (rnd : entropy) (sig : Signature.t) :
  0 <= d -> 0 <= digest M ->
  Forall (Bytes.is_bytes L) rnd ->
  Ecdsa_sign (EcdsaSec T digest) d M rnd = Some (Ok sig) ->
  Ecdsa_verify (EcdsaSec T digest) (mulG T d)
    (Signature.mk (Signature.r sig) (n - Signature.s sig)) M = Ok true.
Proof.
  intros Hd He Hrnd Hsign. pose proof (n_pos T p HL) as Hn.
  unfold EcdsaSec, _66a7cf_, Ecdsa_sign, _6dcb8a_ in Hsign.
  apply (sign_loop_inv T p HL) in Hsign
    as (K & X & HK & _ & _ & HX & Hr & Hs & Hsig).
  pose proof (entropy_nonneg _ _ K (Some L) Hrnd HK) as Hk.
  destruct (signature_components T p HL d (digest M) _ X Hd He Hk HX Hr Hs)
    as (Hr0 & Hs0 & Hrm & HXp & Hkn & Heq).
  injection Hsig as ->.
  unfold EcdsaSec, _66a7cf_, Ecdsa_verify. simpl Signature.r. simpl Signature.s.
  set (k := Bytes.uint8ArrayToBigint_LE K (Some L)) in *.
  set (s := FiniteField.divide F _ k) in *.
  pose proof (Z.mod_pos_bound k n Hn) as HkB.
  assert (HkB' : 0 < k mod n < n) by (clear - HkB Hkn; lia).
  apply (verify_accepts T p HL digest _ M d (n - k mod n) X Hd He); simpl.
  - clear - HkB'. lia.
  - exact Hr0.
  - clear - Hs0. lia.
  - apply opposite_nonce_equation. exact Heq.
  - rewrite (mulG_opposite_x T p HL) by exact HkB'.
    rewrite <- (mulG_mod T p HL k) by assumption. assumption.
  - symmetry. assumption.
Qed.

(** X16. For a public point [d * G], a digest [e >= 0] and a signature in
    range, [verify] does not throw, and it accepts exactly the signatures
    that satisfy the signing equation: it returns [true] if and only if
    there is a nonce [k] in [(0, n)] with [r] the x-coordinate of [k * G]
    modulo [n] and [s * k = e + r * d] modulo [n]. *)
Theorem verify_iff_signing_equation (digest : list Z -> Z)
  (sig : Signature.t) (M : list Z) (d : Z) :
  0 <= d -> 0 <= digest M ->
  0 < Signature.r sig < n -> 0 < Signature.s sig < n ->
  verify T digest (mulG T d) sig M <> Throw
  /\ (verify T digest (mulG T d) sig M = Ok true
      <-> exists k X,
            0 < k < n
            /\ FinitePoint.x (mulG T k) = Some X
            /\ X mod n = Signature.r sig
            /\ (Signature.s sig * k) mod n
               = (digest M + Signature.r sig * d) mod n).
Proof.
  intros Hd He Hr Hs. pose proof (n_pos T p HL) as Hn.
  pose proof (order_gt_1 T p HL) as Hn1.
  set (r := Signature.r sig) in *. set (s := Signature.s sig) in *.
  set (e := digest M) in *.
  assert (Hs0 : 0 <= s) by lia.
  assert (Hsn : s mod n <> 0) by (rewrite Z.mod_small; lia).
  pose proof (F_reciprocal_range T p HL s Hs0 Hsn) as Hrec.
  assert (H1 : eqm n (s * FiniteField.reciprocal F s) 1).
  { unfold eqm. rewrite (F_reciprocal_mod T p HL) by (assumption || lia).
    rewrite Z.mod_1_l by lia. reflexivity. }
  set (u := FiniteField.reciprocal F s * (e + r * d)).
  assert (Hu : 0 <= u) by (unfold u; clear - Hrec He Hr Hd; nia).
  assert (Hsu : eqm n (s * u) (e + r * d)).
  { unfold u.
    replace (s * (FiniteField.reciprocal F s * (e + r * d)))
      with ((s * FiniteField.reciprocal F s) * (e + r * d)) by ring.
    rewrite H1. replace (1 * (e + r * d)) with (e + r * d) by ring.
    reflexivity. }
  assert (HR : FiniteDomain.divide T s
                 (FiniteCurve.add E (FiniteCurve.multiply E e G)
                    (FiniteCurve.multiply E r (mulG T d)))
               = mulG T (u mod n)).
  { rewrite (mulG_multiply T p HL) by lia.
    rewrite (mulG_add T p HL) by (clear - He Hr Hd; nia).
    rewrite (divide_mulG T p HL) by (assumption || (clear - He Hr Hd; nia)).
    rewrite (mulG_multiply T p HL) by (assumption || (clear - He Hr Hd; nia)).
    fold u. apply (mulG_mod T p HL). exact Hu. }
  pose proof (verify_in_range T digest (mulG T d) sig M) as Hv.
  simpl get_r in Hv. simpl get_s in Hv. rewrite (Hv Hr Hs). clear Hv.
  fold r s e. rewrite HR. cbv zeta.
  pose proof (Z.mod_pos_bound u n Hn) as HuB.
  destruct (Z.eq_dec (u mod n) 0) as [Hu0|Hu0].
  - rewrite Hu0. destruct (mulG_identity T p HL) as [Hid Hx]. rewrite Hid.
    split; [discriminate|]. split; [discriminate|].
    intros (k & X & Hk & HX & HXr & Heq).
    assert (Hku : eqm n k u).
    { assert (Hsk : eqm n (s * k) (s * u))
        by (unfold eqm at 1; rewrite Heq; symmetry; exact Hsu).
      assert (Hrk : eqm n (FiniteField.reciprocal F s * (s * k))
                          (FiniteField.reciprocal F s * (s * u)))
        by (rewrite Hsk; reflexivity).
      replace (FiniteField.reciprocal F s * (s * k))
        with ((s * FiniteField.reciprocal F s) * k) in Hrk by ring.
      replace (FiniteField.reciprocal F s * (s * u))
        with ((s * FiniteField.reciprocal F s) * u) in Hrk by ring.
      rewrite H1 in Hrk.
      replace (1 * k) with k in Hrk by ring.
      replace (1 * u) with u in Hrk by ring. exact Hrk. }
    unfold eqm in Hku. rewrite Hu0, Z.mod_small in Hku by (clear - Hk; lia).
    clear - Hk Hku. lia.
  - assert (HuB' : 0 < u mod n < n) by (clear - HuB Hu0; lia).
    destruct (mulG_finite T p HL (u mod n) HuB')
      as (Hid & X & Y & HX & _ & HXp & _).
    rewrite Hid, HX. split; [discriminate|].
    rewrite Z.rem_mod_nonneg by (clear - HXp Hn; lia).
    split.
    + intros Hv. injection Hv as Hv. apply Z.eqb_eq in Hv.
      exists (u mod n), X. split; [exact HuB'|]. split; [exact HX|].
      split; [exact Hv|].
      change (eqm n (s * (u mod n)) (e + r * d)).
      rewrite Zmod_eqm. exact Hsu.
    + intros (k & X' & Hk & HX' & HXr & Heq).
      assert (Hku : eqm n k u).
      { assert (Hsk : eqm n (s * k) (s * u))
          by (unfold eqm at 1; rewrite Heq; symmetry; exact Hsu).
        assert (Hrk : eqm n (FiniteField.reciprocal F s * (s * k))
                            (FiniteField.reciprocal F s * (s * u)))
          by (rewrite Hsk; reflexivity).
        replace (FiniteField.reciprocal F s * (s * k))
          with ((s * FiniteField.reciprocal F s) * k) in Hrk by ring.
        replace (FiniteField.reciprocal F s * (s * u))
          with ((s * FiniteField.reciprocal F s) * u) in Hrk by ring.
        rewrite H1 in Hrk.
        replace (1 * k) with k in Hrk by ring.
        replace (1 * u) with u in Hrk by ring. exact Hrk. }
      unfold eqm in Hku. rewrite (Z.mod_small k) in Hku by (clear - Hk; lia).
      rewrite <- Hku, HX' in HX. injection HX as <-.
      rewrite HXr, Z.eqb_refl. reflexivity.
Qed.

End SignatureFacts.

(** ** Recovery *)

Section RecoverCount.

Context (T : FiniteDomain.t).

Local Abbreviation E := (FiniteDomain.E T).
Local Abbreviation n := (FiniteDomain.n T).
Local Abbreviation h := (FiniteDomain.h T).

(** The recovery loop yields, for every point it solves and accepts, the
    candidate of that point and the candidate of its opposite, and nothing
    else. *)
Lemma recover_loop_points (r s reciprocalR : Z) (eG : FinitePoint.t)
  (fuel : nat) :
  forall (j jn : Z) (R0 : FinitePoint.t),
    recover_loop T r s reciprocalR eG fuel j jn R0
    = flat_map
        (fun R =>
           if FinitePoint.isIdentity (FiniteCurve.multiply E n R)
           then [FiniteCurve.multiply E reciprocalR
                   (FiniteCurve.add E (FiniteCurve.multiply E s R) eG);
                 FiniteCurve.multiply E reciprocalR
                   (FiniteCurve.add E
                      (FiniteCurve.multiply E s (FiniteCurve.negate E R)) eG)]
           else [])
        (recover_points T r fuel j jn R0).
Proof.
  induction fuel as [|fuel IH]; intros j jn R0; [reflexivity|].
  rewrite recover_loop_S. cbn [recover_points].
  destruct (j <=? h); [|reflexivity]. cbv zeta.
  cbn [flat_map].
  destruct (FinitePoint.isIdentity
              (FiniteCurve.multiply E n
                 (FiniteCurve.solve E
                    (FinitePoint.set_x R0
                       (Some (FiniteField.add (FiniteCurve.F E) r jn))))));
    cbn [negb].
  - rewrite <- IH. reflexivity.
  - rewrite <- IH. reflexivity.
Qed.

(** With fuel for every turn the loop solves [h + 1] points. *)
Lemma length_recover_points (r : Z) (fuel : nat) :
  forall (j jn : Z) (R0 : FinitePoint.t),
    j + Z.of_nat fuel <= h + 1 ->
    length (recover_points T r fuel j jn R0) = fuel.
Proof.
  induction fuel as [|fuel IH]; intros j jn R0 Hj; [reflexivity|].
  cbn [recover_points]. destruct (Z.leb_spec j h); [|lia].
  cbv zeta. cbn [length]. rewrite IH by lia. reflexivity.
Qed.

Lemma yield_loop_length (s reciprocalR : Z) (eG : FinitePoint.t)
  (count : nat) :
  forall R, length (fst (yield_loop T s reciprocalR eG count R)) = count.
Proof.
  induction count as [|count IH]; intros R; [reflexivity|].
  simpl. specialize (IH (FiniteCurve.negate (FiniteDomain.E T) R)).
  destruct (yield_loop T s reciprocalR eG count _) as [rest R'].
  simpl in *. rewrite IH. reflexivity.
Qed.

Lemma recover_loop_length (r s reciprocalR : Z) (eG : FinitePoint.t)
  (fuel : nat) :
  forall (j jn : Z) (R : FinitePoint.t),
    exists q : nat,
      length (recover_loop T r s reciprocalR eG fuel j jn R) = (2 * q)%nat
      /\ (q <= fuel)%nat.
Proof.
  induction fuel as [|fuel IH]; intros j jn R.
  - exists 0%nat. split; [reflexivity|lia].
  - rewrite recover_loop_S.
    destruct (j <=? FiniteDomain.h T); [|exists 0%nat; split; [reflexivity|lia]].
    cbv zeta. destruct (negb _).
    + destruct (IH (j + 1) (jn + FiniteDomain.n T)
                  (FiniteCurve.solve (FiniteDomain.E T)
                     (FinitePoint.set_x R
                        (Some (FiniteField.add
                                 (FiniteCurve.F (FiniteDomain.E T)) r jn)))))
        as (q & Hq & Hle).
      exists q. split; [exact Hq|lia].
    + match goal with
      | |- context [recover_loop T r s reciprocalR eG fuel ?j' ?jn' ?R'] =>
          destruct (IH j' jn' R') as (q & Hq & Hle)
      end.
      exists (S q). rewrite length_app, yield_loop_length, Hq.
      split; lia.
Qed.

Lemma class_yield_loop_length (s reciprocalR : Z) (eG : FinitePoint.t)
  (count : nat) :
  forall R,
    length (fst (ClassForm.yield_loop T s reciprocalR eG count R)) = count.
Proof.
  induction count as [|count IH]; intros R; [reflexivity|].
  simpl. specialize (IH (FiniteCurve.negate (FiniteDomain.E T) R)).
  destruct (ClassForm.yield_loop T s reciprocalR eG count _) as [rest R'].
  simpl in *. rewrite IH. reflexivity.
Qed.

Lemma class_recover_loop_S (sig : Signature.t) (H : list Z) (hashlen : nat)
  (fuel : nat) (j : Z) (R : FinitePoint.t) :
  ClassForm.recover_loop T sig H hashlen (S fuel) j R
  = if j <=? FiniteDomain.h T then
      let R1 := FiniteCurve.solve_p3mod4 (FiniteDomain.E T)
                  (FinitePoint.set_x R
                     (Some (FiniteField.add (FiniteCurve.F (FiniteDomain.E T))
                              (Signature.r sig) (j * FiniteDomain.n T)))) in
      if negb (FinitePoint.isIdentity
                 (FiniteCurve.multiply (FiniteDomain.E T) (FiniteDomain.n T)
                    R1))
      then ClassForm.recover_loop T sig H hashlen fuel (j + 1) R1
      else
        let Y := ClassForm.yield_loop T (Signature.s sig)
                   (FiniteField.reciprocal (FiniteDomain.F T)
                      (Signature.r sig))
                   (mulG T (FiniteField.inverse (FiniteDomain.F T)
                              (Bytes.uint8ArrayToBigint_LE H (Some hashlen))))
                   2 R1 in
        fst Y ++ ClassForm.recover_loop T sig H hashlen fuel (j + 1) (snd Y)
    else [].
Proof.
  simpl. destruct (j <=? FiniteDomain.h T); [|reflexivity].
  destruct (negb _); reflexivity.
Qed.

Lemma class_recover_loop_length (sig : Signature.t) (H : list Z)
  (hashlen : nat) (fuel : nat) :
  forall (j : Z) (R : FinitePoint.t),
    exists q : nat,
      length (ClassForm.recover_loop T sig H hashlen fuel j R) = (2 * q)%nat
      /\ (q <= fuel)%nat.
Proof.
  induction fuel as [|fuel IH]; intros j R.
  - exists 0%nat. split; [reflexivity|lia].
  - rewrite class_recover_loop_S.
    destruct (j <=? FiniteDomain.h T); [|exists 0%nat; split; [reflexivity|lia]].
    cbv zeta. destruct (negb _).
    + match goal with
      | |- context [ClassForm.recover_loop T sig H hashlen fuel ?j' ?R'] =>
          destruct (IH j' R') as (q & Hq & Hle)
      end.
      exists q. split; [exact Hq|lia].
    + match goal with
      | |- context [ClassForm.recover_loop T sig H hashlen fuel ?j' ?R'] =>
          destruct (IH j' R') as (q & Hq & Hle)
      end.
      exists (S q). rewrite length_app, class_yield_loop_length, Hq.
      split; lia.
Qed.

End RecoverCount.

(** X17. The generic recoverer yields its candidates in pairs, at most
    [h + 1] pairs (none for [h < 0]); so does [recover_p3mod4] of the class
    form. *)
Theorem recover_candidate_count (T : FiniteDomain.t) :
  (forall (S : Type) (HS : HasRS S) (digest : list Z -> Z) (sig : S)
          (M : list Z) (cands : list FinitePoint.t),
      _2bfce0_ T digest sig M = Ok cands ->
      exists q : nat,
        length cands = (2 * q)%nat /\ Z.of_nat q <= Z.max 0 (FiniteDomain.h T + 1))
  /\ (forall (sig : Signature.t) (H : list Z) (hashlen : nat),
        exists q : nat,
          length (ClassForm.recover_p3mod4 T sig H hashlen) = (2 * q)%nat
          /\ Z.of_nat q <= Z.max 0 (FiniteDomain.h T + 1)).
Proof.
  split.
  - intros S HS digest sig M cands. unfold _2bfce0_.
    destruct (js_rem _ _) as [e|]; simpl; [|discriminate].
    intros Hc. injection Hc as <-.
    match goal with
    | |- context [recover_loop T ?r ?s ?rr ?eG ?fuel ?j ?jn ?R] =>
        destruct (recover_loop_length T r s rr eG fuel j jn R) as (q & Hq & Hle)
    end.
    exists q. split; [exact Hq|lia].
  - intros sig H hashlen. unfold ClassForm.recover_p3mod4.
    match goal with
    | |- context [ClassForm.recover_loop T sig H hashlen ?fuel ?j ?R] =>
        destruct (class_recover_loop_length T sig H hashlen fuel j R)
          as (q & Hq & Hle)
    end.
    exists q. split; [exact Hq|lia].
Qed.

Section RecoverFacts.

Context (T : FiniteDomain.t) (p : Z) (HL : DomainLaws T p).

Local Abbreviation E := (FiniteDomain.E T).
Local Abbreviation F := (FiniteDomain.F T).
Local Abbreviation G := (FiniteDomain.G T).
Local Abbreviation n := (FiniteDomain.n T).
Local Abbreviation h := (FiniteDomain.h T).
Local Abbreviation L := (Bytes.byteLength (FiniteDomain.n T)).

(** X23. The generic recoverer solves [h + 1] points, one for every
    [j <= h], and yields exactly, in the order of the turns, for every one
    of them [R] with [n * R] the identity, the two candidates
    [r^-1 * (s * R - e * G)] for [R] and then for [-R], [e >= 0] being the
    digest integer. *)
Theorem generic_recover_candidates (digest : list Z -> Z) (sig : Signature.t)
  (M : list Z) :
  0 <= digest M ->
  let r := Signature.r sig in
  let s := Signature.s sig in
  let e := digest M in
  let points :=
    recover_points T r (Z.to_nat (h + 1)) 0 0
      (FinitePoint.set_isIdentity (FiniteCurve.new E) false) in
  length points = Z.to_nat (h + 1)
  /\ Ecdsa_recover (EcdsaSec T digest) sig M
     = Ok (flat_map
             (fun R =>
                if FinitePoint.isIdentity (FiniteCurve.multiply E n R)
                then [recovery_formula T r s e R;
                      recovery_formula T r s e (FiniteCurve.negate E R)]
                else [])
             points).
Proof.
  intros He r s e points. pose proof (n_pos T p HL) as Hn. split.
  - unfold points. destruct (Z.le_gt_cases 0 (h + 1)) as [Hh|Hh].
    + apply length_recover_points. lia.
    + rewrite Z2Nat.nonpos by lia. reflexivity.
  - unfold EcdsaSec, _66a7cf_, Ecdsa_recover, _2bfce0_, js_rem.
    destruct (Z.eqb_spec n 0) as [|_]; [lia|]. simpl bind.
    simpl get_r. simpl get_s. fold r s.
    rewrite recover_loop_points.
    rewrite (inverse_digest_point T p HL) by exact He. reflexivity.
Qed.



(** X18. When [p <= (h + 1) * n], the components [{r, s}] of a recoverable
    signature of the signer, low-s normalization included, have the public
    point [d * G] among the candidates the generic recoverer yields. *)
Theorem recoverable_signature_generic_recover (digest : list Z -> Z) (d : Z)
  (M : list Z) (rnd : entropy) (sig : RecoverableSignature.t) :
  p <= (h + 1) * n ->
  0 < d < n -> 0 <= digest M ->
  Forall (Bytes.is_bytes L) rnd ->
  Ecdsa_sign (EcdsaFastRecover T digest) d M rnd = Some (Ok sig) ->
  exists cands,
    Ecdsa_recover (EcdsaSec T digest)
      (Signature.mk (RecoverableSignature.r sig) (RecoverableSignature.s sig))
      M = Ok cands
    /\ mulG T d ∈ cands.
Proof.
  intros Hc Hd He Hrnd Hsign. pose proof (n_pos T p HL) as Hn.
  unfold EcdsaFastRecover, _66a7cf_, Ecdsa_sign, _6dcb8a_ in Hsign.
  apply (sign_loop_inv T p HL) in Hsign
    as (K & X & HK & _ & _ & HX & Hr & Hs & Hsig).
  pose proof (entropy_nonneg _ _ K (Some L) Hrnd HK) as Hk.
  assert (Hd0 : 0 <= d) by lia.
  destruct (signature_components T p HL d (digest M) _ X Hd0 He Hk HX Hr Hs)
    as (Hr0 & Hs0 & Hrm & HXp & Hkn & Heq).
  symmetry in Hsig. unfold _30ecde_ in Hsig.
  apply _033399__inv in Hsig as (X' & Y & _ & _ & _ & Hsr & Hsv).
  set (k := Bytes.uint8ArrayToBigint_LE K (Some L)) in *.
  set (s := FiniteField.divide F _ k) in *.
  pose proof (Z.mod_pos_bound k n Hn) as HkB.
  assert (HkB' : 0 < k mod n < n) by (clear - HkB Hkn; lia).
  clear HkB Hkn.
  rewrite (mulG_mod T p HL k Hk) in HX.
  assert (Heq' : eqm n (s * (k mod n)) (digest M + Z.rem X n * d))
    by (rewrite Zmod_eqm; exact Heq).
  assert (HrX : Z.rem X n = X - X / n * n).
  { rewrite Hrm. rewrite Z.mod_eq by (clear - Hn; lia). ring. }
  clear Hrm.
  destruct (x_quotient_bound T p HL X Hc HXp) as [Hq0 Hqh].
  unfold EcdsaSec, _66a7cf_, Ecdsa_recover, _2bfce0_, js_rem.
  destruct (Z.eqb_spec n 0) as [|_]; [lia|]. simpl bind.
  eexists. split; [reflexivity|]. simpl get_r. simpl get_s.
  rewrite Hsr. unfold low_s in Hsv.
  destruct (Z.gtb_spec s (Z.shiftr n 1)) as [Hhigh|Hlow];
    injection Hsv as Hs' Hv'; rewrite Hs'.
  - apply (recover_loop_complete T p HL _ (n - s) (digest M) d
             (n - k mod n) X); auto; try lia.
    + replace (n - k mod n) with (n - (k mod n) mod n)
        by (rewrite Z.mod_mod by lia; reflexivity).
      apply (opposite_nonce_equation T p HL). exact Heq'.
    + rewrite (mulG_opposite_x T p HL) by exact HkB'. exact HX.
  - apply (recover_loop_complete T p HL _ s (digest M) d (k mod n) X);
      auto; try lia.
Qed.

(** X19. For every recoverable signature in range, made by the signer or
    not, whose x-coordinate [r + (v >> 1) * n] is that of a point [k * G] of
    the group: the fast recoverer returns a point, and [verify] accepts the
    signature with that point and the same message. *)
Theorem fast_recover_verifies (digest : list Z -> Z)
  (sig : RecoverableSignature.t) (M : list Z) (k : Z) :
  0 <= digest M ->
  0 < RecoverableSignature.r sig < n -> 0 < RecoverableSignature.s sig < n ->
  0 < k < n ->
  FinitePoint.x (mulG T k)
  = Some (RecoverableSignature.r sig
          + Z.shiftr (RecoverableSignature.v sig) 1 * n) ->
  exists Q,
    Ecdsa_recover (EcdsaFastRecover T digest) sig M = Ok Q
    /\ Ecdsa_verify (EcdsaFastRecover T digest) Q sig M = Ok true.
Proof.
  intros He Hr Hs Hk HX. pose proof (n_pos T p HL) as Hn.
  pose proof (order_gt_1 T p HL) as Hn1.
  set (r := RecoverableSignature.r sig) in *.
  set (s := RecoverableSignature.s sig) in *.
  set (v := RecoverableSignature.v sig) in *.
  set (e := digest M) in *.
  set (X := r + Z.shiftr v 1 * n) in *.
  destruct (mulG_finite T p HL k Hk) as (_ & X' & Y & HX' & HY & HXp & _).
  rewrite HX in HX'. injection HX' as <-.
  assert (Hquot : X / n = Z.shiftr v 1).
  { symmetry. apply (Z.div_unique X n (Z.shiftr v 1) r); [lia|].
    unfold X. ring. }
  assert (Hrem : Z.rem X n = r).
  { rewrite Z.rem_mod_nonneg by lia. symmetry.
    apply (Z.mod_unique X n (Z.shiftr v 1) r); [lia|]. unfold X. ring. }
  assert (Hsel : exists kf Yf,
             0 < kf < n /\ FinitePoint.x (mulG T kf) = Some X
             /\ FinitePoint.y (mulG T kf) = Some Yf
             /\ Z.odd v = Z.odd Yf).
  { destruct (Bool.eqb (Z.odd v) (Z.odd Y)) eqn:Hpar.
    - exists k, Y. apply eqb_prop in Hpar. auto.
    - destruct (mulG_finite T p HL (n - k) ltac:(lia))
        as (_ & X' & Y' & _ & HY' & _).
      pose proof (mulG_parity T p HL k Y Y' Hk HY HY') as Hne.
      rewrite !land_1_odd in Hne.
      exists (n - k), Y'. split; [lia|].
      split; [rewrite (mulG_opposite_x T p HL) by exact Hk; exact HX|].
      split; [exact HY'|].
      destruct (Z.odd v), (Z.odd Y), (Z.odd Y'); simpl in *;
        congruence. }
  destruct Hsel as (kf & Yf & Hkf & HXf & HYf & Hodd).
  assert (Hr0 : 0 <= r) by lia.
  assert (Hrn : r mod n <> 0) by (rewrite Z.mod_small; lia).
  pose proof (F_reciprocal_range T p HL r Hr0 Hrn) as Hrec.
  assert (Hone : eqm n (r * FiniteField.reciprocal F r) 1).
  { unfold eqm. rewrite (F_reciprocal_mod T p HL) by assumption.
    rewrite Z.mod_1_l by lia. reflexivity. }
  clear Hrn.
  pose proof (Z.mod_pos_bound e n Hn) as HeB.
  set (d := (FiniteField.reciprocal F r * (s * kf + (n - e mod n))) mod n).
  assert (Hd : 0 <= d) by (apply Z.mod_pos_bound; exact Hn).
  assert (Heq : eqm n (s * kf) (e + r * d)).
  { unfold d. rewrite Zmod_eqm.
    replace (r * (FiniteField.reciprocal F r * (s * kf + (n - e mod n))))
      with ((r * FiniteField.reciprocal F r) * (s * kf + (n - e mod n)))
      by ring.
    rewrite Hone, Zmod_eqm.
    replace (e + 1 * (s * kf + (n - e))) with (s * kf + n * 1) by ring.
    assert (H0 : eqm n (n * 1) 0).
    { unfold eqm. rewrite Z.mul_comm, Z.mod_mul by (clear - Hn; lia).
      reflexivity. }
    rewrite H0. replace (s * kf + 0) with (s * kf) by ring. reflexivity. }
  exists (mulG T d).
  unfold EcdsaFastRecover, _66a7cf_, Ecdsa_recover, Ecdsa_verify.
  split.
  - apply (fast_recover_core T p HL digest sig M d kf X Yf Hd He Hkf HXf HYf).
    + symmetry. exact Hrem.
    + rewrite Hrem. clear - Hr. lia.
    + fold s. clear - Hs. lia.
    + fold v. rewrite <- Hquot. symmetry. apply Z.quot_div_nonneg; lia.
    + exact Hodd.
    + exact Heq.
  - apply (verify_accepts T p HL digest sig M d kf X Hd He).
    + clear - Hkf. lia.
    + exact Hr.
    + exact Hs.
    + exact Heq.
    + exact HXf.
    + rewrite <- (Z.rem_mod_nonneg X n) by lia. exact Hrem.
Qed.

End RecoverFacts.

(** ** The class form and the generic form *)

Section ClassFormFacts.

Context (T : FiniteDomain.t) (p : Z) (HL : DomainLaws T p).

Local Abbreviation E := (FiniteDomain.E T).
Local Abbreviation F := (FiniteDomain.F T).
Local Abbreviation G := (FiniteDomain.G T).
Local Abbreviation n := (FiniteDomain.n T).
Local Abbreviation h := (FiniteDomain.h T).
Local Abbreviation L := (Bytes.byteLength (FiniteDomain.n T)).
Local Abbreviation N :=
  (Bytes.bigintToUint8Array_LE (FiniteDomain.n T)
     (Bytes.byteLength (FiniteDomain.n T))).
Local Abbreviation zero :=
  (Bytes.new_Uint8Array (Bytes.byteLength (FiniteDomain.n T))).

Lemma class_sign_loop_S (d e : Z) (hashlen : nat) (N0 zero0 : list Z)
  (fuel : nat) (rnd : entropy) :
  ClassForm.sign_loop T d e hashlen N0 zero0 (S fuel) rnd
  = match ClassForm.nonce_loop N0 zero0 rnd with
    | None => None
    | Some (K, rnd') =>
        let k := Bytes.uint8ArrayToBigint_LE K (Some hashlen) in
        let R := FiniteCurve.multiply E k G in
        match FinitePoint.x R with
        | None => ClassForm.sign_loop T d e hashlen N0 zero0 fuel rnd'
        | Some X =>
            match js_rem X n with
            | Throw => Some Throw
            | Ok r =>
                if r =? 0
                then ClassForm.sign_loop T d e hashlen N0 zero0 fuel rnd'
                else
                  let _77_ := FiniteField.multiply F r d in
                  let _68_ := FiniteField.add F e _77_ in
                  let s := FiniteField.divide F _68_ k in
                  if s =? 0
                  then ClassForm.sign_loop T d e hashlen N0 zero0 fuel rnd'
                  else Some (Ok (Signature.mk r s))
            end
        end
    end.
Proof. reflexivity. Qed.

(** With draws of the byte length of [n], the two signing loops return the
    same: the draw [K = N], which only the class form accepts, gives the
    identity and is passed over. *)
Lemma class_sign_loop_generic (d e : Z) (M : list Z) (rnd : entropy) :
  Forall (Bytes.is_bytes L) rnd ->
  forall fuel : nat,
    (length rnd <= fuel)%nat ->
    ClassForm.sign_loop T d e L N zero fuel rnd
    = sign_loop T _f34c7e_ d M e L N zero fuel rnd.
Proof.
  pose proof (n_pos T p HL) as Hn.
  induction 1 as [|K rnd HK _ IH]; intros fuel Hlen.
  - destruct fuel; reflexivity.
  - destruct fuel as [|fuel]; [simpl in Hlen; lia|]. simpl in Hlen.
    rewrite class_sign_loop_S, sign_loop_S.
    cbn [nonce_loop ClassForm.nonce_loop].
    assert (Hk : Bytes.uint8ArrayToBigint_LE K (Some L) = Bytes.le_val K).
    { rewrite uint8ArrayToBigint_LE_le_val. simpl default.
      destruct HK as [HlenK _]. rewrite take_ge by lia. reflexivity. }
    pose proof (le_val_bound K (proj2 HK)) as HbK.
    assert (HcN : Bytes.compare K N
                  = match Bytes.le_val K ?= n with
                    | Eq => 0 | Lt => -1 | Gt => 1
                    end).
    { rewrite bigintToUint8Array_LE_le_bytes by lia.
      rewrite (compare_le_val L K (Bytes.le_bytes L n))
        by auto using le_bytes_bytes.
      rewrite le_val_le_bytes.
      rewrite Z.mod_small by (split; [lia|apply byteLength_bound; lia]).
      reflexivity. }
    assert (Hcz : Bytes.compare K zero
                  = match Bytes.le_val K ?= 0 with
                    | Eq => 0 | Lt => -1 | Gt => 1
                    end).
    { rewrite (compare_le_val L K (Bytes.new_Uint8Array L)).
      - unfold Bytes.new_Uint8Array. rewrite le_val_replicate_0.
        reflexivity.
      - assumption.
      - split; [apply length_replicate|]. apply Forall_replicate. lia. }
    rewrite HcN, Hcz. clear HcN Hcz.
    assert (Hskip :
      match ClassForm.nonce_loop N zero rnd with
      | None => None
      | Some (K, rnd') =>
          let k := Bytes.uint8ArrayToBigint_LE K (Some L) in
          let R := FiniteCurve.multiply E k G in
          match FinitePoint.x R with
          | None => ClassForm.sign_loop T d e L N zero fuel rnd'
          | Some X =>
              match js_rem X n with
              | Throw => Some Throw
              | Ok r =>
                  if r =? 0
                  then ClassForm.sign_loop T d e L N zero fuel rnd'
                  else
                    let _77_ := FiniteField.multiply F r d in
                    let _68_ := FiniteField.add F e _77_ in
                    let s := FiniteField.divide F _68_ k in
                    if s =? 0
                    then ClassForm.sign_loop T d e L N zero fuel rnd'
                    else Some (Ok (Signature.mk r s))
              end
          end
      end
      = sign_loop T _f34c7e_ d M e L N zero (S fuel) rnd).
    { rewrite <- class_sign_loop_S. apply IH. lia. }
    destruct (Z.compare_spec (Bytes.le_val K) n) as [Heq|Hlt|Hgt];
      destruct (Z.compare_spec (Bytes.le_val K) 0) as [Hz|Hneg|Hpos];
      try lia; cbn [Z.eqb Z.geb Z.compare orb Pos.eqb].
    + (* K = N: accepted by the class form only *)
      rewrite <- sign_loop_S, sign_loop_fuel by lia.
      cbv zeta. rewrite Hk, Heq, (mulG_n T p HL).
      destruct (mulG_identity T p HL) as [_ ->]. apply IH. lia.
    + exact Hskip.
    + cbv zeta. destruct (FinitePoint.x _) as [X|]; [|apply IH; lia].
      destruct (js_rem X n) as [r|]; [|reflexivity].
      destruct (r =? 0); [apply IH; lia|].
      match goal with
      | |- context [if ?c =? 0 then _ else _] =>
          destruct (c =? 0); [apply IH; lia|]
      end.
      reflexivity.
    + exact Hskip.
Qed.

(** X20. With the hash length set to the byte length of [n], [Ecdsa.sign]
    of the class form returns, on the same draws, what the generic signer
    returns with the base shape and the little-endian digest.  The draw
    that encodes [n] itself, which the class form alone accepts, gives the
    identity and is passed over. *)
Theorem class_sign_equals_generic (H : list Z) (d : Z) (rnd : entropy) :
  Forall (Bytes.is_bytes L) rnd ->
  ClassForm.sign T H d L rnd
  = Ecdsa_sign
      (EcdsaSec T (fun H => Bytes.uint8ArrayToBigint_LE H (Some L))) d H rnd.
Proof.
  intros Hrnd. unfold ClassForm.sign, EcdsaSec, _66a7cf_, Ecdsa_sign, _6dcb8a_.
  apply class_sign_loop_generic; [assumption|lia].
Qed.

(** X21. For a digest below [n], [recover_p3mod4] of the class form yields
    the candidates the generic recoverer yields, in the same order. *)
Theorem class_recover_equals_generic (sig : Signature.t) (H : list Z)
  (hashlen : nat) :
  0 <= Bytes.uint8ArrayToBigint_LE H (Some hashlen) < n ->
  Ecdsa_recover
    (EcdsaSec T (fun H => Bytes.uint8ArrayToBigint_LE H (Some hashlen)))
    sig H
  = Ok (ClassForm.recover_p3mod4 T sig H hashlen).
Proof.
  intros He. pose proof (n_pos T p HL) as Hn.
  unfold EcdsaSec, _66a7cf_, Ecdsa_recover, _2bfce0_, js_rem.
  destruct (Z.eqb_spec n 0) as [|_]; [lia|]. simpl bind.
  unfold ClassForm.recover_p3mod4.
  rewrite (class_recover_loop_generic T p HL) by exact He.
  reflexivity.
Qed.

(** X22. For an instance of the class [Ecdsa] over the domain [T], with
    [p <= (h + 1) * n] and a digest below [n]: a signature its method
    [sign] returns for the secret [d] in [(0, n)] is accepted by its method
    [verify] with the public point [d * G], and [d * G] is among the points
    its method [recover_p3mod4] yields. *)
Theorem instance_methods_roundtrip (this : ClassForm.Ecdsa) (H : list Z)
  (d : Z) (rnd : entropy) (sig : Signature.t) :
  ClassForm.T this = T ->
  p <= (h + 1) * n ->
  0 < d < n -> Forall (fun v => 0 <= v < 256) H ->
  Bytes.uint8ArrayToBigint_LE H (Some (ClassForm.hashlen this)) < n ->
  Forall (Bytes.is_bytes (ClassForm.hashlen this)) rnd ->
  ClassForm.sign_method this H d rnd = Some (Ok sig) ->
  ClassForm.verify_method this (mulG T d) sig H = Ok true
  /\ mulG T d ∈ ClassForm.recover_p3mod4_method this sig H.
Proof.
  intros HT Hc Hd HH Hen Hrnd Hsign.
  unfold ClassForm.sign_method, ClassForm.verify_method,
    ClassForm.recover_p3mod4_method in *.
  rewrite HT in *. set (hashlen := ClassForm.hashlen this) in *.
  split.
  - unfold ClassForm.sign in Hsign.
    apply (class_sign_loop_inv T p HL) in Hsign
      as (K & X & HK & _ & _ & HX & Hr & Hs & Hsig).
    pose proof (entropy_nonneg _ _ K (Some hashlen) Hrnd HK) as Hk.
    pose proof (uint8ArrayToBigint_LE_nonneg H (Some hashlen) HH) as He.
    assert (Hd0 : 0 <= d) by lia.
    destruct (signature_components T p HL d _ _ X Hd0 He Hk HX Hr Hs)
      as (Hr0 & Hs0 & Hrm & HXp & Hkn & Heq).
    injection Hsig as ->.
    change (ClassForm.verify T (mulG T d) ?sg H hashlen)
      with (verify T (fun H => Bytes.uint8ArrayToBigint_LE H (Some hashlen))
              (mulG T d) sg H).
    apply (verify_accepts T p HL _ _ H d _ X Hd0 He Hk); simpl;
      [exact Hr0|exact Hs0|exact Heq|exact HX|symmetry; exact Hrm].
  - apply (class_recover_complete T p HL H d hashlen rnd sig); assumption.
Qed.

End ClassFormFacts.

(** ** These theorems at the small domains *)

Section MoreExamples.

Local Abbreviation T19 := (Toy.T Toy.small).
Local Abbreviation Sec19 := (EcdsaSec (Toy.T Toy.small) Toy.digest).
Local Abbreviation Fast19 := (EcdsaFastRecover (Toy.T Toy.small) Toy.digest).
Local Abbreviation T19rem := (Toy.T_rem Toy.small).

Lemma toy_bytes (L : nat) (a : list Z) :
  (length a =? L)%nat && forallb (fun v => (0 <=? v) && (v <? 256)) a = true ->
  Bytes.is_bytes L a.
Proof.
  intros H. apply andb_prop in H as [Hlen Hbytes].
  split; [apply Nat.eqb_eq; assumption|].
  rewrite List.forallb_forall in Hbytes.
  apply Forall_forall. intros v Hv. apply list_elem_of_In in Hv.
  apply Hbytes in Hv. apply andb_prop in Hv as [H0 H1].
  apply Z.leb_le in H0. apply Z.ltb_lt in H1. lia.
Qed.

Lemma compare_orders_values_witness :
  Bytes.is_bytes 2 [255; 1] /\ Bytes.is_bytes 2 [0; 2]
  /\ (Bytes.compare [255; 1] [0; 2] = -1
      <-> Bytes.uint8ArrayToBigint_LE [255; 1] None
          < Bytes.uint8ArrayToBigint_LE [0; 2] None).
Proof.
  split; [apply toy_bytes; reflexivity|].
  split; [apply toy_bytes; reflexivity|].
  apply (compare_orders_values 2 [255; 1] [0; 2]);
    apply toy_bytes; reflexivity.
Defined.

Lemma bigintToUint8Array_LE_truncates_witness :
  0 <= 66051
  /\ Bytes.bigintToUint8Array_LE 66051 2 = [3; 2]
  /\ Bytes.uint8ArrayToBigint_LE (Bytes.bigintToUint8Array_LE 66051 2) None
     = 66051 mod 2 ^ (8 * Z.of_nat 2).
Proof.
  split; [lia|]. split; [vm_compute; reflexivity|].
  apply (proj1 (proj2 (bigintToUint8Array_LE_truncates 66051 2))). lia.
Defined.

Lemma le_decode_encode_witness :
  Bytes.is_bytes 2 [255; 1]
  /\ Bytes.bigintToUint8Array_LE
       (Bytes.uint8ArrayToBigint_LE [255; 1] None) 2 = [255; 1].
Proof.
  split; [apply toy_bytes; reflexivity|].
  apply (le_decode_encode 2 [255; 1]). apply toy_bytes. reflexivity.
Defined.

Lemma bigintToUint8Array_BE_left_aligned_witness :
  0 <= 258 /\ (Bytes.byteLength 258 <= 4)%nat
  /\ bigintToUint8Array_BE 258 4 = [1; 2; 0; 0]
  /\ length (bigintToUint8Array_BE 258 4) = 4%nat
  /\ uint8ArrayToBigint_BE (bigintToUint8Array_BE 258 4)
       (Some (Bytes.byteLength 258)) = 258
  /\ uint8ArrayToBigint_BE (bigintToUint8Array_BE 258 4) None
     = 258 * 256 ^ Z.of_nat (4 - Bytes.byteLength 258).
Proof.
  split; [lia|]. split; [vm_compute; lia|].
  split; [vm_compute; reflexivity|].
  apply (bigintToUint8Array_BE_left_aligned 258 4); [lia|vm_compute; lia].
Defined.

Lemma bigintToUint8Array_BE_most_significant_witness :
  0 <= 66051 /\ (2 <= Bytes.byteLength 66051)%nat
  /\ bigintToUint8Array_BE 66051 2 = [1; 2]
  /\ uint8ArrayToBigint_BE (bigintToUint8Array_BE 66051 2) None
     = Z.shiftr 66051 (8 * Z.of_nat (Bytes.byteLength 66051 - 2)).
Proof.
  split; [lia|]. split; [vm_compute; lia|].
  split; [vm_compute; reflexivity|].
  apply (bigintToUint8Array_BE_most_significant 66051 2);
    [lia|vm_compute; lia].
Defined.

Lemma digest_BE_range_witness :
  Forall (fun v => 0 <= v < 256) [1; 2]
  /\ 0 <= _23dee7_ (fun M => M) [1; 2] < 256 ^ Z.of_nat (length [1; 2]).
Proof.
  split; [apply (toy_bytes 2); reflexivity|].
  apply (digest_BE_range (fun M => M) [1; 2]).
  apply (toy_bytes 2). reflexivity.
Defined.

Lemma byteLength_spec_witness :
  0 < 65536
  /\ (1 <= Bytes.byteLength 65536)%nat
  /\ 256 ^ (Z.of_nat (Bytes.byteLength 65536) - 1) <= 65536
     < 256 ^ Z.of_nat (Bytes.byteLength 65536).
Proof. split; [lia|]. apply (byteLength_spec 65536). lia. Defined.

Lemma nonce_loop_first_in_range_witness :
  Forall (Bytes.is_bytes (Bytes.byteLength 17)) [[0]; [17]; [200]; [3]; [5]]
  /\ nonce_loop (Bytes.bigintToUint8Array_LE 17 (Bytes.byteLength 17))
       (Bytes.new_Uint8Array (Bytes.byteLength 17))
       [[0]; [17]; [200]; [3]; [5]] = Some ([3], [[5]])
  /\ let value K :=
       Bytes.uint8ArrayToBigint_LE K (Some (Bytes.byteLength 17)) in
     match nonce_loop (Bytes.bigintToUint8Array_LE 17 (Bytes.byteLength 17))
             (Bytes.new_Uint8Array (Bytes.byteLength 17))
             [[0]; [17]; [200]; [3]; [5]] with
     | Some (K, rnd') =>
         exists skipped,
           [[0]; [17]; [200]; [3]; [5]] = skipped ++ K :: rnd'
           /\ Forall (fun K' => value K' = 0 \/ 17 <= value K') skipped
           /\ 1 <= value K < 17
     | None =>
         Forall (fun K' => value K' = 0 \/ 17 <= value K')
           [[0]; [17]; [200]; [3]; [5]]
     end.
Proof.
  split; [apply toy_entropy; vm_compute; reflexivity|].
  split; [vm_compute; reflexivity|].
  apply (nonce_loop_first_in_range 17 [[0]; [17]; [200]; [3]; [5]]).
  apply toy_entropy. vm_compute. reflexivity.
Defined.

Lemma sign_first_accepted_draw_witness :
  Forall (fun K' => redraws T19 Toy.digest 5 [9] K' = true)
    [[0]; [17]; [6]; [200]]
  /\ redraws T19 Toy.digest 5 [9] [2] = false
  /\ _6dcb8a_ T19 Toy.digest _f34c7e_ 5 [9]
       ([[0]; [17]; [6]; [200]] ++ [2] :: [[3]])
     = Some (Ok (Signature.mk 1 7)).
Proof.
  assert (Hpre : Forall (fun K' => redraws T19 Toy.digest 5 [9] K' = true)
                   [[0]; [17]; [6]; [200]]).
  { repeat (constructor; [vm_compute; reflexivity|]). constructor. }
  split; [exact Hpre|]. split; [vm_compute; reflexivity|].
  apply (sign_first_accepted_draw T19 Toy.digest _f34c7e_ 5 [9]
           [[0]; [17]; [6]; [200]] [2] [[3]] 18 Hpre).
  - vm_compute. reflexivity.
  - vm_compute. reflexivity.
Defined.

Lemma sign_exhausts_entropy_witness :
  Forall (fun K => redraws T19 Toy.digest 5 [9] K = true) [[0]; [17]; [6]]
  /\ _6dcb8a_ T19 Toy.digest _f34c7e_ 5 [9] [[0]; [17]; [6]] = None
  /\ FiniteDomain.n (Toy.T (Toy.mk_curve 19 2 10 0 1 3 9)) <= 0
  /\ _6dcb8a_ (Toy.T (Toy.mk_curve 19 2 10 0 1 3 9)) Toy.digest _f34c7e_
       5 [9] [[3]; []] = None.
Proof.
  assert (Hall : Forall (fun K => redraws T19 Toy.digest 5 [9] K = true)
                   [[0]; [17]; [6]]).
  { repeat (constructor; [vm_compute; reflexivity|]). constructor. }
  split; [exact Hall|].
  split;
    [exact (proj1 (sign_exhausts_entropy T19 Toy.digest _f34c7e_ 5 [9]
                     [[0]; [17]; [6]]) Hall)|].
  split; [vm_compute; discriminate|].
  apply (proj2 (sign_exhausts_entropy (Toy.T (Toy.mk_curve 19 2 10 0 1 3 9))
                  Toy.digest _f34c7e_ 5 [9] [[3]; []])).
  vm_compute. discriminate.
Defined.

Lemma sign_equation_witness :
  DomainLaws T19 19
  /\ Ecdsa_sign Sec19 5 [9] [[3]] = Some (Ok (Signature.mk 4 4))
  /\ exists (K : list Z) (X : Z) (sig : Signature.t),
       let k := Bytes.uint8ArrayToBigint_LE K
                  (Some (Bytes.byteLength (FiniteDomain.n T19))) in
       K ∈ [[3]] /\ 1 <= k < FiniteDomain.n T19
       /\ FinitePoint.x (mulG T19 k) = Some X
       /\ Ok (Signature.mk 4 4) = Ok sig
       /\ Signature.r sig = X mod FiniteDomain.n T19
       /\ (Signature.s sig * k) mod FiniteDomain.n T19
          = (Toy.digest [9] + Signature.r sig * 5) mod FiniteDomain.n T19.
Proof.
  split; [exact small_laws|]. split; [vm_compute; reflexivity|].
  apply (sign_equation T19 19 small_laws Toy.digest 5 [9] [[3]]).
  - lia.
  - vm_compute. discriminate.
  - apply toy_entropy. vm_compute. reflexivity.
  - vm_compute. reflexivity.
Defined.

Lemma recoverable_signature_in_range_witness :
  DomainLaws T19 19
  /\ Ecdsa_sign Fast19 5 [9] [[15]]
     = Some (Ok (RecoverableSignature.mk 1 7 2))
  /\ exists sig,
       Ok (RecoverableSignature.mk 1 7 2) = Ok sig
       /\ 0 < RecoverableSignature.r sig < FiniteDomain.n T19
       /\ 0 < RecoverableSignature.s sig <= FiniteDomain.n T19 / 2
       /\ 0 <= RecoverableSignature.v sig
       /\ (19 <= (FiniteDomain.h T19 + 1) * FiniteDomain.n T19 ->
           RecoverableSignature.v sig <= 2 * FiniteDomain.h T19 + 1).
Proof.
  split; [exact small_laws|]. split; [vm_compute; reflexivity|].
  apply (recoverable_signature_in_range T19 19 small_laws Toy.digest 5 [9]
           [[15]]).
  - lia.
  - vm_compute. discriminate.
  - apply toy_entropy. vm_compute. reflexivity.
  - vm_compute. reflexivity.
Defined.

Lemma verify_accepts_opposite_s_witness :
  DomainLaws T19 19
  /\ Ecdsa_sign Sec19 5 [9] [[3]] = Some (Ok (Signature.mk 4 4))
  /\ Ecdsa_verify Sec19 (mulG T19 5) (Signature.mk 4 (17 - 4)) [9] = Ok true.
Proof.
  split; [exact small_laws|]. split; [vm_compute; reflexivity|].
  apply (verify_accepts_opposite_s T19 19 small_laws Toy.digest 5 [9] [[3]]
           (Signature.mk 4 4)).
  - lia.
  - vm_compute. discriminate.
  - apply toy_entropy. vm_compute. reflexivity.
  - vm_compute. reflexivity.
Defined.

Lemma verify_iff_signing_equation_witness :
  DomainLaws T19 19
  /\ verify T19 Toy.digest (mulG T19 5) (Signature.mk 4 4) [9] <> Throw
  /\ (verify T19 Toy.digest (mulG T19 5) (Signature.mk 4 4) [9] = Ok true
      <-> exists k X,
            0 < k < FiniteDomain.n T19
            /\ FinitePoint.x (mulG T19 k) = Some X
            /\ X mod FiniteDomain.n T19 = 4
            /\ (4 * k) mod FiniteDomain.n T19
               = (Toy.digest [9] + 4 * 5) mod FiniteDomain.n T19).
Proof.
  split; [exact small_laws|].
  apply (verify_iff_signing_equation T19 19 small_laws Toy.digest
           (Signature.mk 4 4) [9] 5).
  - lia.
  - vm_compute. discriminate.
  - vm_compute. split; reflexivity.
  - vm_compute. split; reflexivity.
Defined.

Lemma recover_candidate_count_witness :
  _2bfce0_ T19 Toy.digest (Signature.mk 4 4) [9]
  = Ok [Toy.affine 8 5; Toy.affine 3 10]
  /\ exists q : nat,
       length [Toy.affine 8 5; Toy.affine 3 10] = (2 * q)%nat
       /\ Z.of_nat q <= Z.max 0 (FiniteDomain.h T19 + 1).
Proof.
  split; [vm_compute; reflexivity|].
  apply (proj1 (recover_candidate_count T19) Signature.t _ Toy.digest
           (Signature.mk 4 4) [9]).
  vm_compute. reflexivity.
Defined.

Lemma generic_recover_candidates_witness :
  DomainLaws T19 19
  /\ 0 <= Toy.digest [9]
  /\ recover_points T19 4 (Z.to_nat (FiniteDomain.h T19 + 1)) 0 0
       (FinitePoint.set_isIdentity (FiniteCurve.new (FiniteDomain.E T19)) false)
     = [Toy.affine 4 5; Toy.affine 2 15]
  /\ FinitePoint.isIdentity
       (FiniteCurve.multiply (FiniteDomain.E T19) (FiniteDomain.n T19)
          (Toy.affine 4 5)) = true
  /\ Ecdsa_recover Sec19 (Signature.mk 4 4) [9]
     = Ok (flat_map
             (fun R =>
                if FinitePoint.isIdentity
                     (FiniteCurve.multiply (FiniteDomain.E T19)
                        (FiniteDomain.n T19) R)
                then [recovery_formula T19 4 4 (Toy.digest [9]) R;
                      recovery_formula T19 4 4 (Toy.digest [9])
                        (FiniteCurve.negate (FiniteDomain.E T19) R)]
                else [])
             (recover_points T19 4 (Z.to_nat (FiniteDomain.h T19 + 1)) 0 0
                (FinitePoint.set_isIdentity
                   (FiniteCurve.new (FiniteDomain.E T19)) false)))
  /\ Ecdsa_recover Sec19 (Signature.mk 4 4) [9]
     = Ok [Toy.affine 8 5; Toy.affine 3 10].
Proof.
  split; [exact small_laws|]. split; [vm_compute; discriminate|].
  split; [vm_compute; reflexivity|]. split; [vm_compute; reflexivity|].
  split;
    [exact (proj2 (generic_recover_candidates T19 19 small_laws Toy.digest
                     (Signature.mk 4 4) [9]
                     ltac:(vm_compute; discriminate)))|].
  vm_compute. reflexivity.
Defined.


Lemma recoverable_signature_generic_recover_witness :
  DomainLaws T19 19
  /\ Ecdsa_sign Fast19 5 [9] [[15]]
     = Some (Ok (RecoverableSignature.mk 1 7 2))
  /\ exists cands,
       Ecdsa_recover Sec19 (Signature.mk 1 7) [9] = Ok cands
       /\ mulG T19 5 ∈ cands.
Proof.
  split; [exact small_laws|]. split; [vm_compute; reflexivity|].
  apply (recoverable_signature_generic_recover T19 19 small_laws Toy.digest
           5 [9] [[15]] (RecoverableSignature.mk 1 7 2)).
  - vm_compute. discriminate.
  - vm_compute. split; reflexivity.
  - vm_compute. discriminate.
  - apply toy_entropy. vm_compute. reflexivity.
  - vm_compute. reflexivity.
Defined.

Lemma fast_recover_verifies_witness :
  DomainLaws (Toy.T Toy.small) 19
  /\ FinitePoint.x (mulG (Toy.T Toy.small) 15) = Some (1 + Z.shiftr 2 1 * 17)
  /\ exists Q,
       Ecdsa_recover (EcdsaFastRecover (Toy.T Toy.small) Toy.digest)
         (RecoverableSignature.mk 1 5 2) [9] = Ok Q
       /\ Ecdsa_verify (EcdsaFastRecover (Toy.T Toy.small) Toy.digest) Q
            (RecoverableSignature.mk 1 5 2) [9] = Ok true.
Proof.
  split; [exact small_laws|]. split; [vm_compute; reflexivity|].
  apply (fast_recover_verifies (Toy.T Toy.small) 19 small_laws Toy.digest
           (RecoverableSignature.mk 1 5 2) [9] 15).
  - vm_compute. discriminate.
  - vm_compute. split; reflexivity.
  - vm_compute. split; reflexivity.
  - vm_compute. split; reflexivity.
  - vm_compute. reflexivity.
Defined.

Lemma class_sign_equals_generic_witness :
  DomainLaws T19 19
  /\ ClassForm.sign T19 [9] 5 1 [[17]; [3]] = Some (Ok (Signature.mk 4 4))
  /\ ClassForm.sign T19 [9] 5 (Bytes.byteLength (FiniteDomain.n T19))
       [[17]; [3]]
     = Ecdsa_sign
         (EcdsaSec T19
            (fun H => Bytes.uint8ArrayToBigint_LE H
                        (Some (Bytes.byteLength (FiniteDomain.n T19)))))
         5 [9] [[17]; [3]].
Proof.
  split; [exact small_laws|]. split; [vm_compute; reflexivity|].
  apply (class_sign_equals_generic T19 19 small_laws [9] 5 [[17]; [3]]).
  apply toy_entropy. vm_compute. reflexivity.
Defined.

Lemma class_recover_equals_generic_witness :
  DomainLaws T19 19
  /\ 0 <= Bytes.uint8ArrayToBigint_LE [9] (Some 1%nat) < FiniteDomain.n T19
  /\ Ecdsa_recover
       (EcdsaSec T19 (fun H => Bytes.uint8ArrayToBigint_LE H (Some 1%nat)))
       (Signature.mk 4 4) [9]
     = Ok (ClassForm.recover_p3mod4 T19 (Signature.mk 4 4) [9] 1).
Proof.
  split; [exact small_laws|]. split; [vm_compute; split; [discriminate|reflexivity]|].
  apply (class_recover_equals_generic T19 19 small_laws (Signature.mk 4 4)
           [9] 1).
  vm_compute. split; [discriminate|reflexivity].
Defined.

Lemma instance_methods_roundtrip_witness :
  DomainLaws T19 19
  /\ ClassForm.sign_method (ClassForm.mkEcdsa T19 (fun M => M) 1) [9] 5 [[3]]
     = Some (Ok (Signature.mk 4 4))
  /\ ClassForm.verify_method (ClassForm.mkEcdsa T19 (fun M => M) 1)
       (mulG T19 5) (Signature.mk 4 4) [9] = Ok true
  /\ mulG T19 5
     ∈ ClassForm.recover_p3mod4_method (ClassForm.mkEcdsa T19 (fun M => M) 1)
         (Signature.mk 4 4) [9].
Proof.
  split; [exact small_laws|]. split; [vm_compute; reflexivity|].
  apply (instance_methods_roundtrip T19 19 small_laws
           (ClassForm.mkEcdsa T19 (fun M => M) 1) [9] 5 [[3]]).
  - reflexivity.
  - vm_compute. discriminate.
  - vm_compute. split; reflexivity.
  - apply (toy_bytes 1). reflexivity.
  - vm_compute. reflexivity.
  - apply toy_entropy. vm_compute. reflexivity.
  - vm_compute. reflexivity.
Defined.

End MoreExamples.
